(** * RGB LED strip controller: colour engine, key repeat logic, PWM gating

    A shallow embedding of the two sketches of the repository:

    - [V1]: the January 2017 sketch (RGB_LED_Strip_Controller.ino), whose
      hue circle is made of three triangular ramps: its two conversions,
      its key handlers and its loop;
    - [V2]: the v2.1 sketch (October 2022), with the rainbow hue chart and
      the gating of whole PWM cycles: its two conversions, its two
      timer-overflow interrupts, its key handlers, its loop and its setup
      from the EEPROM.

    Numbers.  The sketches run on an ATmega328: [int] and [unsigned int]
    are 16 bits wide, [unsigned long] is 32 bits wide, [float] is the
    single-precision format.  Integers are modelled in [Z] with the
    wrap-around written out.  The arithmetic on [float] is kept abstract
    behind the interface [Arith], and the functions of the sketches are
    written once, over that interface.  Two instances are given:

    - [ArithQ], exact rational arithmetic: the ideal, rounding-free reading
      of the code, in which the universally quantified statements about
      colours are proved (a tolerance of a statement is then met with error
      zero);
    - [ArithB32], IEEE-754 single precision with round-to-nearest-even,
      used to run the code on concrete inputs with its infinities and NaN.

    A statement proved in [ArithQ] says so ("in exact arithmetic"); where
    single precision departs from it on a concrete input, a lemma run in
    [ArithB32] records the departure next to it.

    The statements about the repeat logic and about the interrupts do not
    depend on the arithmetic and are proved for any instance.
*)

From Stdlib Require Import ZArith QArith Qabs Qround Lqa Lia Bool List.
From Stdlib Require Import Floats.SpecFloat.
Import ListNotations.

(* ================================================================== *)
(** * Arithmetic of the [float] variables                              *)
(* ================================================================== *)

Declare Scope fl_scope.
Delimit Scope fl_scope with fl.

Class Arith (F : Type) : Type := {
  fadd : F -> F -> F;
  fsub : F -> F -> F;
  fmul : F -> F -> F;
  fdiv : F -> F -> F;
  fltb : F -> F -> bool;      (* the C test  x < y  *)
  fleb : F -> F -> bool;      (* the C test  x <= y *)
  feqb : F -> F -> bool;      (* the C test  x == y *)
  fconst : Z -> F;            (* an integer-valued literal *)
  ftrunc : F -> Z             (* conversion to an integer type: truncation *)
}.

Infix "+" := fadd : fl_scope.
Infix "-" := fsub : fl_scope.
Infix "*" := fmul : fl_scope.
Infix "/" := fdiv : fl_scope.
Infix "<?" := fltb (at level 70, no associativity) : fl_scope.
Infix "<=?" := fleb (at level 70, no associativity) : fl_scope.
Infix "=?" := feqb (at level 70, no associativity) : fl_scope.
Notation "x >? y" := (fltb y x) (at level 70, no associativity) : fl_scope.
Notation "x >=? y" := (fleb y x) (at level 70, no associativity) : fl_scope.
Notation "z %:F" := (fconst z%Z)
  (at level 1, left associativity, format "z %:F") : fl_scope.

(** A decimal literal such as [0.004] is the quotient of two integers that
    single precision represents exactly; a correctly rounded quotient is the
    correctly rounded literal. *)
Definition fdec {F} `{Arith F} (n d : Z) : F := fdiv (fconst n) (fconst d).

(** The Arduino macros [max(a,b) = ((a)>(b)?(a):(b))] and
    [min(a,b) = ((a)<(b)?(a):(b))]. *)
Definition fmax {F} `{Arith F} (a b : F) : F := if fltb b a then a else b.
Definition fmin {F} `{Arith F} (a b : F) : F := if fltb a b then a else b.

(** The Arduino macro
    [round(x) = ((x)>=0 ? (long)((x)+0.5) : (long)((x)-0.5))]. *)
Definition fround {F} `{Arith F} (x : F) : Z :=
  if fleb (fconst 0) x then ftrunc (fadd x (fdec 5 10))
  else ftrunc (fsub x (fdec 5 10)).

(** ** Exact rationals *)

Definition Qltb (x y : Q) : bool := negb (Qle_bool y x).
Definition Qtrunc (x : Q) : Z := Z.quot (Qnum x) (Zpos (Qden x)).

#[export] Instance ArithQ : Arith Q := {
  fadd := Qplus;
  fsub := Qminus;
  fmul := Qmult;
  fdiv := Qdiv;
  fltb := Qltb;
  fleb := Qle_bool;
  feqb := Qeq_bool;
  fconst := inject_Z;
  ftrunc := Qtrunc
}.

(** ** IEEE-754 single precision *)

Definition b32 : Type := spec_float.
Definition b32_prec : Z := 24.
Definition b32_emax : Z := 128.

Definition b32_of_Z (z : Z) : b32 :=
  binary_normalize b32_prec b32_emax z 0 false.

(** Truncation towards zero; the conversion of a NaN or an infinity is
    undefined in C and is given the value 0 here. *)
Definition b32_trunc (x : b32) : Z :=
  match x with
  | S754_finite s m e =>
      let a := match e with
               | Zneg p => Z.shiftr (Zpos m) (Zpos p)
               | _ => Z.shiftl (Zpos m) e
               end in
      if s then Z.opp a else a
  | _ => 0%Z
  end.

#[export] Instance ArithB32 : Arith b32 := {
  fadd := SFadd b32_prec b32_emax;
  fsub := SFsub b32_prec b32_emax;
  fmul := SFmul b32_prec b32_emax;
  fdiv := SFdiv b32_prec b32_emax;
  fltb := SFltb;
  fleb := SFleb;
  feqb := SFeqb;
  fconst := b32_of_Z;
  ftrunc := b32_trunc
}.

(* ================================================================== *)
(** * Machine integers                                                 *)
(* ================================================================== *)

Definition u16 (z : Z) : Z := (z mod 65536)%Z.          (* unsigned int  *)
Definition u32 (z : Z) : Z := (z mod 4294967296)%Z.     (* unsigned long *)
Definition byte (z : Z) : Z := (z mod 256)%Z.           (* byte(...)     *)
(** Conversion of an [int] to [unsigned int], as the usual arithmetic
    conversions do when the two meet in a comparison. *)
Definition int_to_unsigned (z : Z) : Z := u16 z.

(* ================================================================== *)
(** * The 2017 sketch                                                  *)
(* ================================================================== *)

Module V1.

Section Sketch.
Context {F : Type} `{Arith F}.
Local Open Scope fl_scope.

(** ** Defined constants *)
Definition MAX_RGB : F := 255%:F.
Definition MIN_RGB : F := 1%:F.
Definition MIN_BRIGHT : F := MIN_RGB / 3%:F / MAX_RGB.
Definition RED_PIN : Z := 9.
Definition GREEN_PIN : Z := 10.
Definition BLUE_PIN : Z := 11.
Definition MIN_STEP_TIME : Z := 100.
Definition MAX_STEP_TIME : Z := 10000.
Definition HUE_STEPS : Z := 400.
Definition BRIGHT_STEPS : Z := 60.
Definition RGB_STEPS : Z := 60.
Definition SAT_STEPS : Z := 50.

(** ** HSBtoRGB

    [hue] and [sat] are passed by value, [bright], [red], [green] and
    [blue] by reference: the function returns the four values it leaves
    in them. *)
Definition HSBtoRGB (hue sat bright : F) : F * F * F * F :=
  let hue := if hue <? 0%:F then 0%:F else hue in
  let hue := if hue >? 1%:F then 1%:F else hue in
  let hue := hue * 3%:F in
  let red :=
    if (hue >=? 0%:F) && (hue <=? 1%:F) then MAX_RGB / 1%:F * (hue - 0%:F)
    else if (hue >? 1%:F) && (hue <=? 2%:F)
    then MAX_RGB - MAX_RGB / 1%:F * (hue - 1%:F)
    else 0%:F in
  let green :=
    if (hue >=? 1%:F) && (hue <=? 2%:F) then MAX_RGB / 1%:F * (hue - 1%:F)
    else if (hue >? 2%:F) && (hue <=? 3%:F)
    then MAX_RGB - MAX_RGB / 1%:F * (hue - 2%:F)
    else 0%:F in
  let blue :=
    if (hue >=? 2%:F) && (hue <=? 3%:F) then MAX_RGB / 1%:F * (hue - 2%:F)
    else if (hue >=? 0%:F) && (hue <=? 1%:F)
    then MAX_RGB - MAX_RGB / 1%:F * (hue - 0%:F)
    else 0%:F in
  let red := (1%:F - sat) * MAX_RGB / 3%:F + sat * red in
  let green := (1%:F - sat) * MAX_RGB / 3%:F + sat * green in
  let blue := (1%:F - sat) * MAX_RGB / 3%:F + sat * blue in
  let cap := MAX_RGB / fmax red (fmax green blue) / 3%:F in
  let bright := if bright >? cap then cap else bright in
  let red := red * (bright * 3%:F) in
  let green := green * (bright * 3%:F) in
  let blue := blue * (bright * 3%:F) in
  (bright, red, green, blue).

(** ** RGBtoHSB

    [hue], [sat] and [bright] are passed by reference: the function
    receives the hue its caller holds and returns the three values it
    leaves; [red], [green] and [blue] are local copies. *)
Definition RGBtoHSB (hue : F) (red green blue : F) : F * F * F :=
  let bright := (red + green + blue) / MAX_RGB / 3%:F in
  let sum := red + green + blue in
  let '(red, green, blue) :=
    if sum >? 0%:F
    then (red * (MAX_RGB / sum),
          green * (MAX_RGB / sum),
          blue * (MAX_RGB / sum))
    else (red, green, blue) in
  let sat := (MAX_RGB / 3%:F - fmin red (fmin green blue)) / (MAX_RGB / 3%:F) in
  let '(red, green, blue) :=
    if red <=? fmin green blue then
      (0%:F,
       (green - MAX_RGB / 3%:F + MAX_RGB / 3%:F * sat) / sat,
       (blue - MAX_RGB / 3%:F + MAX_RGB / 3%:F * sat) / sat)
    else if green <=? fmin red blue then
      ((red - MAX_RGB / 3%:F + MAX_RGB / 3%:F * sat) / sat,
       0%:F,
       (blue - MAX_RGB / 3%:F + MAX_RGB / 3%:F * sat) / sat)
    else if blue <=? fmin green red then
      ((red - MAX_RGB / 3%:F + MAX_RGB / 3%:F * sat) / sat,
       (green - MAX_RGB / 3%:F + MAX_RGB / 3%:F * sat) / sat,
       0%:F)
    else (red, green, blue) in
  let hue :=
    if (sat >? 0%:F) && (bright >? 0%:F) then
      let hue :=
        if red >=? fmax green blue then
          if blue >? green then red / MAX_RGB else 2%:F - red / MAX_RGB
        else hue in
      let hue :=
        if green >=? fmax red blue then
          if red >? blue then 1%:F + green / MAX_RGB else 3%:F - green / MAX_RGB
        else hue in
      let hue :=
        if blue >=? fmax green red then
          if green >? red then 2%:F + blue / MAX_RGB else 0%:F + red / MAX_RGB
        else hue in
      hue / 3%:F
    else hue in
  (hue, sat, bright).

(** ** Globals, pins and the remote *)

(** What the sketch does to the outside world, in program order. *)
Inductive event : Type :=
| AnalogWrite (pin : Z) (duty : Z)
| Delay (ms : Z).

Record state : Type := mkState {
  hue : F;                  (* hue = 0 = Blue-->Violet = 1 *)
  sat : F;                  (* saturation 0 = white; 1 = pure hue *)
  bright : F;               (* bright = red+green+blue/3*MAX_RGB *)
  hueStepTime : Z;          (* unsigned long *)
  hueStepTimer : Z;         (* unsigned long *)
  red : F;
  green : F;
  blue : F;
  lastKey : Z;              (* unsigned int *)
  repeatCount : Z;          (* unsigned int *)
  keyTimer : Z;             (* unsigned long *)
  variableHue : bool;
  output : list event       (* oldest first *)
}.

Definition set_hsb (s : state) (h sa b : F) : state :=
  mkState h sa b (hueStepTime s) (hueStepTimer s) (red s) (green s) (blue s)
          (lastKey s) (repeatCount s) (keyTimer s) (variableHue s) (output s).
Definition set_rgb (s : state) (r g b : F) : state :=
  mkState (hue s) (sat s) (bright s) (hueStepTime s) (hueStepTimer s) r g b
          (lastKey s) (repeatCount s) (keyTimer s) (variableHue s) (output s).
Definition set_hueStepTime (s : state) (t : Z) : state :=
  mkState (hue s) (sat s) (bright s) t (hueStepTimer s)
          (red s) (green s) (blue s)
          (lastKey s) (repeatCount s) (keyTimer s) (variableHue s) (output s).
Definition set_hueStepTimer (s : state) (t : Z) : state :=
  mkState (hue s) (sat s) (bright s) (hueStepTime s) t
          (red s) (green s) (blue s)
          (lastKey s) (repeatCount s) (keyTimer s) (variableHue s) (output s).
Definition set_lastKey (s : state) (k : Z) : state :=
  mkState (hue s) (sat s) (bright s) (hueStepTime s) (hueStepTimer s)
          (red s) (green s) (blue s)
          k (repeatCount s) (keyTimer s) (variableHue s) (output s).
Definition set_repeatCount (s : state) (n : Z) : state :=
  mkState (hue s) (sat s) (bright s) (hueStepTime s) (hueStepTimer s)
          (red s) (green s) (blue s)
          (lastKey s) n (keyTimer s) (variableHue s) (output s).
Definition set_keyTimer (s : state) (t : Z) : state :=
  mkState (hue s) (sat s) (bright s) (hueStepTime s) (hueStepTimer s)
          (red s) (green s) (blue s)
          (lastKey s) (repeatCount s) t (variableHue s) (output s).
Definition set_variableHue (s : state) (v : bool) : state :=
  mkState (hue s) (sat s) (bright s) (hueStepTime s) (hueStepTimer s)
          (red s) (green s) (blue s)
          (lastKey s) (repeatCount s) (keyTimer s) v (output s).
Definition emit (s : state) (es : list event) : state :=
  mkState (hue s) (sat s) (bright s) (hueStepTime s) (hueStepTimer s)
          (red s) (green s) (blue s)
          (lastKey s) (repeatCount s) (keyTimer s) (variableHue s)
          (output s ++ es).

(** Key codes of the Adafruit Mini Remote. *)
Definition INIT : Z := 0x30cf.
Definition VAR_HUE : Z := 0xb04f.
Definition NEXT_HUE : Z := 0x609f.
Definition PREV_HUE : Z := 0x20df.
Definition DESATURATE : Z := 0xa05f.
Definition SATURATE : Z := 0x50af.
Definition PURE : Z := 0x708f.
Definition DIM : Z := 0x906f.
Definition BRIGHTEN : Z := 0x807f.
Definition INCR_RED : Z := 0x08f7.
Definition INCR_GREEN : Z := 0x8877.
Definition INCR_BLUE : Z := 0x48b7.
Definition DECR_RED : Z := 0x28d7.
Definition DECR_GREEN : Z := 0xa857.
Definition DECR_BLUE : Z := 0x6897.
Definition WARM_WHITE : Z := 0x18e7.
Definition BRIGHT_WHITE : Z := 0x9867.
Definition DAYLIGHT : Z := 0x58a7.

(** The two step ratios are values of the C library:
    [pow(10.0, log10(1.0 / MAX_RGB) / BRIGHT_STEPS)] and
    [pow(10.0, log10(1.0 / MAX_RGB) / RGB_STEPS)], that is 255^(-1/60),
    about 0.9118.  They are parameters of the model. *)
Variable bright_ratio : F.
Variable rgb_ratio : F.

(** ** DisplayRGB and blink *)

Definition DisplayRGB (s : state) : state :=
  emit s [AnalogWrite RED_PIN (byte (fround (red s)));
          AnalogWrite GREEN_PIN (byte (fround (green s)));
          AnalogWrite BLUE_PIN (byte (fround (blue s)))].

Definition blink (s : state) : state :=
  DisplayRGB (emit s [AnalogWrite RED_PIN 0; AnalogWrite GREEN_PIN 0;
                      AnalogWrite BLUE_PIN 0; Delay 20]).

(** The call [HSBtoRGB(hue, sat, bright, red, green, blue)] on the globals. *)
Definition call_HSBtoRGB (s : state) : state :=
  let '(b, r, g, bl) := HSBtoRGB (hue s) (sat s) (bright s) in
  set_rgb (set_hsb s (hue s) (sat s) b) r g bl.

(** The call [RGBtoHSB(hue, sat, bright, red, green, blue)] on the globals. *)
Definition call_RGBtoHSB (s : state) : state :=
  let '(h, sa, b) := RGBtoHSB (hue s) (red s) (green s) (blue s) in
  set_hsb s h sa b.

(** ** The key handlers, one per case of the switch *)

Definition key_INIT (s : state) : state :=
  let s := set_hsb s 0%:F 1%:F (1%:F / 3%:F) in
  let s := call_HSBtoRGB s in
  set_hueStepTimer s MIN_STEP_TIME.

Definition key_VAR_HUE (s : state) : state :=
  if variableHue s
  then blink (set_hueStepTime s (u32 (hueStepTime s * 2)))
  else set_variableHue s true.

(** The step forward, shared by the NEXT_HUE key and the animation. *)
Definition hue_forward (h : F) : F :=
  let h := if (h >? 1%:F) && (h <? 2%:F)
           then h + 1%:F / HUE_STEPS%:F * 2%:F
           else h + 1%:F / HUE_STEPS%:F in
  if h >? 1%:F then 0%:F else h.

(** The step back; [1 / HUE_STEPS] is a division of two [int]. *)
Definition hue_backward (h : F) : F :=
  let h := if (h >? 1%:F) && (h <? 2%:F)
           then h - 1%:F / HUE_STEPS%:F * 2%:F
           else h - 1%:F / HUE_STEPS%:F in
  if h <? (Z.quot 1 HUE_STEPS)%:F then 1%:F else h.

Definition key_NEXT_HUE (s : state) : state :=
  call_HSBtoRGB (set_hsb s (hue_forward (hue s)) (sat s) (bright s)).

Definition key_PREV_HUE (s : state) : state :=
  call_HSBtoRGB (set_hsb s (hue_backward (hue s)) (sat s) (bright s)).

Definition key_DESATURATE (s : state) : state :=
  let sa := sat s - 1%:F / SAT_STEPS%:F in
  let s := if sa <? 0%:F
           then blink (set_hsb s (hue s) 0%:F (bright s))
           else set_hsb s (hue s) sa (bright s) in
  call_HSBtoRGB s.

Definition key_SATURATE (s : state) : state :=
  let sa := sat s + 1%:F / SAT_STEPS%:F in
  let s := if sa >? 1%:F
           then blink (set_hsb s (hue s) 1%:F (bright s))
           else set_hsb s (hue s) sa (bright s) in
  call_HSBtoRGB s.

Definition key_PURE (s : state) : state :=
  let s := set_hsb s (hue s) 1%:F 1%:F in
  let s := set_variableHue s false in
  call_HSBtoRGB s.

Definition key_DIM (s : state) : state :=
  let s := set_hsb s (hue s) (sat s) (bright s * bright_ratio) in
  let s := call_HSBtoRGB s in
  if bright s <? MIN_BRIGHT
  then set_hsb s (hue s) (sat s) MIN_BRIGHT
  else s.

Definition key_BRIGHTEN (s : state) : state :=
  let s := if bright s <? MIN_BRIGHT
           then set_hsb s (hue s) (sat s) MIN_BRIGHT else s in
  let s := set_hsb s (hue s) (sat s) (bright s / bright_ratio) in
  let s := call_HSBtoRGB s in
  if (red s =? MAX_RGB) || (green s =? MAX_RGB) || (blue s =? MAX_RGB)
  then blink s else s.

(** The arithmetic of the six RGB edits on the channel they edit. *)
Definition increase (c : F) : F :=
  if c <? MIN_RGB then MIN_RGB else c / rgb_ratio.
Definition decrease (c : F) : F := c * rgb_ratio.

Definition key_INCR_RED (s : state) : state :=
  let s := set_rgb s (increase (red s)) (green s) (blue s) in
  let s := if red s >=? MAX_RGB
           then blink (set_rgb s MAX_RGB (green s) (blue s)) else s in
  call_RGBtoHSB (set_variableHue s false).

Definition key_INCR_GREEN (s : state) : state :=
  let s := set_rgb s (red s) (increase (green s)) (blue s) in
  let s := if green s >=? MAX_RGB
           then blink (set_rgb s (red s) MAX_RGB (blue s)) else s in
  call_RGBtoHSB (set_variableHue s false).

Definition key_INCR_BLUE (s : state) : state :=
  let s := set_rgb s (red s) (green s) (increase (blue s)) in
  let s := if blue s >=? MAX_RGB
           then blink (set_rgb s (red s) (green s) MAX_RGB) else s in
  call_RGBtoHSB (set_variableHue s false).

Definition key_DECR_RED (s : state) : state :=
  let s := set_rgb s (decrease (red s)) (green s) (blue s) in
  let s := if red s <? MIN_RGB
           then blink (set_rgb s 0%:F (green s) (blue s)) else s in
  call_RGBtoHSB (set_variableHue s false).

Definition key_DECR_GREEN (s : state) : state :=
  let s := set_rgb s (red s) (decrease (green s)) (blue s) in
  let s := if green s <? MIN_RGB
           then blink (set_rgb s (red s) 0%:F (blue s)) else s in
  call_RGBtoHSB (set_variableHue s false).

Definition key_DECR_BLUE (s : state) : state :=
  let s := set_rgb s (red s) (green s) (decrease (blue s)) in
  let s := if blue s <? MIN_RGB
           then blink (set_rgb s (red s) (green s) 0%:F) else s in
  call_RGBtoHSB (set_variableHue s false).

Definition key_reference (r g b : Z) (s : state) : state :=
  let s := set_rgb s r%:F g%:F b%:F in
  call_RGBtoHSB (set_variableHue s false).

(** The switch on [MyDecoder.value & 0xffff]. *)
Definition handle_key (key : Z) (s : state) : state :=
  if (key =? INIT)%Z then key_INIT s
  else if (key =? VAR_HUE)%Z then key_VAR_HUE s
  else if (key =? NEXT_HUE)%Z then key_NEXT_HUE s
  else if (key =? PREV_HUE)%Z then key_PREV_HUE s
  else if (key =? DESATURATE)%Z then key_DESATURATE s
  else if (key =? SATURATE)%Z then key_SATURATE s
  else if (key =? PURE)%Z then key_PURE s
  else if (key =? DIM)%Z then key_DIM s
  else if (key =? BRIGHTEN)%Z then key_BRIGHTEN s
  else if (key =? INCR_RED)%Z then key_INCR_RED s
  else if (key =? INCR_GREEN)%Z then key_INCR_GREEN s
  else if (key =? INCR_BLUE)%Z then key_INCR_BLUE s
  else if (key =? DECR_RED)%Z then key_DECR_RED s
  else if (key =? DECR_GREEN)%Z then key_DECR_GREEN s
  else if (key =? DECR_BLUE)%Z then key_DECR_BLUE s
  else if (key =? WARM_WHITE)%Z then key_reference 0xff 0x93 0x29 s
  else if (key =? BRIGHT_WHITE)%Z then key_reference 0xff 0xf1 0xaa s
  else if (key =? DAYLIGHT)%Z then key_reference 0xff 0xf1 0xff s
  else s.

(** ** loop

    One pass of [loop()].  [now] is the value [millis()] has during the
    pass; [fr] is the frame [MyReceiver.getResults()] finds pending, if
    any, as decoded by [MyDecoder]. *)

Record frame : Type := mkFrame {
  protocolNum : Z;
  value : Z                 (* 32 bits *)
}.

Definition REPEAT : Z := 0xffffffff.

(** The idle test at the head of the loop. *)
Definition idle_reset (now : Z) (s : state) : state :=
  if (u32 (now - keyTimer s) >? 500)%Z
  then set_lastKey (set_repeatCount s 0) 0
  else s.

(** The repeat logic: the state after it and the value left in
    [MyDecoder.value]. *)
Definition repeat_logic (now : Z) (fr : frame) (s : state) : state * Z :=
  if (value fr =? REPEAT)%Z then
    let s := set_keyTimer s now in
    let count := repeatCount s in
    let s := set_repeatCount s (u16 (count + 1)) in
    if (count >? 5)%Z then (s, lastKey s) else (s, value fr)
  else (s, value fr).

(** Is the decoded value a key to handle? *)
Definition valid_key (fr : frame) (v : Z) : bool :=
  (protocolNum fr =? 1)%Z && negb (v =? 0)%Z && negb (v =? REPEAT)%Z.

(** The command handler: the state after it, and the key code that went
    through the switch, if one did. *)
Definition command (now : Z) (fr : option frame) (s : state)
  : state * option Z :=
  match fr with
  | None => (s, None)
  | Some fr =>
      let '(s, v) := repeat_logic now fr s in
      if valid_key fr v then
        let key := Z.land v 0xffff in
        let s := set_keyTimer (set_lastKey s key) now in
        (DisplayRGB (handle_key key s), Some key)
      else (s, None)
  end.

(** The variable colour at the tail of the loop. *)
Definition animate (now : Z) (s : state) : state :=
  if (u32 (now - hueStepTimer s) >? 100)%Z then
    let s := set_hueStepTimer s now in
    if variableHue s
    then DisplayRGB
           (call_HSBtoRGB (set_hsb s (hue_forward (hue s)) (sat s) (bright s)))
    else s
  else s.

Definition loop_fired (now : Z) (fr : option frame) (s : state)
  : state * option Z :=
  let '(s, k) := command now fr (idle_reset now s) in
  (animate now s, k).

Definition loop (now : Z) (fr : option frame) (s : state) : state :=
  fst (loop_fired now fr s).

(** [setup()], from the zero-initialised globals. *)
Definition setup : state :=
  let s := mkState 0%:F 1%:F (1%:F / 3%:F) MIN_STEP_TIME 0
                   0%:F 0%:F 0%:F 0 0 0 false [] in
  DisplayRGB (call_HSBtoRGB s).

(** A run of the loop over the passes [(now, frame)], and the key codes
    that went through the switch, in order. *)
Fixpoint run (passes : list (Z * option frame)) (s : state)
  : state * list Z :=
  match passes with
  | [] => (s, [])
  | (now, fr) :: rest =>
      let '(s, k) := loop_fired now fr s in
      let '(s, ks) := run rest s in
      (s, match k with Some key => key :: ks | None => ks end)
  end.

End Sketch.

Arguments state : clear implicits.

End V1.

(* ================================================================== *)
(** * The v2.1 sketch                                                  *)
(* ================================================================== *)

Module V2.

Section Sketch.
Context {F : Type} `{Arith F}.
Local Open Scope fl_scope.

Definition MAX_RGB : F := 255%:F.

(** ** RGBtoHSB

    [hue], [sat] and [bright] are passed by reference; [bright] is never
    assigned.  The function receives the hue and the saturation its caller
    holds and returns the two it leaves.  The locals [redPure], [greenPure]
    and [bluePure] are declared without a value: when none of the three
    branches that assign them is taken, they are read indeterminate and the
    result is [None].

    [redPure == 0 & greenPure == 0.] is the bitwise and of two tests.
    [greenPure == bluePure == 0.] parses as [(greenPure == bluePure) == 0.]:
    it holds when [greenPure == bluePure] does not. *)
Definition RGBtoHSB (hue sat : F) (red green blue : F) : option (F * F) :=
  let redSat := red in
  let greenSat := green in
  let blueSat := blue in
  let pures :=
    if red <=? fmin green blue then
      let sat := 1%:F - redSat / MAX_RGB in
      Some (sat,
            0%:F,
            (greenSat + 255%:F * sat - 255%:F) / sat,
            (blueSat + 255%:F * sat - 255%:F) / sat)
    else if green <=? fmin red blue then
      let sat := 1%:F - greenSat / MAX_RGB in
      Some (sat,
            (redSat + 255%:F * sat - 255%:F) / sat,
            0%:F,
            (blueSat + 255%:F * sat - 255%:F) / sat)
    else if blue <=? fmin red green then
      let sat := 1%:F - blueSat / MAX_RGB in
      Some (sat,
            (redSat + 255%:F * sat - 255%:F) / sat,
            (greenSat + 255%:F * sat - 255%:F) / sat,
            0%:F)
    else None in
  match pures with
  | None => None
  | Some (sat, redPure, greenPure, bluePure) =>
      let hue :=
        if (redPure =? 0%:F) && (greenPure =? 0%:F) then 160%:F
        else if negb (greenPure =? bluePure) then 0%:F
        else if negb (bluePure =? redPure) then 96%:F
        else hue in
      let hue :=
        if bluePure <=? fmin redPure greenPure then
          if redPure / greenPure >=? 2%:F then
            255%:F * 32%:F / (255%:F - 170%:F) / (redPure / greenPure + 1%:F)
          else if red / green >=? 1%:F then
            64%:F / (redPure / greenPure)
          else
            64%:F + (170%:F - 170%:F * (redPure / greenPure))
                    / (256%:F / 96%:F * (redPure / greenPure) + 170%:F / 32%:F)
        else if redPure <? fmin bluePure greenPure then
          if greenPure / bluePure >? 2%:F then
            96%:F + 255%:F / ((greenPure / bluePure) * 85%:F / (128%:F - 96%:F)
                              + (255%:F - 170%:F) / (128%:F - 96%:F))
          else
            128%:F + (170%:F - 85%:F * greenPure / bluePure)
                     / (170%:F / (160%:F - 128%:F)
                        + greenPure / bluePure * (255%:F - 85%:F)
                          / (160%:F - 128%:F))
        else if greenPure <? fmin redPure bluePure then
          160%:F + (256%:F - 160%:F) / (1%:F + bluePure / redPure)
        else hue in
      let hue := if hue =? 0%:F then fdec 1 10 else hue in
      let hue := if hue >=? 255%:F then fdec 1 10 else hue in
      Some (hue, sat)
  end.

(** ** The PWM timer interrupt services *)

Record pwm : Type := mkPwm {
  pwmCounter1 : Z;          (* unsigned int: PWM cycle count for pins 9, 10 *)
  pwmCounter2 : Z;          (* unsigned int: PWM cycle count for pin 11 *)
  pwmCyclesON : Z;          (* int: highest PWM cycle number 0-7 *)
  red : F;                  (* currently displayed red *)
  green : F;
  blue : F;
  OCR1A : Z;                (* output compare registers, 8 bits in use *)
  OCR1B : Z;
  OCR2A : Z
}.

(** [ISR(TIMER1_OVF_vect)].  [pwmCounter1 <= pwmCyclesON] compares an
    [unsigned int] with an [int]: the [int] is converted to unsigned. *)
Definition TIMER1_OVF (p : pwm) : pwm :=
  let c := Z.land (u16 (pwmCounter1 p + 1)) 0x0007 in
  if (c <=? int_to_unsigned (pwmCyclesON p))%Z
  then mkPwm c (pwmCounter2 p) (pwmCyclesON p) (red p) (green p) (blue p)
             (byte (ftrunc (red p))) (byte (ftrunc (green p))) (OCR2A p)
  else mkPwm c (pwmCounter2 p) (pwmCyclesON p) (red p) (green p) (blue p)
             0 0 (OCR2A p).

(** [ISR(TIMER2_OVF_vect)]. *)
Definition TIMER2_OVF (p : pwm) : pwm :=
  let c := Z.land (u16 (pwmCounter2 p + 1)) 0x0007 in
  if (c <=? int_to_unsigned (pwmCyclesON p))%Z
  then mkPwm (pwmCounter1 p) c (pwmCyclesON p) (red p) (green p) (blue p)
             (OCR1A p) (OCR1B p) (byte (ftrunc (blue p)))
  else mkPwm (pwmCounter1 p) c (pwmCyclesON p) (red p) (green p) (blue p)
             (OCR1A p) (OCR1B p) 0.

(** ** More defined constants *)
Definition MIN_STEP_TIME : Z := 100.
Definition HUE_STEPS : Z := 400.

(** ** HSBtoRGB

    [hue] and [sat] are passed by value; [bright] is passed by reference
    and never assigned; the function returns the values it leaves in
    [red], [green] and [blue].  The locals [redPure], [greenPure],
    [bluePure], [redSat], [greenSat] and [blueSat] are declared without a
    value: a local that is read before any branch has assigned it is
    indeterminate, and the result is [None]. *)

(** "Apply brightness to the saturated hue as the global RGB" *)
Definition apply_bright (bright redSat greenSat blueSat : F) : F * F * F :=
  let red := redSat * bright in
  let green := greenSat * bright in
  let blue := blueSat * bright in
  let red := if red >? 255%:F then 255%:F else red in
  let green := if green >? 255%:F then 255%:F else green in
  let blue := if blue >? 255%:F then 255%:F else blue in
  (red, green, blue).

(** "Develop the RGB Components of a pure hue": the three locals after
    the six tests, from the validated hue. *)
Definition pure_hue (hue : F) : option F * option F * option F :=
  let pures : option F * option F * option F := (None, None, None) in
  let pures :=
    if hue <? 32%:F then
      (Some (255%:F - (255%:F - 170%:F) / 32%:F * hue),
       Some ((255%:F - 170%:F) * hue / 32%:F),
       Some 0%:F)
    else pures in
  let pures :=
    if (hue >=? 32%:F) && (hue <? 64%:F) then
      (Some 170%:F, Some (hue * 255%:F / 96%:F), Some 0%:F)
    else pures in
  let pures :=
    if (hue >=? 64%:F) && (hue <? 96%:F) then
      (Some (170%:F - 170%:F / 32%:F * (hue - 64%:F)),
       Some (170%:F + (hue - 64%:F) * 255%:F / 96%:F),
       snd pures)
    else pures in
  let pures :=
    if (hue >=? 96%:F) && (hue <? 128%:F) then
      (Some 0%:F,
       Some (255%:F - (hue - 96%:F) * (255%:F - 170%:F) / (128%:F - 96%:F)),
       Some ((hue - 96%:F) * 85%:F / (128%:F - 96%:F)))
    else pures in
  let pures :=
    if (hue >=? 128%:F) && (hue <? 160%:F) then
      (Some 0%:F,
       Some (170%:F - 170%:F / (160%:F - 128%:F) * (hue - 128%:F)),
       Some (85%:F + (255%:F - 85%:F) / (160%:F - 128%:F) * (hue - 128%:F)))
    else pures in
  let pures :=
    if hue >=? 160%:F then
      (Some (255%:F / (256%:F - 160%:F) * (hue - 160%:F)),
       Some 0%:F,
       Some (255%:F - 255%:F / (256%:F - 160%:F) * (hue - 160%:F)))
    else pures in
  pures.

Definition HSBtoRGB (hue sat bright : F) : option (F * F * F) :=
  let hue := if hue <? 0%:F then 0%:F else hue in
  let hue := if hue >=? 255%:F then 0%:F else hue in
  let '(redPure, greenPure, bluePure) := pure_hue hue in
  match redPure with
  | None => None
  | Some redPure =>
      if redPure =? 0%:F then
        match greenPure, bluePure with
        | Some greenPure, Some bluePure =>
            Some (apply_bright bright
                    ((1%:F - sat) * MAX_RGB)
                    (sat * greenPure + (1%:F - sat) * MAX_RGB)
                    (sat * bluePure + (1%:F - sat) * MAX_RGB))
        | _, _ => None
        end
      else
        match greenPure with
        | None => None
        | Some greenPure =>
            if greenPure =? 0%:F then
              match bluePure with
              | Some bluePure =>
                  Some (apply_bright bright
                          (sat * redPure + (1%:F - sat) * MAX_RGB)
                          ((1%:F - sat) * MAX_RGB)
                          (sat * bluePure + (1%:F - sat) * MAX_RGB))
              | None => None
              end
            else
              match bluePure with
              | None => None
              | Some bluePure =>
                  if bluePure =? 0%:F then
                    Some (apply_bright bright
                            (sat * redPure + (1%:F - sat) * MAX_RGB)
                            (sat * greenPure + (1%:F - sat) * MAX_RGB)
                            ((1%:F - sat) * MAX_RGB))
                  else None
              end
        end
  end.

(** ** The globals and the EEPROM *)

(** [struct state]: the settings kept in the EEPROM. *)
Record state : Type := mkState {
  nv_hue : F;
  nv_sat : F;
  nv_bright : F;
  nv_pwmCyclesON : Z;       (* int: gross dimming (PWM cycles) *)
  nv_variableHue : bool;
  nv_hueStepTime : Z        (* unsigned long *)
}.

(** The globals of the sketch.  [red], [green], [blue], [pwmCyclesON],
    the two counters of the interrupts and the output compare registers
    are the record [pwm] that the interrupts work on. *)
Record globals : Type := mkGlobals {
  nvram : state;            (* structure in NVRAM *)
  hueStepTime : Z;          (* unsigned long *)
  hueStepTimer : Z;         (* unsigned long *)
  hue : F;
  sat : F;
  bright : F;
  lastKey : Z;              (* unsigned int *)
  repeatCount : Z;          (* unsigned int *)
  keyTimer : Z;             (* unsigned long *)
  variableHue : bool;
  hw : pwm;
  eeprom : state;           (* what EEPROM.put has stored at address 0 *)
  waits : list Z            (* the calls of delay(), oldest first *)
}.

Definition set_nvram (s : globals) (n : state) : globals :=
  mkGlobals n (hueStepTime s) (hueStepTimer s) (hue s) (sat s) (bright s)
            (lastKey s) (repeatCount s) (keyTimer s) (variableHue s)
            (hw s) (eeprom s) (waits s).
Definition set_hueStepTime (s : globals) (t : Z) : globals :=
  mkGlobals (nvram s) t (hueStepTimer s) (hue s) (sat s) (bright s)
            (lastKey s) (repeatCount s) (keyTimer s) (variableHue s)
            (hw s) (eeprom s) (waits s).
Definition set_hueStepTimer (s : globals) (t : Z) : globals :=
  mkGlobals (nvram s) (hueStepTime s) t (hue s) (sat s) (bright s)
            (lastKey s) (repeatCount s) (keyTimer s) (variableHue s)
            (hw s) (eeprom s) (waits s).
Definition set_hue (s : globals) (h : F) : globals :=
  mkGlobals (nvram s) (hueStepTime s) (hueStepTimer s) h (sat s) (bright s)
            (lastKey s) (repeatCount s) (keyTimer s) (variableHue s)
            (hw s) (eeprom s) (waits s).
Definition set_sat (s : globals) (sa : F) : globals :=
  mkGlobals (nvram s) (hueStepTime s) (hueStepTimer s) (hue s) sa (bright s)
            (lastKey s) (repeatCount s) (keyTimer s) (variableHue s)
            (hw s) (eeprom s) (waits s).
Definition set_bright (s : globals) (b : F) : globals :=
  mkGlobals (nvram s) (hueStepTime s) (hueStepTimer s) (hue s) (sat s) b
            (lastKey s) (repeatCount s) (keyTimer s) (variableHue s)
            (hw s) (eeprom s) (waits s).
Definition set_lastKey (s : globals) (k : Z) : globals :=
  mkGlobals (nvram s) (hueStepTime s) (hueStepTimer s) (hue s) (sat s)
            (bright s) k (repeatCount s) (keyTimer s) (variableHue s)
            (hw s) (eeprom s) (waits s).
Definition set_repeatCount (s : globals) (n : Z) : globals :=
  mkGlobals (nvram s) (hueStepTime s) (hueStepTimer s) (hue s) (sat s)
            (bright s) (lastKey s) n (keyTimer s) (variableHue s)
            (hw s) (eeprom s) (waits s).
Definition set_keyTimer (s : globals) (t : Z) : globals :=
  mkGlobals (nvram s) (hueStepTime s) (hueStepTimer s) (hue s) (sat s)
            (bright s) (lastKey s) (repeatCount s) t (variableHue s)
            (hw s) (eeprom s) (waits s).
Definition set_variableHue (s : globals) (v : bool) : globals :=
  mkGlobals (nvram s) (hueStepTime s) (hueStepTimer s) (hue s) (sat s)
            (bright s) (lastKey s) (repeatCount s) (keyTimer s) v
            (hw s) (eeprom s) (waits s).
Definition set_hw (s : globals) (p : pwm) : globals :=
  mkGlobals (nvram s) (hueStepTime s) (hueStepTimer s) (hue s) (sat s)
            (bright s) (lastKey s) (repeatCount s) (keyTimer s)
            (variableHue s) p (eeprom s) (waits s).
Definition set_eeprom (s : globals) (e : state) : globals :=
  mkGlobals (nvram s) (hueStepTime s) (hueStepTimer s) (hue s) (sat s)
            (bright s) (lastKey s) (repeatCount s) (keyTimer s)
            (variableHue s) (hw s) e (waits s).
(** [delay(ms)] *)
Definition delay (s : globals) (ms : Z) : globals :=
  mkGlobals (nvram s) (hueStepTime s) (hueStepTimer s) (hue s) (sat s)
            (bright s) (lastKey s) (repeatCount s) (keyTimer s)
            (variableHue s) (hw s) (eeprom s) (waits s ++ [ms]).

Definition set_rgb (s : globals) (r g b : F) : globals :=
  let p := hw s in
  set_hw s (mkPwm (pwmCounter1 p) (pwmCounter2 p) (pwmCyclesON p) r g b
                  (OCR1A p) (OCR1B p) (OCR2A p)).
Definition set_pwmCyclesON (s : globals) (n : Z) : globals :=
  let p := hw s in
  set_hw s (mkPwm (pwmCounter1 p) (pwmCounter2 p) n (red p) (green p) (blue p)
                  (OCR1A p) (OCR1B p) (OCR2A p)).
Definition set_OCR (s : globals) (a b c : Z) : globals :=
  let p := hw s in
  set_hw s (mkPwm (pwmCounter1 p) (pwmCounter2 p) (pwmCyclesON p)
                  (red p) (green p) (blue p) a b c).

(** ** blink

    The writes of [blink()] to the registers and its two waits; the
    interrupts that fire during the waits are not interleaved here. *)
Definition blink (s : globals) : globals :=
  let s := set_OCR s 0 0 0 in
  let s := delay s 50 in
  let s := set_OCR s 255 255 255 in
  delay s 50.

(** The calls [HSBtoRGB(hue, sat, bright, red, green, blue)] and
    [RGBtoHSB(hue, sat, bright, red, green, blue)] on the globals. *)
Definition call_HSBtoRGB (s : globals) : option globals :=
  match HSBtoRGB (hue s) (sat s) (bright s) with
  | Some (r, g, b) => Some (set_rgb s r g b)
  | None => None
  end.

Definition call_RGBtoHSB (s : globals) : option globals :=
  match RGBtoHSB (hue s) (sat s)
          (red (hw s)) (green (hw s)) (blue (hw s)) with
  | Some (h, sa) => Some (set_sat (set_hue s h) sa)
  | None => None
  end.

(** ** Increment and Decrement

    The [float] passed by reference is one of the three channels. *)
Inductive channel : Type := Red | Green | Blue.

Definition get_channel (c : channel) (s : globals) : F :=
  match c with
  | Red => red (hw s)
  | Green => green (hw s)
  | Blue => blue (hw s)
  end.

Definition set_channel (c : channel) (s : globals) (v : F) : globals :=
  match c with
  | Red => set_rgb s v (green (hw s)) (blue (hw s))
  | Green => set_rgb s (red (hw s)) v (blue (hw s))
  | Blue => set_rgb s (red (hw s)) (green (hw s)) v
  end.

(** The arithmetic of [Increment] and of [Decrement], before the tests on
    the result. *)
Definition incremented (rgb : F) : F :=
  let rgb := if rgb <? 1%:F then 1%:F else rgb in
  rgb / (fdec 90 100 - fdec 3 10 * (1%:F - rgb / 255%:F)).

Definition decremented (rgb : F) : F :=
  rgb * (fdec 97 100 - fdec 3 10 * (1%:F - rgb / 255%:F)).

Definition Increment (c : channel) (s : globals) : option globals :=
  let rgb := incremented (get_channel c s) in
  let s := set_channel c s rgb in
  let s := if rgb >=? 254%:F
           then blink (set_channel c s 254%:F) else s in
  call_RGBtoHSB s.

Definition Decrement (c : channel) (s : globals) : option globals :=
  let rgb := decremented (get_channel c s) in
  let s := set_channel c s rgb in
  let s := if rgb <? fdec 1 10
           then blink (set_channel c s (fdec 1 10)) else s in
  call_RGBtoHSB s.

(** ** The key handlers, one per case of the switch *)

Definition key_INIT (s : globals) : globals :=
  let h := hue s in
  let h := if h >=? 192%:F then 0%:F
           else if h >=? 160%:F then 192%:F
           else if h >=? 128%:F then 160%:F
           else if h >=? 96%:F then 128%:F
           else if h >=? 64%:F then 96%:F
           else if h >=? 0%:F then 64%:F
           else h in
  let s := set_hue s h in
  let s := set_sat s 1%:F in
  let s := set_bright s 1%:F in
  let s := set_pwmCyclesON s 11 in
  let s := set_variableHue s false in
  let s := set_hueStepTimer s MIN_STEP_TIME in
  delay s 100.

Definition key_VAR_HUE (s : globals) : globals :=
  if variableHue s
  then blink (set_hueStepTime s (u32 (hueStepTime s * 2)))
  else set_variableHue s true.

Definition key_NEXT_HUE (s : globals) : globals :=
  let h := hue s + 2%:F in
  set_hue s (if h >? 254%:F then 0%:F else h).

Definition key_PREV_HUE (s : globals) : globals :=
  let h := hue s - 1%:F in
  set_hue s (if h <? 0%:F then 254%:F else h).

Definition key_DESATURATE (s : globals) : globals :=
  let sa := sat s - fdec 5 100 in
  if sa <? fdec 1 10
  then blink (set_sat s (fdec 1 10000))
  else set_sat s sa.

Definition key_SATURATE (s : globals) : globals :=
  let sa := sat s + fdec 5 100 in
  if sa >? 1%:F
  then blink (set_sat s (fdec 9999 10000))
  else set_sat s sa.

Definition key_PURE (s : globals) : globals :=
  let s := set_sat s 1%:F in
  let s := set_bright s 1%:F in
  set_variableHue s false.

Definition key_BRIGHTEN (s : globals) : globals :=
  let s := if bright s =? 0%:F
           then set_bright s (fdec 4 1000)
           else set_bright s (bright s * fdec 1414213 1000000) in
  if bright s >? 1%:F then
    let s := set_bright s 1%:F in
    if (pwmCyclesON (hw s) <? 7)%Z
    then set_pwmCyclesON s (pwmCyclesON (hw s) + 1)
    else blink s
  else s.

Definition key_DIM (s : globals) : globals :=
  if (pwmCyclesON (hw s) >? 0)%Z
  then set_pwmCyclesON s (pwmCyclesON (hw s) - 1)
  else
    let s := set_bright s (bright s * fdec 707106 1000000) in
    if bright s <=? fdec 4 1000
    then blink (set_bright s 0%:F)
    else s.

Definition key_reference (r g b : Z) (s : globals) : option globals :=
  let s := set_rgb s r%:F g%:F b%:F in
  call_RGBtoHSB (set_variableHue s false).

(** The switch on [MyDecoder.value & 0xffff]; the key codes are those of
    the 2017 sketch. *)
Definition handle_key (key : Z) (s : globals) : option globals :=
  if (key =? V1.INIT)%Z then Some (key_INIT s)
  else if (key =? V1.VAR_HUE)%Z then Some (key_VAR_HUE s)
  else if (key =? V1.NEXT_HUE)%Z then Some (key_NEXT_HUE s)
  else if (key =? V1.PREV_HUE)%Z then Some (key_PREV_HUE s)
  else if (key =? V1.DESATURATE)%Z then Some (key_DESATURATE s)
  else if (key =? V1.SATURATE)%Z then Some (key_SATURATE s)
  else if (key =? V1.PURE)%Z then Some (key_PURE s)
  else if (key =? V1.BRIGHTEN)%Z then Some (key_BRIGHTEN s)
  else if (key =? V1.DIM)%Z then Some (key_DIM s)
  else if (key =? V1.INCR_RED)%Z then Increment Red s
  else if (key =? V1.INCR_GREEN)%Z then Increment Green s
  else if (key =? V1.INCR_BLUE)%Z then Increment Blue s
  else if (key =? V1.DECR_RED)%Z then Decrement Red s
  else if (key =? V1.DECR_GREEN)%Z then Decrement Green s
  else if (key =? V1.DECR_BLUE)%Z then Decrement Blue s
  else if (key =? V1.WARM_WHITE)%Z then key_reference 0xff 0x93 0x29 s
  else if (key =? V1.BRIGHT_WHITE)%Z then key_reference 0xff 0xf1 0xaa s
  else if (key =? V1.DAYLIGHT)%Z then key_reference 0xff 0xf1 0xff s
  else Some s.

(** "Save any change(s) to nvram structure in EEPROM" *)
Definition save (s : globals) : globals :=
  let n := mkState (hue s) (sat s) (bright s) (pwmCyclesON (hw s))
                   (variableHue s) (hueStepTime s) in
  set_eeprom (set_nvram s n) n.

(** The body of the test for a valid key: the saved key, the switch, the
    conversion to RGB and the save. *)
Definition valid_key_block (now : Z) (key : Z) (s : globals)
  : option globals :=
  let s := set_keyTimer (set_lastKey s key) now in
  match handle_key key s with
  | None => None
  | Some s =>
      match call_HSBtoRGB s with
      | None => None
      | Some s => Some (save s)
      end
  end.

(** ** loop

    The head of [loop()], down to the test for a valid key, is the text of
    the 2017 sketch. *)
Definition idle_reset (now : Z) (s : globals) : globals :=
  if (u32 (now - keyTimer s) >? 500)%Z
  then set_lastKey (set_repeatCount s 0) 0
  else s.

Definition repeat_logic (now : Z) (fr : V1.frame) (s : globals)
  : globals * Z :=
  if (V1.value fr =? V1.REPEAT)%Z then
    let s := set_keyTimer s now in
    let count := repeatCount s in
    let s := set_repeatCount s (u16 (count + 1)) in
    if (count >? 5)%Z then (s, lastKey s) else (s, V1.value fr)
  else (s, V1.value fr).

Definition command (now : Z) (fr : option V1.frame) (s : globals)
  : option globals :=
  match fr with
  | None => Some s
  | Some fr =>
      let '(s, v) := repeat_logic now fr s in
      if V1.valid_key fr v
      then valid_key_block now (Z.land v 0xffff) s
      else Some s
  end.

(** "Vary Hue if enabled" *)
Definition animate (now : Z) (s : globals) : option globals :=
  if (u32 (now - hueStepTimer s) >? 100)%Z && eqb (variableHue s) true then
    let s := set_hueStepTimer s now in
    if variableHue s then
      let h := hue s + 255%:F / HUE_STEPS%:F in
      let s := set_hue s (if h >? 255%:F then 0%:F else h) in
      call_HSBtoRGB s
    else Some s
  else Some s.

Definition loop (now : Z) (fr : option V1.frame) (s : globals)
  : option globals :=
  match command now fr (idle_reset now s) with
  | None => None
  | Some s => animate now s
  end.

(** ** setup

    The globals are zero-initialized, [nvram] by the default member
    initializers of [struct state]; [stored] is what the EEPROM holds at
    address 0. *)
Definition nvram_default : state :=
  mkState 0%:F 1%:F (1%:F / 3%:F) 7 false 0.

Definition setup (stored : state) : option globals :=
  let s := mkGlobals nvram_default 0 0 0%:F 0%:F 0%:F 0 0 0 false
                     (mkPwm 0 0 0 0%:F 0%:F 0%:F 0 0 0) stored [] in
  let s := set_nvram s (eeprom s) in            (* EEPROM.get(0, nvram) *)
  let s := set_hue s (nv_hue (nvram s)) in
  let s := set_sat s (nv_sat (nvram s)) in
  let s := set_bright s (nv_bright (nvram s)) in
  let s := set_pwmCyclesON s (nv_pwmCyclesON (nvram s)) in
  let s := set_variableHue s (nv_variableHue (nvram s)) in
  let s := set_hueStepTime s (nv_hueStepTime (nvram s)) in
  call_HSBtoRGB s.

End Sketch.

Arguments pwm : clear implicits.
Arguments state : clear implicits.
Arguments globals : clear implicits.

End V2.

(* ================================================================== *)
(** * The conversions of the 2017 sketch, block by block               *)
(* ================================================================== *)

(** The blocks of [V1.HSBtoRGB] and [V1.RGBtoHSB], named so that the
    proofs can follow the code one block at a time; [HSBtoRGB_blocks] and
    [RGBtoHSB_blocks] below show that the functions are these blocks put
    together. *)

Module Blocks.
Section Blocks.
Context {F : Type} `{Arith F}.
Local Open Scope fl_scope.
Import V1.

(** "validate phase", then "six phases within hue cycle" *)
Definition phase (hue : F) : F :=
  let hue := if hue <? 0%:F then 0%:F else hue in
  let hue := if hue >? 1%:F then 1%:F else hue in
  hue * 3%:F.

(** The three linear ramps. *)
Definition ramp_red (hue : F) : F :=
  if (hue >=? 0%:F) && (hue <=? 1%:F) then MAX_RGB / 1%:F * (hue - 0%:F)
  else if (hue >? 1%:F) && (hue <=? 2%:F)
  then MAX_RGB - MAX_RGB / 1%:F * (hue - 1%:F)
  else 0%:F.
Definition ramp_green (hue : F) : F :=
  if (hue >=? 1%:F) && (hue <=? 2%:F) then MAX_RGB / 1%:F * (hue - 1%:F)
  else if (hue >? 2%:F) && (hue <=? 3%:F)
  then MAX_RGB - MAX_RGB / 1%:F * (hue - 2%:F)
  else 0%:F.
Definition ramp_blue (hue : F) : F :=
  if (hue >=? 2%:F) && (hue <=? 3%:F) then MAX_RGB / 1%:F * (hue - 2%:F)
  else if (hue >=? 0%:F) && (hue <=? 1%:F)
  then MAX_RGB - MAX_RGB / 1%:F * (hue - 0%:F)
  else 0%:F.

(** "Desaturate the pure hue to the extent sat < 1.0" *)
Definition desaturate (sat c : F) : F :=
  (1%:F - sat) * MAX_RGB / 3%:F + sat * c.

(** The limit the largest primary puts on the brightness. *)
Definition bright_cap (red green blue : F) : F :=
  MAX_RGB / fmax red (fmax green blue) / 3%:F.

Definition limit_bright (bright cap : F) : F :=
  if bright >? cap then cap else bright.

(** "Re-normalize the local RGB to bright = 1/3" *)
Definition normalize (red green blue : F) : F * F * F :=
  let sum := red + green + blue in
  if sum >? 0%:F
  then (red * (MAX_RGB / sum), green * (MAX_RGB / sum), blue * (MAX_RGB / sum))
  else (red, green, blue).

Definition saturation (red green blue : F) : F :=
  (MAX_RGB / 3%:F - fmin red (fmin green blue)) / (MAX_RGB / 3%:F).

(** "Remove the desaturating (lowest contributing) primary and recalculate
    the saturated values of the other two" *)
Definition resaturate (sat c : F) : F :=
  (c - MAX_RGB / 3%:F + MAX_RGB / 3%:F * sat) / sat.

Definition remove_lowest (sat red green blue : F) : F * F * F :=
  if red <=? fmin green blue then
    (0%:F, resaturate sat green, resaturate sat blue)
  else if green <=? fmin red blue then
    (resaturate sat red, 0%:F, resaturate sat blue)
  else if blue <=? fmin green red then
    (resaturate sat red, resaturate sat green, 0%:F)
  else (red, green, blue).

(** "Reverse the ramp interpolation to derive the hue", before the final
    division by 3. *)
Definition reverse_ramps (hue red green blue : F) : F :=
  let hue :=
    if red >=? fmax green blue then
      if blue >? green then red / MAX_RGB else 2%:F - red / MAX_RGB
    else hue in
  let hue :=
    if green >=? fmax red blue then
      if red >? blue then 1%:F + green / MAX_RGB else 3%:F - green / MAX_RGB
    else hue in
  let hue :=
    if blue >=? fmax green red then
      if green >? red then 2%:F + blue / MAX_RGB else 0%:F + red / MAX_RGB
    else hue in
  hue.

End Blocks.
End Blocks.

(** The blocks of [V2.RGBtoHSB]; [V2_RGBtoHSB_blocks] below shows that the
    function is these blocks put together. *)

Module BlocksV2.
Section BlocksV2.
Context {F : Type} `{Arith F}.
Local Open Scope fl_scope.
Import V2.

(** "RGB components of the parameters if fully saturated": the saturation
    and the three locals, when a branch assigns them. *)
Definition saturated (red green blue : F) : option (F * F * F * F) :=
  if red <=? fmin green blue then
    let sat := 1%:F - red / MAX_RGB in
    Some (sat,
          0%:F,
          (green + 255%:F * sat - 255%:F) / sat,
          (blue + 255%:F * sat - 255%:F) / sat)
  else if green <=? fmin red blue then
    let sat := 1%:F - green / MAX_RGB in
    Some (sat,
          (red + 255%:F * sat - 255%:F) / sat,
          0%:F,
          (blue + 255%:F * sat - 255%:F) / sat)
  else if blue <=? fmin red green then
    let sat := 1%:F - blue / MAX_RGB in
    Some (sat,
          (red + 255%:F * sat - 255%:F) / sat,
          (green + 255%:F * sat - 255%:F) / sat,
          0%:F)
  else None.

(** "Eliminate the pure primaries first" *)
Definition primaries (hue redPure greenPure bluePure : F) : F :=
  if (redPure =? 0%:F) && (greenPure =? 0%:F) then 160%:F
  else if negb (greenPure =? bluePure) then 0%:F
  else if negb (bluePure =? redPure) then 96%:F
  else hue.

(** "Reverse the piecewise interpolation to get hue from the pures" *)
Definition reverse_rainbow (hue red green redPure greenPure bluePure : F) : F :=
  if bluePure <=? fmin redPure greenPure then
    if redPure / greenPure >=? 2%:F then
      255%:F * 32%:F / (255%:F - 170%:F) / (redPure / greenPure + 1%:F)
    else if red / green >=? 1%:F then
      64%:F / (redPure / greenPure)
    else
      64%:F + (170%:F - 170%:F * (redPure / greenPure))
              / (256%:F / 96%:F * (redPure / greenPure) + 170%:F / 32%:F)
  else if redPure <? fmin bluePure greenPure then
    if greenPure / bluePure >? 2%:F then
      96%:F + 255%:F / ((greenPure / bluePure) * 85%:F / (128%:F - 96%:F)
                        + (255%:F - 170%:F) / (128%:F - 96%:F))
    else
      128%:F + (170%:F - 85%:F * greenPure / bluePure)
               / (170%:F / (160%:F - 128%:F)
                  + greenPure / bluePure * (255%:F - 85%:F)
                    / (160%:F - 128%:F))
  else if greenPure <? fmin redPure bluePure then
    160%:F + (256%:F - 160%:F) / (1%:F + bluePure / redPure)
  else hue.

(** "preserve a bit of green", "preserve a bit of blue" *)
Definition avoid_red (hue : F) : F :=
  let hue := if hue =? 0%:F then fdec 1 10 else hue in
  if hue >=? 255%:F then fdec 1 10 else hue.

End BlocksV2.
End BlocksV2.

(* ================================================================== *)
(** * Vocabulary of the statements                                     *)
(* ================================================================== *)

(** ** Colour engine *)

(** Exactly one of the three channels is at the floor value 0. *)
Definition exactly_one_floor (r g b : Q) : Prop :=
  (r == 0 /\ ~ g == 0 /\ ~ b == 0)
  \/ (~ r == 0 /\ g == 0 /\ ~ b == 0)
  \/ (~ r == 0 /\ ~ g == 0 /\ b == 0).

(** [x] reproduces [y] within a relative tolerance of 1e-2. *)
Definition within (x y : Q) : Prop :=
  Qabs (x - y) <= (1 # 100) * Qabs y.

(** The step ratio 255^(-1/60), to four decimals, for the runs on concrete
    inputs. *)
Definition ratio_q : Q := 9118 # 10000.

(** The same ratio in single precision: the value nearest to 255^(-1/60),
    0.911781967. *)
Definition ratio_b32 : b32 := S754_finite false 15297163 (-24).

(** Six keys after which the single-precision hue is above 1. *)
Definition keys_past_one : list Z :=
  [V1.DAYLIGHT; V1.INCR_GREEN; V1.DECR_RED; V1.DIM; V1.INCR_BLUE;
   V1.DECR_GREEN].

(** ** Outputs *)

(** The number of acknowledgment blinks in an output: [blink] is the only
    place of the 2017 sketch that waits. *)
Fixpoint blinks (es : list V1.event) : nat :=
  match es with
  | [] => 0
  | V1.Delay _ :: es => S (blinks es)
  | V1.AnalogWrite _ _ :: es => blinks es
  end.

(** ** Frames and passes of the loop *)

(** The repeat frame of the NEC protocol, as [MyDecoder] reports it. *)
Definition sentinel : V1.frame := V1.mkFrame 1 V1.REPEAT.

(** A frame that carries a key: NEC protocol, and a value that is neither
    0 nor the repeat code. *)
Definition concrete (fr : V1.frame) : Prop :=
  V1.protocolNum fr = 1%Z /\ (0 < V1.value fr < V1.REPEAT)%Z.

(** The key code the switch sees for a frame. *)
Definition key_of (fr : V1.frame) : Z := Z.land (V1.value fr) 0xffff.

(** A press of a key: the NEC frame that carries its code. *)
Definition press (key : Z) : V1.frame := V1.mkFrame 1 key.

(** [n] presses of a key, one second apart, the first at [t]. *)
Fixpoint presses (key : Z) (t : Z) (n : nat) : list (Z * option V1.frame) :=
  match n with
  | O => []
  | S n => (t, Some (press key)) :: presses key (t + 1000) n
  end.

(** [n] repeat frames, 108 ms apart, the first at [t]. *)
Fixpoint sentinels (t : Z) (n : nat) : list (Z * option V1.frame) :=
  match n with
  | O => []
  | S n => (t, Some sentinel) :: sentinels (t + 108) n
  end.

(** The passes of the loop while a key is held: each pass comes within the
    idle window of the last frame, and each frame is the repeat frame. *)
Fixpoint held (last : Z) (passes : list (Z * option V1.frame)) : Prop :=
  match passes with
  | [] => True
  | (now, None) :: rest => (u32 (now - last) <= 500)%Z /\ held last rest
  | (now, Some fr) :: rest =>
      (u32 (now - last) <= 500)%Z /\ fr = sentinel /\ held now rest
  end.

(** The number of frames among the passes. *)
Fixpoint frames (passes : list (Z * option V1.frame)) : nat :=
  match passes with
  | [] => 0
  | (_, None) :: rest => frames rest
  | (_, Some _) :: rest => S (frames rest)
  end.

(** Passes that find no frame. *)
Definition silent (passes : list (Z * option V1.frame)) : Prop :=
  Forall (fun p => snd p = None) passes.

(** How many of [n] repeat frames re-fire the key when [c] repeat frames
    have been counted before them: a repeat frame re-fires when the count
    it finds exceeds 5. *)
Definition refires (c n : nat) : nat := ((c + n - 6) - (c - 6))%nat.

(** The three globals of the repeat logic. *)
Definition keys {F : Type} (s : V1.state F) : Z * Z * Z :=
  (V1.lastKey s, V1.repeatCount s, V1.keyTimer s).

(** ** Hue steps *)

(** The ranges the globals of the 2017 sketch stay in. *)
Definition Inv (s : V1.state Q) : Prop :=
  0 <= V1.hue s <= 1 /\ 0 <= V1.sat s <= 1 /\ 0 <= V1.bright s
  /\ 0 <= V1.red s /\ 0 <= V1.green s /\ 0 <= V1.blue s.

(** The states the 2017 sketch can be in: after [setup()], and after any
    pass of [loop()]. *)
Inductive reachable (bright_ratio rgb_ratio : Q) : V1.state Q -> Prop :=
| reach_setup : reachable bright_ratio rgb_ratio V1.setup
| reach_loop s now fr :
    reachable bright_ratio rgb_ratio s ->
    reachable bright_ratio rgb_ratio (V1.loop bright_ratio rgb_ratio now fr s).

(** The test [hue > 1.0 && hue < 2.0] that guards the doubled step. *)
Definition doubled_step (h : Q) : bool := Qltb 1 h && Qltb h 2.

(** One step forward, or back, of 1/HUE_STEPS of the cycle, possibly
    around the end of the cycle. *)
Definition steps_forward (h h' : Q) : Prop :=
  h' - h == 1 # 400 \/ h' - h == (1 # 400) - 1.
Definition steps_back (h h' : Q) : Prop :=
  h - h' == 1 # 400 \/ h - h' == (1 # 400) - 1.

(** ** Ranges and rounding *)

(** The ranges of the data model: the three HSB values in [0, 1], the
    three channels in [0, 255]. *)
Definition InRange (s : V1.state Q) : Prop :=
  Inv s /\ V1.bright s <= 1
  /\ V1.red s <= 255 /\ V1.green s <= 255 /\ V1.blue s <= 255.

(** [d] is the integer nearest to [c], a half being rounded up. *)
Definition nearest (c : Q) (d : Z) : Prop :=
  inject_Z d - (1 # 2) <= c < inject_Z d + (1 # 2).

(** ** Keys and frames, again *)

(** Passes whose frames, if any, are all repeat frames. *)
Definition repeats_only (passes : list (Z * option V1.frame)) : Prop :=
  Forall (fun p => match snd p with
                   | None => True
                   | Some fr => V1.value fr = V1.REPEAT
                   end) passes.

(** The keys that stop the variation of the hue: the pure-colour key, the
    six RGB edits and the three reference colours. *)
Definition cancels_variable_hue (key : Z) : bool :=
  existsb (Z.eqb key)
    [V1.PURE; V1.INCR_RED; V1.INCR_GREEN; V1.INCR_BLUE;
     V1.DECR_RED; V1.DECR_GREEN; V1.DECR_BLUE;
     V1.WARM_WHITE; V1.BRIGHT_WHITE; V1.DAYLIGHT].

(** A state of the 2017 sketch with its step time forgotten, and two
    states that differ in nothing but the step time. *)
Definition forget_step_time {F : Type} (s : V1.state F) : V1.state F :=
  V1.set_hueStepTime s 0.

Definition agree {F : Type} (s s' : V1.state F) : Prop :=
  forget_step_time s = forget_step_time s'.

(** ** PWM cycles *)

(** The values that [OCR1A] and [OCR2A] take over [n] consecutive
    overflows of their timers. *)
Fixpoint OCR1A_trace {F} `{Arith F} (n : nat) (p : V2.pwm F) : list Z :=
  match n with
  | O => []
  | S n => V2.OCR1A (V2.TIMER1_OVF p) :: OCR1A_trace n (V2.TIMER1_OVF p)
  end.

Fixpoint OCR2A_trace {F} `{Arith F} (n : nat) (p : V2.pwm F) : list Z :=
  match n with
  | O => []
  | S n => V2.OCR2A (V2.TIMER2_OVF p) :: OCR2A_trace n (V2.TIMER2_OVF p)
  end.

(** The number of cycles of a trace that are gated off. *)
Definition off_cycles (trace : list Z) : nat :=
  length (filter (Z.eqb 0) trace).

(** What a register holds in the cycle numbered [c] at the coarse level
    [k], and over [n] consecutive cycles from the count [c]. *)
Definition gate (k level c : Z) : Z := if (c <=? k)%Z then level else 0%Z.

Fixpoint gates (k level c : Z) (n : nat) : list Z :=
  match n with
  | O => []
  | S n => gate k level (c mod 8) :: gates k level (c + 1) n
  end.

(** ** The rainbow chart of the v2.1 sketch *)

(** "Validate the hue" *)
Definition valid_hue (h : Q) : Q :=
  let h := if Qltb h 0 then 0 else h in
  if Qle_bool 255 h then 0 else h.

(** The saturated triple of the chart at a validated hue, segment by
    segment, with the slopes as single rationals; there is none in the
    segment whose branch leaves [bluePure] without a value. *)
Definition rainbow (h : Q) : option (Q * Q * Q) :=
  if Qltb h 32 then Some (255 - (85 # 32) * h, (85 # 32) * h, 0)
  else if Qltb h 64 then Some (170, (255 # 96) * h, 0)
  else if Qltb h 96 then None
  else if Qltb h 128
       then Some (0, 255 - (85 # 32) * (h - 96), (85 # 32) * (h - 96))
  else if Qltb h 160
       then Some (0, 170 - (170 # 32) * (h - 128),
                  85 + (170 # 32) * (h - 128))
  else Some ((255 # 96) * (h - 160), 0, 255 - (255 # 96) * (h - 160)).

(** The desaturation of a primary towards white. *)
Definition whiten (s p : Q) : Q := s * p + (1 - s) * 255.

(** The channels that an edit of the channel [c] does not touch are as
    they were. *)
Definition other_channels (c : V2.channel) (s s' : V2.globals Q) : Prop :=
  forall c', c' <> c -> V2.get_channel c' s' = V2.get_channel c' s.

(** A state of the v2.1 sketch that shows an orange at half brightness and
    at the coarse level 3, for the examples. *)
Definition orange : V2.globals Q :=
  V2.mkGlobals (V2.mkState 20 1 (1 # 2) 3 false 100) 100 0 20 1 (1 # 2)
               0 0 0 false (V2.mkPwm 2 7 3 100 40 (5 # 2) 0 0 0)
               (V2.mkState 20 1 (1 # 2) 3 false 100) [].

(* ================================================================== *)
(** * Exact arithmetic: tests, maxima and minima                       *)
(* ================================================================== *)

Local Open Scope Q_scope.
Import Blocks.

Lemma Qle_bool_false (x y : Q) : Qle_bool x y = false <-> y < x.
Proof.
  rewrite <- not_true_iff_false, Qle_bool_iff.
  split; [apply Qnot_le_lt | apply Qlt_not_le].
Qed.

Lemma Qltb_true (x y : Q) : Qltb x y = true <-> x < y.
Proof. unfold Qltb. rewrite negb_true_iff. apply Qle_bool_false. Qed.

Lemma Qltb_false (x y : Q) : Qltb x y = false <-> y <= x.
Proof. unfold Qltb. rewrite negb_false_iff. apply Qle_bool_iff. Qed.

Lemma Qeq_bool_false (x y : Q) : Qeq_bool x y = false <-> ~ x == y.
Proof. rewrite <- not_true_iff_false, Qeq_bool_iff. tauto. Qed.

(** Turn the operations of [ArithQ] into those of [Q], the constants of the
    sketch into numerals, and divisions by numerals into products. *)
Ltac qarith :=
  unfold fdec, V1.MIN_BRIGHT, V1.MAX_RGB, V1.MIN_RGB, V1.HUE_STEPS,
    V1.SAT_STEPS in *;
  cbn [fadd fsub fmul fdiv fltb fleb feqb fconst ftrunc ArithQ] in *;
  unfold Qdiv, inject_Z in *;
  cbn [Qinv Qnum Qden] in *.

Ltac no_test t :=
  lazymatch t with
  | context [Qle_bool] => fail
  | context [Qltb] => fail
  | context [Qeq_bool] => fail
  | _ => idtac
  end.

(** Case analysis on an innermost test of the goal. *)
Ltac qtest :=
  match goal with
  | |- context [Qle_bool ?a ?b] =>
      no_test a; no_test b;
      let E := fresh "E" in
      destruct (Qle_bool a b) eqn:E;
      [apply Qle_bool_iff in E | apply Qle_bool_false in E]
  | |- context [Qltb ?a ?b] =>
      no_test a; no_test b;
      let E := fresh "E" in
      destruct (Qltb a b) eqn:E;
      [apply Qltb_true in E | apply Qltb_false in E]
  | |- context [Qeq_bool ?a ?b] =>
      no_test a; no_test b;
      let E := fresh "E" in
      destruct (Qeq_bool a b) eqn:E;
      [apply Qeq_bool_iff in E | apply Qeq_bool_false in E]
  end.

Ltac qtests := repeat (qtest; cbn [andb orb negb]).
Ltac qsplit := qtest; cbn [andb orb negb]; try (exfalso; lra).

Lemma Qfmax_case (a b : Q) :
  (fmax a b = a /\ b < a) \/ (fmax a b = b /\ a <= b).
Proof. unfold fmax; qarith. qtest; auto. Qed.

Lemma Qfmin_case (a b : Q) :
  (fmin a b = a /\ a < b) \/ (fmin a b = b /\ b <= a).
Proof. unfold fmin; qarith. qtest; auto. Qed.

Lemma fmax3_cases (a b c : Q) :
  let m := fmax a (fmax b c) in
  (m = a \/ m = b \/ m = c) /\ a <= m /\ b <= m /\ c <= m.
Proof.
  cbv zeta.
  destruct (Qfmax_case b c) as [[-> E] | [-> E]];
  match goal with |- context [fmax ?u ?v] =>
    destruct (Qfmax_case u v) as [[-> E'] | [-> E']] end;
  (split; [tauto | lra]).
Qed.

Lemma fmin3_cases (a b c : Q) :
  let m := fmin a (fmin b c) in
  (m = a \/ m = b \/ m = c) /\ m <= a /\ m <= b /\ m <= c.
Proof.
  cbv zeta.
  destruct (Qfmin_case b c) as [[-> E] | [-> E]];
  match goal with |- context [fmin ?u ?v] =>
    destruct (Qfmin_case u v) as [[-> E'] | [-> E']] end;
  (split; [tauto | lra]).
Qed.

(* ================================================================== *)
(** * The conversions are their blocks put together                    *)
(* ================================================================== *)

Lemma HSBtoRGB_blocks {F} `{Arith F} (hue sat bright : F) :
  V1.HSBtoRGB hue sat bright =
  let x := phase hue in
  let r := desaturate sat (ramp_red x) in
  let g := desaturate sat (ramp_green x) in
  let b := desaturate sat (ramp_blue x) in
  let bright := limit_bright bright (bright_cap r g b) in
  (bright, fmul r (fmul bright (fconst 3)), fmul g (fmul bright (fconst 3)),
   fmul b (fmul bright (fconst 3))).
Proof. reflexivity. Qed.

Lemma RGBtoHSB_blocks {F} `{Arith F} (hue red green blue : F) :
  V1.RGBtoHSB hue red green blue =
  let bright :=
    fdiv (fdiv (fadd (fadd red green) blue) V1.MAX_RGB) (fconst 3) in
  let '(r, g, b) := normalize red green blue in
  let sat := saturation r g b in
  let '(r, g, b) := remove_lowest sat r g b in
  (if fltb (fconst 0) sat && fltb (fconst 0) bright
   then fdiv (reverse_ramps hue r g b) (fconst 3) else hue,
   sat, bright).
Proof. reflexivity. Qed.

(* ================================================================== *)
(** * HSBtoRGB in exact arithmetic                                     *)
(* ================================================================== *)

Lemma phase_range (h : Q) : 0 <= phase h <= 3.
Proof. unfold phase; qarith. qtests; lra. Qed.

Lemma phase_unit (h : Q) : 0 <= h <= 1 -> phase h == h * 3.
Proof. intros Hh. unfold phase; qarith. qtests; lra. Qed.

(** The three ramps, segment by segment. *)
Lemma ramps_cases (x : Q) :
  0 <= x <= 3 ->
  (x <= 1 /\ ramp_red x == 255 * x /\ ramp_green x == 0
          /\ ramp_blue x == 255 - 255 * x)
  \/ (1 < x <= 2 /\ ramp_red x == 255 - 255 * (x - 1)
          /\ ramp_green x == 255 * (x - 1) /\ ramp_blue x == 0)
  \/ (2 < x /\ ramp_red x == 0 /\ ramp_green x == 255 - 255 * (x - 2)
          /\ ramp_blue x == 255 * (x - 2)).
Proof.
  intros Hx. unfold ramp_red, ramp_green, ramp_blue; qarith.
  destruct (Qlt_le_dec 1 x) as [H1 | H1];
    [destruct (Qlt_le_dec 2 x) as [H2 | H2] |].
  - right; right. qtests; lra.
  - right; left. qtests; lra.
  - left. qtests; lra.
Qed.

Lemma ramps_range (x : Q) :
  0 <= x <= 3 ->
  0 <= ramp_red x <= 255 /\ 0 <= ramp_green x <= 255
  /\ 0 <= ramp_blue x <= 255.
Proof. intros Hx. destruct (ramps_cases x Hx) as [C | [C | C]]; lra. Qed.

Lemma ramps_sum (x : Q) :
  0 <= x <= 3 -> ramp_red x + ramp_green x + ramp_blue x == 255.
Proof. intros Hx. destruct (ramps_cases x Hx) as [C | [C | C]]; lra. Qed.

Lemma ramps_floor (x : Q) :
  0 <= x <= 3 -> ramp_red x == 0 \/ ramp_green x == 0 \/ ramp_blue x == 0.
Proof. intros Hx. destruct (ramps_cases x Hx) as [C | [C | C]]; lra. Qed.

Lemma desaturate_eq (s c : Q) : desaturate s c == 85 * (1 - s) + s * c.
Proof. unfold desaturate; qarith. ring. Qed.

Lemma desaturate_full (c : Q) : desaturate 1 c == c.
Proof. rewrite desaturate_eq. ring. Qed.

Lemma desaturate_sum (s r g b : Q) :
  r + g + b == 255 ->
  desaturate s r + desaturate s g + desaturate s b == 255.
Proof.
  intros Hs. rewrite !desaturate_eq.
  transitivity (255 * (1 - s) + s * (r + g + b)); [ring | rewrite Hs; ring].
Qed.

Lemma desaturate_nonneg (s c : Q) :
  0 <= s <= 1 -> 0 <= c -> 0 <= desaturate s c.
Proof.
  intros Hs Hc. rewrite desaturate_eq.
  assert (0 <= s * c) by (apply Qmult_le_0_compat; lra). lra.
Qed.

(** The largest primary of a triple that sums to 255 is at least 85, so
    the limit on the brightness is positive; at the limit the largest
    primary is scaled to 255. *)
Lemma bright_cap_spec (r g b : Q) :
  r + g + b == 255 ->
  let m := fmax r (fmax g b) in
  85 <= m /\ 0 < bright_cap r g b /\ m * (bright_cap r g b * 3) == 255.
Proof.
  intros Hs. cbv zeta. unfold bright_cap.
  destruct (fmax3_cases r g b) as [_ (Hr & Hg & Hb)]. cbv zeta in *.
  set (m := fmax r (fmax g b)) in *.
  assert (Hm : 85 <= m) by lra.
  qarith. split; [exact Hm | split].
  - apply Qmult_lt_0_compat; [| lra]. apply Qmult_lt_0_compat; [lra |].
    apply Qinv_lt_0_compat. lra.
  - field. lra.
Qed.

Lemma limit_bright_spec (bright cap : Q) :
  limit_bright bright cap <= cap
  /\ limit_bright bright cap <= bright
  /\ (limit_bright bright cap = bright
      \/ (limit_bright bright cap = cap /\ cap < bright)).
Proof.
  unfold limit_bright; qarith.
  qtest; (split; [| split]); auto; lra.
Qed.

Lemma mult_le_255 (x m k : Q) :
  0 <= k -> x <= m -> 0 <= m -> m * (k * 3) <= 255 -> x * (k * 3) <= 255.
Proof.
  intros Hk Hx Hm H.
  assert (x * (k * 3) <= m * (k * 3)) by (apply Qmult_le_compat_r; lra).
  lra.
Qed.

(** What the last block of [HSBtoRGB] does to the desaturated triple. *)
Lemma HSBtoRGB_scaled (hue sat bright : Q) :
  let '(b, r, g, bl) := V1.HSBtoRGB hue sat bright in
  (r + g + bl) / 255 / 3 == b
  /\ b <= bright
  /\ (b == bright \/ r == 255 \/ g == 255 \/ bl == 255)
  /\ (0 <= bright -> r <= 255 /\ g <= 255 /\ bl <= 255)
  /\ (0 <= sat <= 1 -> bright <= 0 -> r <= 0 /\ g <= 0 /\ bl <= 0).
Proof.
  rewrite HSBtoRGB_blocks. cbv zeta.
  pose proof (phase_range hue) as Hx.
  pose proof (ramps_sum _ Hx) as Hsum.
  pose proof (ramps_range _ Hx) as (Rr & Rg & Rb).
  apply (desaturate_sum sat) in Hsum.
  pose proof (fun Hs => desaturate_nonneg sat _ Hs (proj1 Rr)) as Dr.
  pose proof (fun Hs => desaturate_nonneg sat _ Hs (proj1 Rg)) as Dg.
  pose proof (fun Hs => desaturate_nonneg sat _ Hs (proj1 Rb)) as Db.
  set (dr := desaturate sat (ramp_red (phase hue))) in *.
  set (dg := desaturate sat (ramp_green (phase hue))) in *.
  set (db := desaturate sat (ramp_blue (phase hue))) in *.
  destruct (bright_cap_spec _ _ _ Hsum) as (Hm & Hcap & Hfull).
  destruct (fmax3_cases dr dg db) as [Hwhich (Hr & Hg & Hb)]. cbv zeta in *.
  set (m := fmax dr (fmax dg db)) in *.
  set (cap := bright_cap dr dg db) in *.
  destruct (limit_bright_spec bright cap) as (Hle & Hle' & Hk).
  set (k := limit_bright bright cap) in *.
  qarith. split; [| split; [| split; [| split]]].
  - transitivity ((dr + dg + db) * k * 3 * (1 # 255) * (1 # 3)); [ring |].
    rewrite Hsum. ring.
  - exact Hle'.
  - destruct Hk as [Hk | [Hk _]]; [left; rewrite Hk; reflexivity | right].
    rewrite Hk. destruct Hwhich as [E | [E | E]]; rewrite <- E; auto.
  - intros Hb0.
    assert (Hk0 : 0 <= k) by (destruct Hk as [-> | [-> _]]; lra).
    assert (Hfull' : m * (k * 3) <= 255).
    { rewrite <- Hfull. apply Qmult_le_l; lra. }
    split; [| split]; apply mult_le_255 with m; auto; lra.
  - intros Hs Hb0.
    assert (Hk0 : 0 <= - (k * 3)) by lra.
    pose proof (Qmult_le_0_compat _ _ (Dr Hs) Hk0).
    pose proof (Qmult_le_0_compat _ _ (Dg Hs) Hk0).
    pose proof (Qmult_le_0_compat _ _ (Db Hs) Hk0).
    lra.
Qed.

(** A channel above the ceiling.  Outside the ranges of the data model,
    at saturation 3 and brightness -1, the limit on the brightness does
    not bound the channels and red comes out as 510.  Within the ranges,
    in single precision, the hue, saturation and brightness that RGBtoHSB
    computes for the warm white (255, 147, 41) are rendered with a red of
    255.0000153 (16711681 / 65536): the limit is met only up to rounding.
    The statement of C4 fails at both. *)
Lemma HSBtoRGB_ceiling_exceeded :
  (let '(b', r, g, bl) := V1.HSBtoRGB (F:=Q) 0 3 (-1) in
   r == 510 /\ ~ r <= 255 /\ (r + g + bl) / 255 / 3 == -1)
  /\ (let '(h, s, b) :=
        V1.RGBtoHSB (F:=b32) (fconst 0) (fconst 255) (fconst 147) (fconst 41)
      in
      let '(b', r, g, bl) := V1.HSBtoRGB h s b in
      r = S754_finite false 16711681 (-16)
      /\ fltb (fconst 255) r = true).
Proof.
  split.
  - vm_compute. split; [reflexivity | split; [| reflexivity]].
    intros H. apply H. reflexivity.
  - vm_compute. split; reflexivity.
Qed.

(** C4 (amended).  In exact arithmetic, for every input (hue, sat,
    bright): HSBtoRGB multiplies the three channels of the desaturated
    triple by one factor, three times the brightness it leaves in its
    by-reference [bright]; after the call (red+green+blue)/255/3 equals
    that value; the value is [bright] itself or, when [bright] is above
    the limit of the largest primary, the limit, at which a channel is
    exactly at the ceiling 255; and no channel exceeds 255 provided the
    brightness is not negative or the saturation is within [0, 1]. *)
Theorem HSBtoRGB_bright_limit (hue sat bright : Q) :
  let x := phase hue in
  let dr := desaturate sat (ramp_red x) in
  let dg := desaturate sat (ramp_green x) in
  let db := desaturate sat (ramp_blue x) in
  let '(b, r, g, bl) := V1.HSBtoRGB hue sat bright in
  (r == dr * (b * 3) /\ g == dg * (b * 3) /\ bl == db * (b * 3))
  /\ (r + g + bl) / 255 / 3 == b
  /\ b <= bright
  /\ (b == bright \/ r == 255 \/ g == 255 \/ bl == 255)
  /\ (0 <= bright \/ 0 <= sat <= 1 -> r <= 255 /\ g <= 255 /\ bl <= 255).
Proof.
  cbv zeta.
  pose proof (HSBtoRGB_scaled hue sat bright) as Hsc.
  pose proof (HSBtoRGB_blocks hue sat bright) as Hbl. cbv zeta in Hbl.
  destruct (V1.HSBtoRGB hue sat bright) as [[[b r] g] bl].
  injection Hbl as Eb Er Eg Ebl.
  destruct Hsc as (Hmean & Hle & Hcap & Hpos & Hneg).
  split.
  { rewrite Er, Eg, Ebl, <- Eb. repeat split; reflexivity. }
  split; [exact Hmean | split; [exact Hle | split; [exact Hcap |]]].
  intros [Hb | Hs]; [exact (Hpos Hb) |].
  destruct (Qlt_le_dec bright 0) as [Hlt | Hge]; [| exact (Hpos Hge)].
  destruct (Hneg Hs ltac:(lra)) as (H1 & H2 & H3). lra.
Qed.

Lemma HSBtoRGB_bright_limit_witness :
  (0 <= 2 \/ 0 <= 1 # 2 <= 1)
  /\ let x := phase (3 # 10) in
     let dr := desaturate (1 # 2) (ramp_red x) in
     let dg := desaturate (1 # 2) (ramp_green x) in
     let db := desaturate (1 # 2) (ramp_blue x) in
     let '(b, r, g, bl) := V1.HSBtoRGB (3 # 10) (1 # 2) 2 in
     (r == dr * (b * 3) /\ g == dg * (b * 3) /\ bl == db * (b * 3))
     /\ (r + g + bl) / 255 / 3 == b
     /\ b <= 2
     /\ (b == 2 \/ r == 255 \/ g == 255 \/ bl == 255)
     /\ (0 <= 2 \/ 0 <= 1 # 2 <= 1 -> r <= 255 /\ g <= 255 /\ bl <= 255).
Proof.
  split; [left; discriminate |].
  exact (HSBtoRGB_bright_limit (3 # 10) (1 # 2) 2).
Defined.

(** At pure blue two channels are at the floor, not one: the statement of
    C3 fails at hue 0. *)
Lemma HSBtoRGB_blue_two_floors :
  let '(_, r, g, bl) := V1.HSBtoRGB (F:=Q) 0 1 (1 # 3) in
  r == 0 /\ g == 0 /\ ~ exactly_one_floor r g bl.
Proof.
  vm_compute. split; [reflexivity | split; [reflexivity |]].
  intros [(_ & H & _) | [(H & _) | (H & _)]]; apply H; reflexivity.
Qed.

(** C3 (amended).  For every hue in [0,1) with sat = 1 and bright = 1/3,
    HSBtoRGB leaves the brightness at 1/3, yields channels that are not
    negative and sum to 255, the bound of a fully saturated colour, with at
    least one channel at the floor 0; exactly one channel is at the floor
    except at the three primaries (hue 0, 1/3 and 2/3), where two are. *)
Theorem HSBtoRGB_hue_circle (h : Q) :
  0 <= h < 1 ->
  let '(b, r, g, bl) := V1.HSBtoRGB h 1 (1 # 3) in
  b == 1 # 3
  /\ 0 <= r /\ 0 <= g /\ 0 <= bl
  /\ r + g + bl == 255
  /\ (r == 0 \/ g == 0 \/ bl == 0)
  /\ (exactly_one_floor r g bl <-> ~ (h == 0 \/ h == 1 # 3 \/ h == 2 # 3)).
Proof.
  intros Hh. rewrite HSBtoRGB_blocks. cbv zeta.
  assert (Hx : phase h == h * 3) by (apply phase_unit; lra).
  pose proof (phase_range h) as Hx3.
  pose proof (ramps_sum _ Hx3) as Hsum.
  pose proof (ramps_cases _ Hx3) as Hcases.
  pose proof (ramps_range _ Hx3) as (Hr & Hg & Hb).
  set (x := phase h) in *.
  pose proof (desaturate_full (ramp_red x)) as Er.
  pose proof (desaturate_full (ramp_green x)) as Eg.
  pose proof (desaturate_full (ramp_blue x)) as Eb.
  change (@fconst Q ArithQ 1) with 1 in *.
  set (dr := desaturate 1 (ramp_red x)) in *.
  set (dg := desaturate 1 (ramp_green x)) in *.
  set (db := desaturate 1 (ramp_blue x)) in *.
  assert (Hdsum : dr + dg + db == 255) by lra.
  destruct (bright_cap_spec _ _ _ Hdsum) as (Hm & Hcap & Hfull).
  destruct (fmax3_cases dr dg db) as [Hwhich _]. cbv zeta in *.
  set (m := fmax dr (fmax dg db)) in *.
  assert (Hm255 : m <= 255) by (destruct Hwhich as [-> | [-> | ->]]; lra).
  set (cap := bright_cap dr dg db) in *.
  assert (Hcap3 : 1 # 3 <= cap).
  { destruct (Qlt_le_dec cap (1 # 3)) as [Hlt | Hge]; [exfalso | exact Hge].
    assert (m * (cap * 3) < m * 1) by (apply Qmult_lt_l; lra).
    lra. }
  destruct (limit_bright_spec (1 # 3) cap) as (_ & _ & [Hk | [_ Hk]]); [| lra].
  rewrite Hk. qarith.
  unfold exactly_one_floor.
  split; [reflexivity |].
  destruct Hcases as [C | [C | C]];
    do 5 (split; [lra |]); split; intros; lra.
Qed.

Lemma HSBtoRGB_hue_circle_witness :
  0 <= 1 # 2 < 1
  /\ let '(b, r, g, bl) := V1.HSBtoRGB (1 # 2) 1 (1 # 3) in
     b == 1 # 3
     /\ 0 <= r /\ 0 <= g /\ 0 <= bl
     /\ r + g + bl == 255
     /\ (r == 0 \/ g == 0 \/ bl == 0)
     /\ (exactly_one_floor r g bl
         <-> ~ (1 # 2 == 0 \/ 1 # 2 == 1 # 3 \/ 1 # 2 == 2 # 3)).
Proof.
  assert (Hh : 0 <= 1 # 2 < 1) by (split; [discriminate | reflexivity]).
  split; [exact Hh |].
  exact (HSBtoRGB_hue_circle (1 # 2) Hh).
Defined.

(* ================================================================== *)
(** * RGBtoHSB in exact arithmetic                                     *)
(* ================================================================== *)

(** Normalizing a scaled triple gives the triple back. *)
Lemma normalize_scaled (dr dg db k : Q) :
  dr + dg + db == 255 -> 0 < k ->
  let '(nr, ng, nb) := normalize (dr * k) (dg * k) (db * k) in
  nr == dr /\ ng == dg /\ nb == db.
Proof.
  intros Hs Hk. unfold normalize. qarith.
  assert (E : dr * k + dg * k + db * k == 255 * k).
  { transitivity ((dr + dg + db) * k); [ring | rewrite Hs; reflexivity]. }
  qtest; [| rewrite E in *; lra].
  rewrite E. repeat split; field; lra.
Qed.

Lemma normalize_nonneg (r g b : Q) :
  0 <= r -> 0 <= g -> 0 <= b ->
  let '(nr, ng, nb) := normalize r g b in
  0 <= nr /\ 0 <= ng /\ 0 <= nb
  /\ (nr + ng + nb == 255
      \/ (r + g + b <= 0 /\ nr == 0 /\ ng == 0 /\ nb == 0)).
Proof.
  intros Hr Hg Hb. unfold normalize. qarith. qtest.
  - assert (Hi : 0 < / (r + g + b)) by (apply Qinv_lt_0_compat; exact E).
    assert (Hc : 0 <= 255 * / (r + g + b))
      by (apply Qmult_le_0_compat; lra).
    repeat (split; [apply Qmult_le_0_compat; lra |]).
    left. field. lra.
  - repeat (split; [lra |]). right. lra.
Qed.

Lemma saturation_eq (r g b : Q) :
  saturation r g b == 1 - fmin r (fmin g b) * (1 # 85).
Proof. unfold saturation. qarith. field. Qed.

Lemma saturation_range (nr ng nb : Q) :
  0 <= nr -> 0 <= ng -> 0 <= nb ->
  nr + ng + nb == 255 \/ (nr == 0 /\ ng == 0 /\ nb == 0) ->
  0 <= saturation nr ng nb <= 1.
Proof.
  intros Hr Hg Hb Hs. rewrite saturation_eq.
  destruct (fmin3_cases nr ng nb) as [Hw (Lr & Lg & Lb)]. cbv zeta in *.
  set (m := fmin nr (fmin ng nb)) in *.
  assert (0 <= m) by (destruct Hw as [-> | [-> | ->]]; lra).
  lra.
Qed.

Lemma resaturate_eq (s c : Q) :
  resaturate s c == (c - 85 + 85 * s) / s.
Proof. unfold resaturate. qarith. unfold Qdiv. ring. Qed.

(** Resaturating undoes desaturating. *)
Lemma resaturate_desaturate (s s' p n : Q) :
  0 < s -> s' == s -> n == desaturate s p -> resaturate s' n == p.
Proof.
  intros Hs Hs' Hn. rewrite resaturate_eq, Hn, Hs', desaturate_eq.
  field. lra.
Qed.

Lemma resaturate_range (s' m c o1 o2 : Q) :
  0 < s' -> s' == 1 - m * (1 # 85) ->
  m <= c -> m <= o1 -> m <= o2 -> c + o1 + o2 == 255 ->
  0 <= resaturate s' c <= 255.
Proof.
  intros Hs Es Hc H1 H2 Hsum. rewrite resaturate_eq. split.
  - apply Qle_shift_div_l; lra.
  - apply Qle_shift_div_r; lra.
Qed.

(** A normalized triple that is the desaturation, by [s], of a saturated
    triple [(pr, pg, pb)]: the saturation and the saturated triple are
    recovered. *)
Section Desaturated.
Variables s pr pg pb nr ng nb : Q.
Hypothesis Hs : 0 < s.
Hypothesis Hpr : 0 <= pr.
Hypothesis Hpg : 0 <= pg.
Hypothesis Hpb : 0 <= pb.
Hypothesis Hfloor : pr == 0 \/ pg == 0 \/ pb == 0.
Hypothesis Hnr : nr == desaturate s pr.
Hypothesis Hng : ng == desaturate s pg.
Hypothesis Hnb : nb == desaturate s pb.

Lemma desaturated_products :
  0 <= s * pr /\ 0 <= s * pg /\ 0 <= s * pb
  /\ (s * pr == 0 \/ s * pg == 0 \/ s * pb == 0).
Proof.
  repeat split; try (apply Qmult_le_0_compat; lra).
  destruct Hfloor as [E | [E | E]]; rewrite E;
    [left | right; left | right; right]; ring.
Qed.

Lemma product_zero (p : Q) : s * p == 0 -> p == 0.
Proof. intros E. apply Qmult_integral in E. destruct E; lra. Qed.

Lemma saturation_desaturated : saturation nr ng nb == s.
Proof.
  rewrite saturation_eq.
  destruct desaturated_products as (Ur & Ug & Ub & Uz).
  rewrite desaturate_eq in Hnr, Hng, Hnb.
  destruct (fmin3_cases nr ng nb) as [Hw (Lr & Lg & Lb)]. cbv zeta in *.
  set (m := fmin nr (fmin ng nb)) in *.
  destruct Hw as [E | [E | E]]; rewrite E in *; lra.
Qed.

Lemma remove_lowest_desaturated (s' : Q) :
  s' == s ->
  let '(r, g, b) := remove_lowest s' nr ng nb in
  r == pr /\ g == pg /\ b == pb.
Proof.
  intros Hs'.
  destruct desaturated_products as (Ur & Ug & Ub & Uz).
  pose proof (resaturate_desaturate s s' pr nr Hs Hs' Hnr) as Rr.
  pose proof (resaturate_desaturate s s' pg ng Hs Hs' Hng) as Rg.
  pose proof (resaturate_desaturate s s' pb nb Hs Hs' Hnb) as Rb.
  pose proof (product_zero pr) as Zr.
  pose proof (product_zero pg) as Zg.
  pose proof (product_zero pb) as Zb.
  rewrite desaturate_eq in Hnr, Hng, Hnb.
  unfold remove_lowest. qarith.
  destruct (Qfmin_case ng nb) as [[-> E1] | [-> E1]];
  destruct (Qfmin_case nr nb) as [[-> E2] | [-> E2]];
  destruct (Qfmin_case ng nr) as [[-> E3] | [-> E3]];
  qtests; try (exfalso; lra);
  (split; [| split]); auto; symmetry;
  first [apply Zr | apply Zg | apply Zb]; lra.
Qed.
End Desaturated.

Lemma remove_lowest_range (s' nr ng nb : Q) :
  0 <= nr -> 0 <= ng -> 0 <= nb -> nr + ng + nb == 255 ->
  s' == saturation nr ng nb -> 0 < s' ->
  let '(r, g, b) := remove_lowest s' nr ng nb in
  0 <= r <= 255 /\ 0 <= g <= 255 /\ 0 <= b <= 255.
Proof.
  intros Hr Hg Hb Hsum Es Hs. rewrite saturation_eq in Es.
  destruct (fmin3_cases nr ng nb) as [_ (Lr & Lg & Lb)]. cbv zeta in *.
  set (m := fmin nr (fmin ng nb)) in *.
  pose proof (resaturate_range s' m nr ng nb Hs Es Lr Lg Lb Hsum) as Rr.
  pose proof (resaturate_range s' m ng nr nb Hs Es Lg Lr Lb ltac:(lra)) as Rg.
  pose proof (resaturate_range s' m nb nr ng Hs Es Lb Lr Lg ltac:(lra)) as Rb.
  unfold remove_lowest. qarith.
  repeat match goal with
         | |- context [if ?c then _ else _] => destruct c
         end; lra.
Qed.

(** Reversing the ramps gives the phase back. *)
Lemma reverse_ramps_ramps (x hue r g b : Q) :
  0 <= x < 3 ->
  r == ramp_red x -> g == ramp_green x -> b == ramp_blue x ->
  reverse_ramps hue r g b == x.
Proof.
  intros Hx Hr Hg Hb.
  assert (Hx' : 0 <= x <= 3) by lra.
  destruct (ramps_cases x Hx') as [C | [C | C]];
    destruct C as (C0 & Cr & Cg & Cb);
    rewrite Cr in Hr; rewrite Cg in Hg; rewrite Cb in Hb;
    clear Cr Cg Cb;
    unfold reverse_ramps; qarith;
    destruct (Qfmax_case g b) as [[-> E1] | [-> E1]];
    destruct (Qfmax_case r b) as [[-> E2] | [-> E2]];
    destruct (Qfmax_case g r) as [[-> E3] | [-> E3]];
    try (exfalso; lra);
    repeat qsplit; lra.
Qed.

Lemma reverse_ramps_range (h0 r g b : Q) :
  0 <= h0 <= 3 ->
  0 <= r <= 255 -> 0 <= g <= 255 -> 0 <= b <= 255 ->
  0 <= reverse_ramps h0 r g b <= 3.
Proof.
  intros Hh Hr Hg Hb. unfold reverse_ramps. qarith.
  repeat match goal with
         | |- context [if ?c then _ else _] => destruct c
         end; lra.
Qed.

(* ================================================================== *)
(** * Round trip                                                       *)
(* ================================================================== *)

(** The brightness asked for is lost when it is above the limit: from
    (h, s, b) = (0, 1, 1/2) the round trip returns the brightness 1/3,
    which is not within 1e-2 of 1/2.  The statement of C1 fails there. *)
Lemma round_trip_bright_lost :
  let '(b', r, g, bl) := V1.HSBtoRGB (F:=Q) 0 1 (1 # 2) in
  let '(h', s', b'') := V1.RGBtoHSB 0 r g bl in
  b'' == 1 # 3 /\ ~ within b'' (1 # 2).
Proof.
  vm_compute. split; [reflexivity |]. intros H. apply H. reflexivity.
Qed.

(** In single precision the hue comes back only up to rounding, and near
    the two ends of the circle not within the tolerance of C1: at
    saturation and brightness 0.02, the hue 0.99999994 (the last value
    below 1) comes back as 0, and the hue 1e-5 as 0.947e-5. *)
Lemma round_trip_hue_b32 :
  (let '(b', r, g, bl) :=
     V1.HSBtoRGB (F:=b32) (S754_finite false 16777215 (-24))
       (fdec 2 100) (fdec 2 100) in
   let '(h', _, _) := V1.RGBtoHSB (fconst 0) r g bl in
   h' = fconst 0)
  /\ (let '(b', r, g, bl) :=
        V1.HSBtoRGB (F:=b32) (fdec 1 100000) (fdec 2 100) (fdec 2 100) in
      let '(h', _, _) := V1.RGBtoHSB (fconst 0) r g bl in
      (fdec 1 100000 : b32) = S754_finite false 10995116 (-40)
      /\ h' = S754_finite false 10417245 (-40)).
Proof. vm_compute. repeat split; reflexivity. Qed.

(** C1 (amended).  In exact arithmetic, for every hue h in [0,1),
    saturation s > 0.01 and brightness b > 0.01, HSBtoRGB(h,s,b) followed
    by RGBtoHSB reproduces h and s exactly, and returns the brightness
    that HSBtoRGB left in its by-reference [bright]: b itself, or, when b
    is above the limit of the largest primary, that smaller limit, at
    which a channel is at 255; and this whatever hue the caller of
    RGBtoHSB held before. *)
Theorem round_trip (h s b h0 : Q) :
  0 <= h < 1 -> 1 # 100 < s -> 1 # 100 < b ->
  let '(b', r, g, bl) := V1.HSBtoRGB h s b in
  let '(h', s', b'') := V1.RGBtoHSB h0 r g bl in
  h' == h /\ s' == s /\ b'' == b'
  /\ (b' == b \/ (b' < b /\ (r == 255 \/ g == 255 \/ bl == 255))).
Proof.
  intros Hh Hs Hb.
  pose proof (HSBtoRGB_scaled h s b) as Hlim.
  rewrite HSBtoRGB_blocks in *. cbv zeta in *.
  assert (Hx : phase h == h * 3) by (apply phase_unit; lra).
  pose proof (phase_range h) as Hx3.
  pose proof (ramps_sum _ Hx3) as Hsum.
  pose proof (ramps_floor _ Hx3) as Hfloor.
  pose proof (ramps_range _ Hx3) as (Hr & Hg & Hbl).
  set (x := phase h) in *.
  apply (desaturate_sum s) in Hsum.
  set (dr := desaturate s (ramp_red x)) in *.
  set (dg := desaturate s (ramp_green x)) in *.
  set (db := desaturate s (ramp_blue x)) in *.
  destruct (bright_cap_spec _ _ _ Hsum) as (_ & Hcap & _).
  set (cap := bright_cap dr dg db) in *.
  destruct (limit_bright_spec b cap) as (_ & Hkb & Hk).
  set (k := limit_bright b cap) in *.
  assert (Hk0 : 0 < k) by (destruct Hk as [-> | [-> _]]; lra).
  destruct Hlim as (Hmean & _ & Hcapped & _).
  rewrite RGBtoHSB_blocks. cbv zeta.
  assert (Hk3 : 0 < k * 3) by lra.
  pose proof (normalize_scaled dr dg db (k * 3) Hsum Hk3) as Hn.
  change (@fmul Q ArithQ) with Qmult. change (@fconst Q ArithQ 3) with 3.
  destruct (normalize (dr * (k * 3)) (dg * (k * 3)) (db * (k * 3)))
    as [[nr ng] nb].
  destruct Hn as (Hnr & Hng & Hnb).
  assert (Hs0 : 0 < s) by lra.
  pose proof (saturation_desaturated s _ _ _ nr ng nb Hs0
                (proj1 Hr) (proj1 Hg) (proj1 Hbl) Hfloor Hnr Hng Hnb) as Hsat.
  pose proof (remove_lowest_desaturated s _ _ _ nr ng nb Hs0
                (proj1 Hr) (proj1 Hg) (proj1 Hbl) Hfloor Hnr Hng Hnb
                _ Hsat) as Hrem.
  set (s' := saturation nr ng nb) in *.
  destruct (remove_lowest s' nr ng nb) as [[r g] bl].
  destruct Hrem as (Er & Eg & Eb).
  assert (Hx' : 0 <= x < 3) by lra.
  pose proof (reverse_ramps_ramps x h0 r g bl Hx' Er Eg Eb) as Hrev.
  qarith.
  assert (T1 : Qltb 0 s' = true) by (apply Qltb_true; lra).
  assert (T2 : Qltb 0 ((dr * (k * 3) + dg * (k * 3) + db * (k * 3))
                        * (1 # 255) * (1 # 3)) = true)
    by (apply Qltb_true; lra).
  rewrite T1, T2. cbn [andb].
  split; [lra | split; [lra | split; [lra |]]].
  destruct Hk as [Hk | [Hk Hlt]].
  - left. rewrite Hk. reflexivity.
  - right. split; [rewrite Hk; exact Hlt |].
    destruct Hcapped as [E | E]; [rewrite Hk in E; lra | exact E].
Qed.

Lemma round_trip_witness :
  (0 <= 3 # 10 < 1 /\ 1 # 100 < 1 # 2 /\ 1 # 100 < 1 # 4)
  /\ let '(b', r, g, bl) := V1.HSBtoRGB (3 # 10) (1 # 2) (1 # 4) in
     let '(h', s', b'') := V1.RGBtoHSB 0 r g bl in
     h' == 3 # 10 /\ s' == 1 # 2 /\ b'' == b'
     /\ (b' == 1 # 4 \/ (b' < 1 # 4 /\ (r == 255 \/ g == 255 \/ bl == 255))).
Proof.
  assert (Hh : 0 <= 3 # 10 < 1) by (split; [discriminate | reflexivity]).
  assert (Hs : 1 # 100 < 1 # 2) by reflexivity.
  assert (Hb : 1 # 100 < 1 # 4) by reflexivity.
  split; [split; [exact Hh | split; [exact Hs | exact Hb]] |].
  exact (round_trip (3 # 10) (1 # 2) (1 # 4) 0 Hh Hs Hb).
Defined.

(* ================================================================== *)
(** * Ranges of the conversions                                        *)
(* ================================================================== *)

Lemma HSBtoRGB_nonneg (h s b : Q) :
  0 <= s <= 1 -> 0 <= b ->
  let '(b', r, g, bl) := V1.HSBtoRGB h s b in
  0 <= b' /\ 0 <= r /\ 0 <= g /\ 0 <= bl.
Proof.
  intros Hs Hb. rewrite HSBtoRGB_blocks. cbv zeta.
  pose proof (phase_range h) as Hx.
  pose proof (ramps_sum _ Hx) as Hsum.
  pose proof (ramps_range _ Hx) as (Hr & Hg & Hbl).
  apply (desaturate_sum s) in Hsum.
  pose proof (desaturate_nonneg s _ Hs (proj1 Hr)) as Dr.
  pose proof (desaturate_nonneg s _ Hs (proj1 Hg)) as Dg.
  pose proof (desaturate_nonneg s _ Hs (proj1 Hbl)) as Db.
  set (dr := desaturate s (ramp_red (phase h))) in *.
  set (dg := desaturate s (ramp_green (phase h))) in *.
  set (db := desaturate s (ramp_blue (phase h))) in *.
  destruct (bright_cap_spec _ _ _ Hsum) as (_ & Hcap & _).
  set (cap := bright_cap dr dg db) in *.
  destruct (limit_bright_spec b cap) as (_ & _ & Hk).
  set (k := limit_bright b cap) in *.
  assert (Hk0 : 0 <= k) by (destruct Hk as [-> | [-> _]]; lra).
  qarith.
  split; [exact Hk0 |].
  split; [| split]; apply Qmult_le_0_compat; lra.
Qed.

Lemma RGBtoHSB_range (h0 r g b : Q) :
  0 <= h0 <= 1 -> 0 <= r -> 0 <= g -> 0 <= b ->
  let '(h', s', b') := V1.RGBtoHSB h0 r g b in
  0 <= h' <= 1 /\ 0 <= s' <= 1 /\ 0 <= b'.
Proof.
  intros Hh Hr Hg Hb. rewrite RGBtoHSB_blocks. cbv zeta.
  pose proof (normalize_nonneg r g b Hr Hg Hb) as Hn.
  destruct (normalize r g b) as [[nr ng] nb].
  destruct Hn as (Nr & Ng & Nb & Nsum).
  assert (Nsum' : nr + ng + nb == 255 \/ (nr == 0 /\ ng == 0 /\ nb == 0))
    by tauto.
  pose proof (saturation_range nr ng nb Nr Ng Nb Nsum') as Hsat.
  pose proof (remove_lowest_range (saturation nr ng nb) nr ng nb Nr Ng Nb)
    as Hrem.
  set (s' := saturation nr ng nb) in *.
  destruct (remove_lowest s' nr ng nb) as [[pr pg] pb].
  qarith.
  split; [| split; [exact Hsat | lra]].
  qtest; cbn [andb]; [| exact Hh].
  qtest; [| exact Hh].
  destruct Nsum as [Nsum | (Z0 & _)].
  - destruct (Hrem Nsum ltac:(reflexivity) E) as (Pr & Pg & Pb).
    pose proof (reverse_ramps_range h0 pr pg pb ltac:(lra) Pr Pg Pb). lra.
  - lra.
Qed.

(* ================================================================== *)
(** * Hue at the singular points                                       *)
(* ================================================================== *)

(** In any arithmetic: when the test [sat > 0.0 && bright > 0.0] of the
    2017 function fails on the values the function has just computed, the
    hue of the caller is returned as it was. *)
Lemma RGBtoHSB_guard {F} `{Arith F} (hue red green blue : F) :
  let '(h', s', b') := V1.RGBtoHSB hue red green blue in
  fltb (fconst 0) s' && fltb (fconst 0) b' = false -> h' = hue.
Proof.
  rewrite RGBtoHSB_blocks. cbv zeta.
  destruct (normalize red green blue) as [[r g] b].
  destruct (remove_lowest (saturation r g b) r g b) as [[pr pg] pb].
  intros ->. reflexivity.
Qed.

(** The 2017 function, all channels equal, in exact arithmetic: the
    computed saturation is 0 and the hue is returned as it was. *)
Lemma RGBtoHSB_gray (hue c : Q) :
  0 <= c ->
  let '(h', s', b') := V1.RGBtoHSB hue c c c in
  h' = hue /\ (0 < c -> s' == 0) /\ b' == c / 255.
Proof.
  intros Hc.
  pose proof (RGBtoHSB_guard hue c c c) as Hg.
  rewrite RGBtoHSB_blocks in *. cbv zeta in *.
  assert (Hn : let '(r, g, b) := normalize c c c in
               (0 < c -> r == 85 /\ g == 85 /\ b == 85)).
  { unfold normalize. qarith. qtest.
    - intros Hp; repeat split; field; lra.
    - intros Hp; lra. }
  destruct (normalize c c c) as [[r g] b].
  pose proof (saturation_eq r g b) as Hsat.
  destruct (fmin3_cases r g b) as [Hw _]. cbv zeta in Hw.
  set (s' := saturation r g b) in *.
  destruct (remove_lowest s' r g b) as [[pr pg] pb].
  qarith.
  assert (Hb : (c + c + c) * (1 # 255) * (1 # 3) == c * (1 # 255)) by ring.
  split; [| split; [| exact Hb]].
  - apply Hg. destruct (Qlt_le_dec 0 c) as [Hp | Hz].
    + destruct (Hn Hp) as (Er & Eg & Eb).
      assert (Hs0 : s' == 0)
        by (rewrite Hsat; destruct Hw as [-> | [-> | ->]]; lra).
      replace (Qltb 0 s') with false; [reflexivity |].
      symmetry. apply Qltb_false. lra.
    + replace (Qltb 0 ((c + c + c) * (1 # 255) * (1 # 3))) with false;
        [apply andb_false_r |].
      symmetry. apply Qltb_false. lra.
  - intros Hp. destruct (Hn Hp) as (Er & Eg & Eb).
    rewrite Hsat; destruct Hw as [-> | [-> | ->]]; lra.
Qed.

(** The 2017 function at black: the computed brightness is 0 and the hue
    is returned as it was. *)
Lemma RGBtoHSB_black (hue : Q) :
  let '(h', s', b') := V1.RGBtoHSB hue 0 0 0 in
  h' = hue /\ s' == 1 /\ b' == 0.
Proof. vm_compute. repeat split. Qed.

(** The 2017 function in single precision, at black, at white and at the
    gray (254, 254, 254): the hue 100 of the caller is returned. *)
Lemma V1_RGBtoHSB_keeps_hue_b32 :
  fst (fst (V1.RGBtoHSB (F:=b32) (fconst 100)
              (fconst 0) (fconst 0) (fconst 0)))
  = fconst 100
  /\ fst (fst (V1.RGBtoHSB (F:=b32) (fconst 100)
                 (fconst 254) (fconst 254) (fconst 254)))
     = fconst 100
  /\ fst (fst (V1.RGBtoHSB (F:=b32) (fconst 100)
                 (fconst 255) (fconst 255) (fconst 255)))
     = fconst 100.
Proof. vm_compute. repeat split. Qed.

(** Rounding can defeat the test of the 2017 function: in single
    precision the gray (79, 79, 79) normalizes to a value just below 85,
    the computed saturation is positive, and the hue is computed anew. *)
Lemma V1_RGBtoHSB_gray_rounding_b32 :
  let '(h', s', b') :=
    V1.RGBtoHSB (F:=b32) (fconst 100) (fconst 79) (fconst 79) (fconst 79) in
  fltb (fconst 0) s' = true /\ feqb h' (fconst 100) = false.
Proof. vm_compute. split; reflexivity. Qed.

(** C2.  The v2.1 function has no test on the saturation and the
    brightness.  In single precision, at black and at the gray
    (254, 254, 254) the hue 100 of the caller is replaced by a NaN (the
    quotient 0/0), and at white by 0.1: the hue is not left unchanged. *)
Theorem V2_RGBtoHSB_overwrites_hue :
  option_map fst
    (V2.RGBtoHSB (F:=b32) (fconst 100) (fconst 1)
       (fconst 0) (fconst 0) (fconst 0))
  = Some S754_nan
  /\ option_map fst
       (V2.RGBtoHSB (F:=b32) (fconst 100) (fconst 1)
          (fconst 254) (fconst 254) (fconst 254))
     = Some S754_nan
  /\ option_map fst
       (V2.RGBtoHSB (F:=b32) (fconst 100) (fconst 1)
          (fconst 255) (fconst 255) (fconst 255))
     = Some (fdec 1 10).
Proof. vm_compute. repeat split. Qed.

(* ================================================================== *)
(** * The repeat logic                                                 *)
(* ================================================================== *)

(** The statements of this part hold in any arithmetic: the repeat logic
    never looks at a [float]. *)

Lemma land_ffff v : Z.land v 0xffff = (v mod 65536)%Z.
Proof. change 0xffff%Z with (Z.ones 16). apply Z.land_ones. lia. Qed.

Lemma key_of_range fr : (0 <= key_of fr <= 65535)%Z.
Proof.
  unfold key_of. rewrite land_ffff.
  pose proof (Z.mod_pos_bound (V1.value fr) 65536) as B. lia.
Qed.

Lemma land_key k : (0 <= k <= 65535)%Z -> Z.land k 0xffff = k.
Proof. intros Hk. rewrite land_ffff. apply Z.mod_small. lia. Qed.

Lemma refires_step c n :
  refires c (S n)
  = ((if (Z.of_nat c >? 5)%Z then 1 else 0) + refires (S c) n)%nat.
Proof. unfold refires. destruct (Z.of_nat c >? 5)%Z eqn:E; lia. Qed.

Create Rewrite HintDb keys_db.

Section RepeatLogic.
Import V1.
Context {F : Type} `{Arith F}.
(** The two step ratios. *)
Variables rb rg : F.

(** Nothing but the repeat logic writes the three globals of the repeat
    logic. *)
Lemma keys_set_hsb (s : state F) h sa b : keys (set_hsb s h sa b) = keys s.
Proof. reflexivity. Qed.
Lemma keys_set_rgb (s : state F) r g b : keys (set_rgb s r g b) = keys s.
Proof. reflexivity. Qed.
Lemma keys_set_hueStepTime (s : state F) t :
  keys (set_hueStepTime s t) = keys s.
Proof. reflexivity. Qed.
Lemma keys_set_hueStepTimer (s : state F) t :
  keys (set_hueStepTimer s t) = keys s.
Proof. reflexivity. Qed.
Lemma keys_set_variableHue (s : state F) v :
  keys (set_variableHue s v) = keys s.
Proof. reflexivity. Qed.
Lemma keys_emit (s : state F) es : keys (emit s es) = keys s.
Proof. reflexivity. Qed.
Lemma keys_DisplayRGB (s : state F) : keys (DisplayRGB s) = keys s.
Proof. reflexivity. Qed.
Lemma keys_blink (s : state F) : keys (blink s) = keys s.
Proof. reflexivity. Qed.
Lemma keys_call_HSBtoRGB (s : state F) : keys (call_HSBtoRGB s) = keys s.
Proof.
  unfold call_HSBtoRGB. destruct (HSBtoRGB _ _ _) as [[[b r] g] bl].
  reflexivity.
Qed.
Lemma keys_call_RGBtoHSB (s : state F) : keys (call_RGBtoHSB s) = keys s.
Proof.
  unfold call_RGBtoHSB. destruct (RGBtoHSB _ _ _ _) as [[h sa] b].
  reflexivity.
Qed.

Hint Rewrite keys_set_hsb keys_set_rgb keys_set_hueStepTime
  keys_set_hueStepTimer keys_set_variableHue keys_emit keys_DisplayRGB
  keys_blink keys_call_HSBtoRGB keys_call_RGBtoHSB : keys_db.

Ltac keys_frame :=
  repeat match goal with
         | |- context [if ?c then _ else _] => destruct c
         end;
  autorewrite with keys_db; reflexivity.

Lemma keys_handle_key key (s : state F) :
  keys (handle_key rb rg key s) = keys s.
Proof.
  unfold V1.handle_key, key_INIT, key_VAR_HUE, key_NEXT_HUE, key_PREV_HUE,
    key_DESATURATE, key_SATURATE, key_PURE, key_DIM, key_BRIGHTEN,
    key_INCR_RED, key_INCR_GREEN, key_INCR_BLUE, key_DECR_RED,
    key_DECR_GREEN, key_DECR_BLUE, key_reference.
  cbv zeta. keys_frame.
Qed.

Lemma keys_animate now (s : state F) : keys (animate now s) = keys s.
Proof. unfold animate. cbv zeta. keys_frame. Qed.

(** A pass that finds no frame. *)
Lemma pass_none now (s : state F) :
  exists s', loop_fired rb rg now None s = (s', None)
    /\ keys s' = (if (u32 (now - keyTimer s) >? 500)%Z
                  then (0%Z, 0%Z, keyTimer s) else keys s).
Proof.
  unfold V1.loop_fired, command, idle_reset.
  eexists; split; [reflexivity |].
  rewrite keys_animate.
  destruct (u32 (now - keyTimer s) >? 500)%Z; reflexivity.
Qed.

(** A pass that finds a repeat frame while the idle window is open. *)
Lemma pass_sentinel now (s : state F) k rc :
  (u32 (now - keyTimer s) <= 500)%Z ->
  lastKey s = k -> (0 < k <= 65535)%Z ->
  repeatCount s = rc -> (0 <= rc < 65535)%Z ->
  exists s', loop_fired rb rg now (Some sentinel) s
             = (s', if (rc >? 5)%Z then Some k else None)
    /\ keys s' = (k, (rc + 1)%Z, now).
Proof.
  intros Hw Hk Hk' Hrc Hrc'.
  unfold V1.loop_fired, command, idle_reset, repeat_logic, valid_key.
  replace (u32 (now - keyTimer s) >? 500)%Z with false by (symmetry; lia).
  cbn [value sentinel protocolNum].
  change (REPEAT =? REPEAT)%Z with true. cbv iota zeta.
  cbn [repeatCount set_keyTimer set_repeatCount lastKey].
  rewrite Hrc, Hk.
  assert (Eu : u16 (rc + 1) = (rc + 1)%Z) by (apply Z.mod_small; lia).
  destruct (rc >? 5)%Z.
  - replace (k =? 0)%Z with false by (symmetry; lia).
    replace (k =? REPEAT)%Z with false by (symmetry; unfold REPEAT; lia).
    cbn [andb negb Z.eqb Pos.eqb].
    rewrite land_key by lia.
    eexists; split; [reflexivity |].
    rewrite keys_animate, keys_DisplayRGB, keys_handle_key.
    unfold keys; cbn. rewrite Eu. reflexivity.
  - cbn.
    eexists; split; [reflexivity |].
    rewrite keys_animate. unfold keys; cbn. rewrite Eu, Hk. reflexivity.
Qed.

(** A pass that finds a frame carrying a key. *)
Lemma pass_command now (s : state F) fr :
  concrete fr ->
  exists s', loop_fired rb rg now (Some fr) s = (s', Some (key_of fr))
    /\ keys s' = (key_of fr,
                  if (u32 (now - keyTimer s) >? 500)%Z then 0%Z
                  else repeatCount s,
                  now).
Proof.
  intros [Hp Hv].
  assert (E1 : (value fr =? REPEAT)%Z = false) by lia.
  assert (E2 : (value fr =? 0)%Z = false) by lia.
  unfold V1.loop_fired, command, repeat_logic, valid_key.
  rewrite E1, Hp, E2, E1.
  cbn [andb negb Z.eqb Pos.eqb].
  eexists; split; [reflexivity |].
  rewrite keys_animate, keys_DisplayRGB, keys_handle_key.
  unfold idle_reset.
  destruct (u32 (now - keyTimer s) >? 500)%Z; reflexivity.
Qed.

Lemma run_cons now fr passes (s : state F) :
  run rb rg ((now, fr) :: passes) s =
  (fst (run rb rg passes (fst (loop_fired rb rg now fr s))),
   match snd (loop_fired rb rg now fr s) with
   | Some key =>
       key :: snd (run rb rg passes (fst (loop_fired rb rg now fr s)))
   | None => snd (run rb rg passes (fst (loop_fired rb rg now fr s)))
   end).
Proof.
  cbn [V1.run]. destruct (loop_fired rb rg now fr s) as [s1 k]. cbn [fst snd].
  destruct (run rb rg passes s1) as [s2 ks]. reflexivity.
Qed.

Lemma run_app passes1 passes2 (s : state F) :
  run rb rg (passes1 ++ passes2) s =
  (fst (run rb rg passes2 (fst (run rb rg passes1 s))),
   snd (run rb rg passes1 s)
   ++ snd (run rb rg passes2 (fst (run rb rg passes1 s)))).
Proof.
  revert s. induction passes1 as [| [now fr] passes1 IH]; intros s.
  - cbn [app V1.run fst snd]. destruct (run rb rg passes2 s); reflexivity.
  - cbn [app]. rewrite !run_cons, IH. cbn [fst snd].
    destruct (snd (loop_fired rb rg now fr s)); reflexivity.
Qed.

(** While the key is held, the count goes up by one per repeat frame, and
    the repeat frames that find a count above 5 re-fire the key. *)
Lemma held_run passes : forall (s : state F) k c,
  held (keyTimer s) passes ->
  lastKey s = k -> (0 < k <= 65535)%Z ->
  repeatCount s = Z.of_nat c ->
  (Z.of_nat (c + frames passes) <= 65535)%Z ->
  snd (run rb rg passes s) = repeat k (refires c (frames passes))
  /\ lastKey (fst (run rb rg passes s)) = k
  /\ repeatCount (fst (run rb rg passes s)) = Z.of_nat (c + frames passes).
Proof.
  induction passes as [| [now [fr |]] passes IH]; intros s k c Hh Hk Hk' Hc Hn.
  - cbn [V1.run fst snd frames]. unfold refires.
    replace (c + 0 - 6 - (c - 6))%nat with 0%nat by lia.
    rewrite Nat.add_0_r. auto.
  - cbn [held frames] in Hh, Hn |- *. destruct Hh as (Hw & -> & Hh).
    destruct (pass_sentinel now s k (Z.of_nat c) Hw Hk Hk' Hc ltac:(lia))
      as (s1 & E1 & K1).
    injection K1 as K1l K1c K1t.
    rewrite run_cons, E1. cbn [fst snd].
    rewrite <- K1t in Hh.
    destruct (IH s1 k (S c) Hh K1l Hk' ltac:(lia) ltac:(lia)) as (R & L & C).
    rewrite refires_step, R, L, C.
    replace (S c + frames passes)%nat with (c + S (frames passes))%nat by lia.
    destruct (Z.of_nat c >? 5)%Z; auto.
  - cbn [held frames] in Hh, Hn |- *. destruct Hh as (Hw & Hh).
    destruct (pass_none now s) as (s1 & E1 & K1).
    replace (u32 (now - keyTimer s) >? 500)%Z with false in K1
      by (symmetry; lia).
    injection K1 as K1l K1c K1t.
    rewrite run_cons, E1. cbn [fst snd].
    rewrite <- K1t in Hh.
    apply (IH s1 k c Hh); congruence.
Qed.

(** Passes that find no frame fire nothing, leave the idle timer alone,
    and clear the saved key and the count once the idle window closes. *)
Lemma silent_run passes : forall (s : state F),
  silent passes ->
  snd (run rb rg passes s) = []
  /\ keyTimer (fst (run rb rg passes s)) = keyTimer s
  /\ (Exists (fun p => (500 < u32 (fst p - keyTimer s))%Z) passes
      \/ (lastKey s = 0%Z /\ repeatCount s = 0%Z) ->
      lastKey (fst (run rb rg passes s)) = 0%Z
      /\ repeatCount (fst (run rb rg passes s)) = 0%Z).
Proof.
  induction passes as [| [now fr] passes IH]; intros s Hs.
  - cbn [V1.run fst snd]. split; [reflexivity | split; [reflexivity |]].
    intros [E | E]; [inversion E | exact E].
  - inversion Hs as [| p ps Hp Hs']; subst. cbn [snd] in Hp. subst fr.
    destruct (pass_none now s) as (s1 & E1 & K1).
    rewrite run_cons, E1. cbn [fst snd].
    destruct (IH s1 Hs') as (R & T & Z0).
    assert (T1 : keyTimer s1 = keyTimer s).
    { destruct (u32 (now - keyTimer s) >? 500)%Z; injection K1; auto. }
    rewrite R, T, T1. split; [reflexivity | split; [reflexivity |]].
    intros Hcase. apply Z0. rewrite T1.
    destruct (u32 (now - keyTimer s) >? 500)%Z eqn:Ei.
    + right. injection K1; auto.
    + injection K1 as K1l K1c _.
      destruct Hcase as [Hex | [Hl Hc]].
      * inversion Hex as [p ps Hi | p ps Hi]; subst; cbn [fst] in *;
          [lia | auto].
      * right. split; congruence.
Qed.

(** A key press that finds the count at 0, or the idle window closed; the
    key held for the passes [passes]; then silence.  The press fires the
    key, the first six repeat frames are absorbed, and each later repeat
    frame re-fires the key. *)
Lemma command_then_held (s : state F) cmd t0 passes quiet :
  concrete cmd -> key_of cmd <> 0%Z ->
  (repeatCount s = 0%Z \/ (500 < u32 (t0 - keyTimer s))%Z) ->
  held t0 passes -> (Z.of_nat (frames passes) <= 65535)%Z ->
  silent quiet ->
  snd (run rb rg ((t0, Some cmd) :: passes ++ quiet) s)
  = key_of cmd :: repeat (key_of cmd) (frames passes - 6).
Proof.
  intros Hc Hk Hfresh Hh Hn Hq.
  destruct (pass_command t0 s cmd Hc) as (s1 & E1 & K1).
  assert (K1' : keys s1 = (key_of cmd, 0%Z, t0)).
  { rewrite K1.
    destruct (u32 (t0 - keyTimer s) >? 500)%Z eqn:E; [reflexivity |].
    destruct Hfresh as [-> | Hi]; [reflexivity | lia]. }
  injection K1' as K1l K1c K1t.
  rewrite run_cons, E1. cbn [fst snd]. f_equal.
  rewrite run_app. cbn [snd].
  rewrite <- K1t in Hh.
  pose proof (key_of_range cmd) as Hr.
  destruct (held_run passes s1 (key_of cmd) 0 Hh K1l ltac:(lia) K1c ltac:(lia))
    as (R & _ & _).
  destruct (silent_run quiet (fst (run rb rg passes s1)) Hq) as (Q0 & _ & _).
  rewrite R, Q0, app_nil_r. unfold refires. f_equal. lia.
Qed.

(** What the repeat logic does with a frame stream made of one key press
    followed by n repeat frames that arrive within the idle window, then
    silence, the press finding the repeat count at 0 (as after [setup()]
    or an idle time-out): the command fires once for the press and once
    more for each repeat frame after the sixth.  A repeat frame is
    compared with the count of the repeat frames before it
    ([repeatCount++ > 5]), so the sixth repeat frame, which finds the
    count at 5, is still absorbed. *)
Theorem repeat_debounce (s : state F) cmd t0 passes quiet :
  repeatCount s = 0%Z ->
  concrete cmd -> key_of cmd <> 0%Z ->
  held t0 passes -> (Z.of_nat (frames passes) <= 65535)%Z ->
  silent quiet ->
  let n := frames passes in
  let fired := snd (run rb rg ((t0, Some cmd) :: passes ++ quiet) s) in
  (n < 5 -> fired = [key_of cmd])%nat
  /\ (5 < n -> fired = key_of cmd :: repeat (key_of cmd) (n - 6))%nat.
Proof.
  intros Hz Hc Hk Hh Hn Hq n fired.
  assert (E : fired = key_of cmd :: repeat (key_of cmd) (n - 6)).
  { apply command_then_held; auto. }
  split; intros Hcase; rewrite E; [| reflexivity].
  replace (n - 6)%nat with 0%nat by lia. reflexivity.
Qed.

(** C6.  Whatever the state of the repeat logic: once a pass of the loop
    finds that no frame has restarted the idle timer for more than 500 ms,
    the saved key and the repeat count are cleared, and nothing fires
    meanwhile; the next key press, at any later time and even of the same
    key, then fires once, and its first six repeat frames are absorbed, as
    for a fresh press: nothing is left of the repeating before. *)
Theorem idle_timeout_fresh (s : state F) idle cmd t0 passes quiet :
  silent idle ->
  Exists (fun p => (500 < u32 (fst p - keyTimer s))%Z) idle ->
  concrete cmd -> key_of cmd <> 0%Z ->
  held t0 passes -> (Z.of_nat (frames passes) <= 65535)%Z ->
  silent quiet ->
  let s1 := fst (run rb rg idle s) in
  snd (run rb rg idle s) = []
  /\ lastKey s1 = 0%Z /\ repeatCount s1 = 0%Z
  /\ snd (run rb rg ((t0, Some cmd) :: passes ++ quiet) s1)
     = key_of cmd :: repeat (key_of cmd) (frames passes - 6).
Proof.
  intros Hi Hex Hc Hk Hh Hn Hq s1.
  destruct (silent_run idle s Hi) as (R & _ & Z0).
  destruct (Z0 (or_introl Hex)) as (Zl & Zc).
  split; [exact R | split; [exact Zl | split; [exact Zc |]]].
  apply command_then_held; auto.
Qed.

End RepeatLogic.

Lemma repeat_debounce_witness :
  let passes := sentinels 1040 8 in
  let quiet := [(3000%Z, @None V1.frame)] in
  let n := frames passes in
  let fired :=
    snd (V1.run ratio_q ratio_q
           ((1000%Z, Some (press V1.NEXT_HUE)) :: passes ++ quiet)
           V1.setup) in
  (n < 5 -> fired = [key_of (press V1.NEXT_HUE)])%nat
  /\ (5 < n ->
      fired = key_of (press V1.NEXT_HUE)
              :: repeat (key_of (press V1.NEXT_HUE)) (n - 6))%nat.
Proof.
  apply (repeat_debounce ratio_q ratio_q V1.setup (press V1.NEXT_HUE) 1000
           (sentinels 1040 8) [(3000%Z, None)]).
  - reflexivity.
  - split; [reflexivity | split; reflexivity].
  - vm_compute. discriminate.
  - cbn [held sentinels].
    repeat (split; [vm_compute; discriminate | split; [reflexivity |]]).
    exact I.
  - vm_compute. discriminate.
  - repeat constructor.
Defined.

(** C5 (the code departs from it).  A press of NextHue after [setup()],
    followed by six repeat frames 108 ms apart: the six frames are more
    than the five of the threshold ("if more than 5 consecutive repeat
    frames"), and yet the key fires once only; it takes a seventh repeat
    frame to fire it again.  The test [repeatCount++ > 5] sees the count
    before the increment. *)
Lemma six_repeat_frames_absorbed :
  snd (V1.run ratio_q ratio_q
         ((1000%Z, Some (press V1.NEXT_HUE)) :: sentinels 1040 6) V1.setup)
  = [V1.NEXT_HUE]
  /\ snd (V1.run ratio_q ratio_q
            ((1000%Z, Some (press V1.NEXT_HUE)) :: sentinels 1040 7) V1.setup)
     = [V1.NEXT_HUE; V1.NEXT_HUE].
Proof. vm_compute. split; reflexivity. Qed.

(** A key press does not reset the count by itself: pressed within the
    idle window of a held key, the new key re-fires on its first repeat
    frame.  Hence the hypothesis on the count in [repeat_debounce]. *)
Lemma stale_count_continues :
  let s := fst (V1.run ratio_q ratio_q
                  ((1000%Z, Some (press V1.NEXT_HUE)) :: sentinels 1040 8)
                  V1.setup) in
  V1.repeatCount s = 8%Z
  /\ snd (V1.run ratio_q ratio_q
            ((2000%Z, Some (press V1.PREV_HUE)) :: sentinels 2040 1) s)
     = [V1.PREV_HUE; V1.PREV_HUE].
Proof. vm_compute. split; reflexivity. Qed.

Lemma idle_timeout_fresh_witness :
  let s := fst (V1.run ratio_q ratio_q
                  ((1000%Z, Some (press V1.NEXT_HUE)) :: sentinels 1040 10)
                  V1.setup) in
  let idle := [(2100%Z, @None V1.frame); (2600%Z, None)] in
  let passes := sentinels 2740 3 in
  let s1 := fst (V1.run ratio_q ratio_q idle s) in
  V1.repeatCount s = 10%Z
  /\ snd (V1.run ratio_q ratio_q idle s) = []
  /\ V1.lastKey s1 = 0%Z /\ V1.repeatCount s1 = 0%Z
  /\ snd (V1.run ratio_q ratio_q
            ((2700%Z, Some (press V1.NEXT_HUE)) :: passes ++ []) s1)
     = key_of (press V1.NEXT_HUE)
       :: repeat (key_of (press V1.NEXT_HUE)) (frames passes - 6).
Proof.
  cbv zeta. split; [vm_compute; reflexivity |].
  apply (idle_timeout_fresh ratio_q ratio_q
           (fst (V1.run ratio_q ratio_q
                   ((1000%Z, Some (press V1.NEXT_HUE)) :: sentinels 1040 10)
                   V1.setup))
           [(2100%Z, None); (2600%Z, None)]
           (press V1.NEXT_HUE) 2700 (sentinels 2740 3) []).
  - repeat constructor.
  - apply Exists_cons_tl, Exists_cons_hd. vm_compute. reflexivity.
  - split; [reflexivity | split; reflexivity].
  - vm_compute. discriminate.
  - cbn [held sentinels].
    repeat (split; [vm_compute; discriminate | split; [reflexivity |]]).
    exact I.
  - vm_compute. discriminate.
  - constructor.
Defined.

(* ================================================================== *)
(** * Edits at a limit, and the acknowledgment blink                   *)
(* ================================================================== *)

Section Blink.
Import V1.
Context {F : Type} `{Arith F}.

Lemma blinks_app es1 es2 :
  blinks (es1 ++ es2) = (blinks es1 + blinks es2)%nat.
Proof.
  induction es1 as [| [pin duty | ms] es1 IH]; cbn [app blinks]; auto.
  rewrite IH. reflexivity.
Qed.

Lemma blinks_DisplayRGB (s : state F) :
  blinks (output (DisplayRGB s)) = blinks (output s).
Proof. cbn. rewrite blinks_app. cbn. lia. Qed.

Lemma blinks_blink (s : state F) :
  blinks (output (blink s)) = S (blinks (output s)).
Proof. cbn. rewrite !blinks_app. cbn. lia. Qed.

Lemma output_call_HSBtoRGB (s : state F) :
  output (call_HSBtoRGB s) = output s.
Proof.
  unfold call_HSBtoRGB. destruct (HSBtoRGB _ _ _) as [[[b r] g] bl].
  reflexivity.
Qed.

Lemma output_call_RGBtoHSB (s : state F) :
  output (call_RGBtoHSB s) = output s.
Proof.
  unfold call_RGBtoHSB. destruct (RGBtoHSB _ _ _ _) as [[h sa] b].
  reflexivity.
Qed.

Lemma hue_call_HSBtoRGB (s : state F) : hue (call_HSBtoRGB s) = hue s.
Proof.
  unfold call_HSBtoRGB. destruct (HSBtoRGB _ _ _) as [[[b r] g] bl].
  reflexivity.
Qed.

Lemma bright_call_HSBtoRGB (s : state F) :
  bright (call_HSBtoRGB s)
  = limit_bright (bright s)
      (bright_cap
         (desaturate (sat s) (ramp_red (phase (hue s))))
         (desaturate (sat s) (ramp_green (phase (hue s))))
         (desaturate (sat s) (ramp_blue (phase (hue s))))).
Proof. reflexivity. Qed.

(** In any arithmetic and in every state, the DIM key writes nothing to
    the pins of its own: it never blinks. *)
Lemma output_key_DIM ratio (s : state F) :
  output (key_DIM ratio s) = output s.
Proof.
  unfold key_DIM. cbv zeta. destruct (fltb _ _); cbn [output set_hsb];
    rewrite output_call_HSBtoRGB; reflexivity.
Qed.

(** A press of the variable-hue key while the hue varies doubles the step
    time, modulo 2^32, and blinks. *)
Lemma VAR_HUE_doubles (s : state F) :
  variableHue s = true ->
  hueStepTime (key_VAR_HUE s) = u32 (hueStepTime s * 2)
  /\ blinks (output (key_VAR_HUE s)) = S (blinks (output s)).
Proof.
  intros Hv. unfold key_VAR_HUE. rewrite Hv. split; [reflexivity |].
  rewrite blinks_blink. reflexivity.
Qed.
End Blink.

Section Limits.
Import V1.
Variables bright_ratio rgb_ratio : Q.
Hypothesis bright_ratio_lt : 0 < bright_ratio < 1.
Hypothesis rgb_ratio_lt : 0 < rgb_ratio < 1.

(** DESATURATE at saturation 0: clamped, with a blink. *)
Lemma DESATURATE_at_floor (s : state Q) :
  sat s == 0 ->
  sat (key_DESATURATE s) == 0
  /\ blinks (output (key_DESATURATE s)) = S (blinks (output s)).
Proof.
  intros Hs. unfold key_DESATURATE. cbv zeta. qarith.
  qtest; [| lra].
  split.
  - unfold call_HSBtoRGB. destruct (HSBtoRGB _ _ _) as [[[b r] g] bl].
    cbn. reflexivity.
  - rewrite output_call_HSBtoRGB, blinks_blink. reflexivity.
Qed.

(** SATURATE at saturation 1: clamped, with a blink. *)
Lemma SATURATE_at_ceiling (s : state Q) :
  sat s == 1 ->
  sat (key_SATURATE s) == 1
  /\ blinks (output (key_SATURATE s)) = S (blinks (output s)).
Proof.
  intros Hs. unfold key_SATURATE. cbv zeta. qarith.
  qtest; [| lra].
  split.
  - unfold call_HSBtoRGB. destruct (HSBtoRGB _ _ _) as [[[b r] g] bl].
    cbn. reflexivity.
  - rewrite output_call_HSBtoRGB, blinks_blink. reflexivity.
Qed.

(** INCR_RED with red at the ceiling: clamped, with a blink. *)
Lemma INCR_RED_at_ceiling (s : state Q) :
  red s == 255 ->
  red (key_INCR_RED rgb_ratio s) == 255
  /\ blinks (output (key_INCR_RED rgb_ratio s)) = S (blinks (output s)).
Proof.
  intros Hr. unfold key_INCR_RED, increase. cbv zeta.
  cbn [red set_rgb]. qarith.
  assert (Hge : 255 <= red s * / rgb_ratio).
  { apply Qle_shift_div_l; [lra |].
    rewrite Hr.
    assert (255 * rgb_ratio <= 255 * 1) by (apply Qmult_le_l; lra).
    lra. }
  qtest; [lra |].
  qtest; [| lra].
  split.
  - unfold call_RGBtoHSB. destruct (RGBtoHSB _ _ _ _) as [[h sa] b].
    cbn. reflexivity.
  - rewrite output_call_RGBtoHSB. cbn [output set_variableHue].
    rewrite blinks_blink. reflexivity.
Qed.

(** DECR_RED with red at the floor: clamped, with a blink. *)
Lemma DECR_RED_at_floor (s : state Q) :
  red s == 0 ->
  red (key_DECR_RED rgb_ratio s) == 0
  /\ blinks (output (key_DECR_RED rgb_ratio s)) = S (blinks (output s)).
Proof.
  intros Hr. unfold key_DECR_RED, decrease. cbv zeta.
  cbn [red set_rgb]. qarith.
  assert (Hz : red s * rgb_ratio == 0) by (rewrite Hr; ring).
  qtest; [| lra].
  split.
  - unfold call_RGBtoHSB. destruct (RGBtoHSB _ _ _ _) as [[h sa] b].
    cbn. reflexivity.
  - rewrite output_call_RGBtoHSB. cbn [output set_variableHue].
    rewrite blinks_blink. reflexivity.
Qed.

(** BRIGHTEN with the brightness at the limit of the largest primary:
    clamped to the limit, with a blink. *)
Lemma BRIGHTEN_at_ceiling (s : state Q) :
  let cap := bright_cap (desaturate (sat s) (ramp_red (phase (hue s))))
                        (desaturate (sat s) (ramp_green (phase (hue s))))
                        (desaturate (sat s) (ramp_blue (phase (hue s)))) in
  cap <= bright s -> MIN_BRIGHT <= bright s ->
  bright (key_BRIGHTEN bright_ratio s) = cap
  /\ blinks (output (key_BRIGHTEN bright_ratio s)) = S (blinks (output s)).
Proof.
  intros cap Hcap Hmin. unfold key_BRIGHTEN. cbv zeta.
  assert (T : fltb (bright s) MIN_BRIGHT = false)
    by (apply Qltb_false; exact Hmin).
  rewrite T. cbn [hue sat bright set_hsb].
  set (s1 := set_hsb s (hue s) (sat s) (fdiv (bright s) bright_ratio)).
  pose proof (phase_range (hue s)) as Hx.
  pose proof (ramps_sum _ Hx) as Hsum.
  apply (desaturate_sum (sat s)) in Hsum.
  destruct (bright_cap_spec _ _ _ Hsum) as (Hm & Hcap0 & Hfull).
  destruct (fmax3_cases (desaturate (sat s) (ramp_red (phase (hue s))))
                        (desaturate (sat s) (ramp_green (phase (hue s))))
                        (desaturate (sat s) (ramp_blue (phase (hue s)))))
    as [Hwhich _]. cbv zeta in Hwhich.
  fold cap in Hcap0, Hfull.
  assert (Hk : limit_bright (fdiv (bright s) bright_ratio) cap = cap).
  { unfold limit_bright.
    assert (Hlt : cap < bright s / bright_ratio).
    { apply Qlt_shift_div_l; [lra |].
      apply Qlt_le_trans with (cap * 1); [apply Qmult_lt_l; lra | lra]. }
    apply Qltb_true in Hlt. cbn [fltb fdiv ArithQ]. rewrite Hlt.
    reflexivity. }
  assert (Hb : bright (call_HSBtoRGB s1) = cap).
  { rewrite bright_call_HSBtoRGB. exact Hk. }
  assert (Hrgb : (red (call_HSBtoRGB s1) =? MAX_RGB)%fl
                 || (green (call_HSBtoRGB s1) =? MAX_RGB)%fl
                 || (blue (call_HSBtoRGB s1) =? MAX_RGB)%fl = true).
  { unfold call_HSBtoRGB. rewrite HSBtoRGB_blocks. cbv zeta.
    cbn [hue sat bright red green blue set_hsb set_rgb s1].
    fold cap. rewrite Hk.
    cbn [feqb fmul fconst ArithQ]. unfold MAX_RGB. cbn [fconst ArithQ].
    change (inject_Z 3) with 3. change (inject_Z 255) with 255.
    destruct Hwhich as [E | [E | E]]; rewrite <- E;
      rewrite (Qeq_eq_bool _ _ Hfull); cbn [orb];
      rewrite ?orb_true_r; reflexivity. }
  rewrite Hrgb. split; [exact Hb |].
  rewrite blinks_blink, output_call_HSBtoRGB. reflexivity.
Qed.

(** DIM with the brightness at, or below, the floor MIN_BRIGHT: clamped to
    MIN_BRIGHT, without a blink. *)
Lemma DIM_at_floor (s : state Q) :
  0 <= bright s <= MIN_BRIGHT ->
  bright (key_DIM bright_ratio s) = MIN_BRIGHT
  /\ output (key_DIM bright_ratio s) = output s.
Proof.
  intros Hb. split; [| apply output_key_DIM].
  unfold key_DIM. cbv zeta.
  rewrite bright_call_HSBtoRGB. cbn [hue sat bright set_hsb].
  match goal with |- context [limit_bright ?b ?c] =>
    destruct (limit_bright_spec b c) as (_ & Hle & _);
    set (k := limit_bright b c) in * end.
  assert (Hlt : k < MIN_BRIGHT).
  { qarith.
    assert (bright s * bright_ratio < (1 * (1 # 3) * (1 # 255)) * 1).
    { destruct (Qlt_le_dec 0 (bright s)) as [Hp | Hz].
      - apply Qlt_le_trans with (bright s * 1);
          [apply Qmult_lt_l; lra | lra].
      - assert (Hz0 : bright s == 0) by lra.
        assert (bright s * bright_ratio == 0) by (rewrite Hz0; ring). lra. }
    lra. }
  apply Qltb_true in Hlt. cbn [fltb ArithQ]. rewrite Hlt. reflexivity.
Qed.
End Limits.

(** C7.  The DIM key at the floor of the brightness: from [setup()], 80
    presses of DIM bring the brightness to MIN_BRIGHT; one more press
    leaves it clamped at MIN_BRIGHT, and the output of the sketch holds no
    blink at all.  The sibling commands do blink at their limits
    ([DESATURATE_at_floor], [SATURATE_at_ceiling], [BRIGHTEN_at_ceiling],
    [INCR_RED_at_ceiling], [DECR_RED_at_floor]). *)
Theorem DIM_at_floor_no_blink :
  let s := fst (V1.run ratio_q ratio_q (presses V1.DIM 1000 80) V1.setup) in
  let s' := fst (V1.run ratio_q ratio_q (presses V1.DIM 81000 1) s) in
  V1.bright s = V1.MIN_BRIGHT
  /\ V1.bright s' = V1.MIN_BRIGHT
  /\ blinks (V1.output s') = 0%nat.
Proof. vm_compute. repeat split; reflexivity. Qed.

(** C9.  The step time has no ceiling: from [setup()], a press of the
    variable-hue key starts the variation and seven more presses double
    the step time from 100 to 12800, above MAX_STEP_TIME = 10000. *)
Theorem VAR_HUE_exceeds_ceiling :
  let s := fst (V1.run ratio_q ratio_q (presses V1.VAR_HUE 1000 8) V1.setup) in
  V1.variableHue s = true
  /\ V1.hueStepTime s = 12800%Z
  /\ (V1.MAX_STEP_TIME < V1.hueStepTime s)%Z.
Proof. vm_compute. repeat split; reflexivity. Qed.

(** The doubling wraps around: 30 doublings of 100 leave 0, below
    MIN_STEP_TIME. *)
Lemma VAR_HUE_wraps_to_zero :
  V1.hueStepTime
    (fst (V1.run ratio_q ratio_q (presses V1.VAR_HUE 1000 31) V1.setup))
  = 0%Z.
Proof. vm_compute. reflexivity. Qed.

(* ================================================================== *)
(** * The PWM interrupts of the v2.1 sketch                            *)
(* ================================================================== *)

Section PWM.
Import V2.
Context {F : Type} `{Arith F}.

Lemma counter_wraps c :
  (0 <= c <= 65535)%Z -> Z.land (u16 (c + 1)) 0x0007 = ((c + 1) mod 8)%Z.
Proof.
  intros Hc. change 0x0007%Z with (Z.ones 3).
  rewrite Z.land_ones by lia. change (2 ^ 3)%Z with 8%Z. unfold u16.
  destruct (Z.eq_dec c 65535) as [-> | Hne]; [reflexivity |].
  rewrite (Z.mod_small (c + 1) 65536) by lia. reflexivity.
Qed.

(** C8.  On a timer-overflow interrupt the sub-cycle counter of the timer
    advances modulo 8; if the new count is less than or equal to the coarse
    level [pwmCyclesON], the output-compare registers of the timer are set
    to the current targets of their channels (the [float] truncated to a
    byte); otherwise they are set to 0.  Timer 1 serves red and green,
    timer 2 serves blue.  The coarse level is taken in the non-negative
    range of [int]. *)
Theorem PWM_gating (p : pwm F) :
  (0 <= pwmCyclesON p <= 32767)%Z ->
  (0 <= pwmCounter1 p <= 65535)%Z -> (0 <= pwmCounter2 p <= 65535)%Z ->
  let p1 := TIMER1_OVF p in
  let p2 := TIMER2_OVF p in
  pwmCounter1 p1 = ((pwmCounter1 p + 1) mod 8)%Z
  /\ pwmCounter2 p2 = ((pwmCounter2 p + 1) mod 8)%Z
  /\ (if (pwmCounter1 p1 <=? pwmCyclesON p)%Z
      then OCR1A p1 = byte (ftrunc (red p))
           /\ OCR1B p1 = byte (ftrunc (green p))
      else OCR1A p1 = 0%Z /\ OCR1B p1 = 0%Z)
  /\ (if (pwmCounter2 p2 <=? pwmCyclesON p)%Z
      then OCR2A p2 = byte (ftrunc (blue p))
      else OCR2A p2 = 0%Z).
Proof.
  intros Hon Hc1 Hc2. cbv zeta.
  assert (Eon : int_to_unsigned (pwmCyclesON p) = pwmCyclesON p)
    by (apply Z.mod_small; lia).
  unfold TIMER1_OVF, TIMER2_OVF. cbv zeta.
  rewrite Eon, !counter_wraps by assumption.
  destruct ((pwmCounter1 p + 1) mod 8 <=? pwmCyclesON p)%Z eqn:E1;
  destruct ((pwmCounter2 p + 1) mod 8 <=? pwmCyclesON p)%Z eqn:E2;
  cbn [pwmCounter1 pwmCounter2 OCR1A OCR1B OCR2A]; rewrite ?E1, ?E2; auto.
Qed.

(** The comparison is unsigned: with a negative coarse level, as an erased
    EEPROM would load, no sub-cycle is gated off. *)
Lemma PWM_negative_level (p : pwm F) :
  (-32768 <= pwmCyclesON p < 0)%Z ->
  (0 <= pwmCounter1 p <= 65535)%Z ->
  OCR1A (TIMER1_OVF p) = byte (ftrunc (red p))
  /\ OCR1B (TIMER1_OVF p) = byte (ftrunc (green p)).
Proof.
  intros Hon Hc1. unfold TIMER1_OVF. cbv zeta.
  rewrite counter_wraps by assumption.
  assert (Eon : int_to_unsigned (pwmCyclesON p) = (pwmCyclesON p + 65536)%Z).
  { unfold int_to_unsigned, u16.
    rewrite <- (Z.mod_add _ 1 65536) by lia.
    apply Z.mod_small. lia. }
  pose proof (Z.mod_pos_bound (pwmCounter1 p + 1) 8 ltac:(lia)) as B.
  replace ((pwmCounter1 p + 1) mod 8
           <=? int_to_unsigned (pwmCyclesON p))%Z with true
    by (symmetry; rewrite Eon; lia).
  split; reflexivity.
Qed.
End PWM.

Lemma PWM_gating_witness :
  let p := V2.mkPwm 2 7 3 (200 # 1) (255 # 2) (7 # 3) 0 0 0 in
  let p1 := V2.TIMER1_OVF p in
  let p2 := V2.TIMER2_OVF p in
  V2.pwmCounter1 p1 = ((V2.pwmCounter1 p + 1) mod 8)%Z
  /\ V2.pwmCounter2 p2 = ((V2.pwmCounter2 p + 1) mod 8)%Z
  /\ (if (V2.pwmCounter1 p1 <=? V2.pwmCyclesON p)%Z
      then V2.OCR1A p1 = byte (ftrunc (V2.red p))
           /\ V2.OCR1B p1 = byte (ftrunc (V2.green p))
      else V2.OCR1A p1 = 0%Z /\ V2.OCR1B p1 = 0%Z)
  /\ (if (V2.pwmCounter2 p2 <=? V2.pwmCyclesON p)%Z
      then V2.OCR2A p2 = byte (ftrunc (V2.blue p))
      else V2.OCR2A p2 = 0%Z).
Proof.
  apply (PWM_gating (V2.mkPwm 2 7 3 (200 # 1) (255 # 2) (7 # 3) 0 0 0));
    cbn; split; discriminate.
Defined.

(** The same interrupt on concrete registers: sub-cycle 3 of level 3 is
    rendered, sub-cycle 0 follows sub-cycle 7, and the targets 200, 127.5
    and 7/3 are written as 200, 127 and 2. *)
Lemma PWM_gating_run :
  let p := V2.mkPwm 2 7 3 (200 # 1) (255 # 2) (7 # 3) 0 0 0 in
  V2.pwmCounter1 (V2.TIMER1_OVF p) = 3%Z
  /\ V2.OCR1A (V2.TIMER1_OVF p) = 200%Z
  /\ V2.OCR1B (V2.TIMER1_OVF p) = 127%Z
  /\ V2.pwmCounter2 (V2.TIMER2_OVF p) = 0%Z
  /\ V2.OCR2A (V2.TIMER2_OVF p) = 2%Z
  /\ V2.OCR1A (V2.TIMER1_OVF (V2.mkPwm 3 7 3 (200 # 1) (255 # 2) (7 # 3) 9 9 9))
     = 0%Z.
Proof. vm_compute. repeat split; reflexivity. Qed.

(* ================================================================== *)
(** * The hue stays in the unit interval                               *)
(* ================================================================== *)

Section Invariant.
Import V1.
Variables bright_ratio rgb_ratio : Q.
Hypothesis bright_ratio_pos : 0 < bright_ratio.
Hypothesis rgb_ratio_pos : 0 < rgb_ratio.

Lemma Inv_set_hsb (s : state Q) h sa b :
  Inv s -> 0 <= h <= 1 -> 0 <= sa <= 1 -> 0 <= b -> Inv (set_hsb s h sa b).
Proof. unfold Inv; cbn. tauto. Qed.

Lemma Inv_set_rgb (s : state Q) r g b :
  Inv s -> 0 <= r -> 0 <= g -> 0 <= b -> Inv (set_rgb s r g b).
Proof. unfold Inv; cbn. tauto. Qed.

Lemma Inv_set_hueStepTimer (s : state Q) t :
  Inv s -> Inv (set_hueStepTimer s t).
Proof. exact (fun H => H). Qed.

Lemma Inv_set_variableHue (s : state Q) v :
  Inv s -> Inv (set_variableHue s v).
Proof. exact (fun H => H). Qed.

Lemma Inv_DisplayRGB (s : state Q) : Inv s -> Inv (DisplayRGB s).
Proof. exact (fun H => H). Qed.

Lemma Inv_blink (s : state Q) : Inv s -> Inv (blink s).
Proof. exact (fun H => H). Qed.

Lemma Inv_call_HSBtoRGB (s : state Q) : Inv s -> Inv (call_HSBtoRGB s).
Proof.
  intros (Hh & Hs & Hb & _). unfold call_HSBtoRGB.
  pose proof (HSBtoRGB_nonneg (hue s) (sat s) (bright s) Hs Hb) as Hn.
  destruct (HSBtoRGB (hue s) (sat s) (bright s)) as [[[b r] g] bl].
  unfold Inv; cbn. tauto.
Qed.

Lemma Inv_call_RGBtoHSB (s : state Q) : Inv s -> Inv (call_RGBtoHSB s).
Proof.
  intros (Hh & _ & _ & Hr & Hg & Hb). unfold call_RGBtoHSB.
  pose proof (RGBtoHSB_range (hue s) (red s) (green s) (blue s) Hh Hr Hg Hb)
    as Hn.
  destruct (RGBtoHSB (hue s) (red s) (green s) (blue s)) as [[h sa] b].
  unfold Inv; cbn. tauto.
Qed.

(** With the hue in [0, 1] the step forward is a single step, or the
    return to 0 of a hue that would pass 1. *)
Lemma hue_forward_unit (h : Q) :
  0 <= h <= 1 ->
  (h + (1 # 400) <= 1 /\ hue_forward h == h + (1 # 400))
  \/ (1 < h + (1 # 400) /\ hue_forward h == 0).
Proof. intros Hh. unfold hue_forward. qarith. qtests; lra. Qed.

(** With the hue in [0, 1] the step back is a single step, or the return
    to 1 of a hue that would pass 0. *)
Lemma hue_backward_unit (h : Q) :
  0 <= h <= 1 ->
  (0 <= h - (1 # 400) /\ hue_backward h == h - (1 # 400))
  \/ (h - (1 # 400) < 0 /\ hue_backward h == 1).
Proof.
  intros Hh. unfold hue_backward.
  change (Z.quot 1 HUE_STEPS) with 0%Z. qarith. qtests; lra.
Qed.

Lemma Inv_key_INIT s : Inv s -> Inv (key_INIT s).
Proof.
  intros Hi. unfold key_INIT. cbv zeta.
  apply Inv_set_hueStepTimer, Inv_call_HSBtoRGB, Inv_set_hsb; auto;
    qarith; lra.
Qed.

Lemma Inv_key_VAR_HUE s : Inv s -> Inv (key_VAR_HUE s).
Proof. intros Hi. unfold key_VAR_HUE. destruct (variableHue s); exact Hi. Qed.

Lemma Inv_step_forward s :
  Inv s ->
  Inv (call_HSBtoRGB (set_hsb s (hue_forward (hue s)) (sat s) (bright s))).
Proof.
  intros Hi. pose proof Hi as (Hh & Hs & Hb & _).
  apply Inv_call_HSBtoRGB, Inv_set_hsb; auto.
  destruct (hue_forward_unit _ Hh); lra.
Qed.

Lemma Inv_key_NEXT_HUE s : Inv s -> Inv (key_NEXT_HUE s).
Proof. apply Inv_step_forward. Qed.

Lemma Inv_key_PREV_HUE s : Inv s -> Inv (key_PREV_HUE s).
Proof.
  intros Hi. pose proof Hi as (Hh & Hs & Hb & _).
  apply Inv_call_HSBtoRGB, Inv_set_hsb; auto.
  destruct (hue_backward_unit _ Hh); lra.
Qed.

Lemma Inv_key_DESATURATE s : Inv s -> Inv (key_DESATURATE s).
Proof.
  intros Hi. pose proof Hi as (Hh & Hs & Hb & _).
  unfold key_DESATURATE. cbv zeta. apply Inv_call_HSBtoRGB.
  qarith. qtest; [apply Inv_blink |]; apply Inv_set_hsb; auto; lra.
Qed.

Lemma Inv_key_SATURATE s : Inv s -> Inv (key_SATURATE s).
Proof.
  intros Hi. pose proof Hi as (Hh & Hs & Hb & _).
  unfold key_SATURATE. cbv zeta. apply Inv_call_HSBtoRGB.
  qarith. qtest; [apply Inv_blink |]; apply Inv_set_hsb; auto; lra.
Qed.

Lemma Inv_key_PURE s : Inv s -> Inv (key_PURE s).
Proof.
  intros Hi. pose proof Hi as (Hh & Hs & Hb & _).
  unfold key_PURE. cbv zeta.
  apply Inv_call_HSBtoRGB, Inv_set_variableHue, Inv_set_hsb; auto;
    qarith; lra.
Qed.

Lemma Inv_key_DIM s : Inv s -> Inv (key_DIM bright_ratio s).
Proof.
  intros Hi. pose proof Hi as (Hh & Hs & Hb & _).
  unfold key_DIM. cbv zeta.
  assert (Hi' : Inv (call_HSBtoRGB
                       (set_hsb s (hue s) (sat s)
                          (fmul (bright s) bright_ratio)))).
  { apply Inv_call_HSBtoRGB, Inv_set_hsb; auto. qarith.
    apply Qmult_le_0_compat; lra. }
  destruct (fltb _ _); [| exact Hi'].
  pose proof Hi' as (Hh' & Hs' & _).
  apply Inv_set_hsb; auto. qarith. lra.
Qed.

Lemma Inv_key_BRIGHTEN s : Inv s -> Inv (key_BRIGHTEN bright_ratio s).
Proof.
  intros Hi. unfold key_BRIGHTEN. cbv zeta.
  assert (Hi1 : Inv (if fltb (bright s) MIN_BRIGHT
                     then set_hsb s (hue s) (sat s) MIN_BRIGHT else s)).
  { destruct (fltb _ _); [| exact Hi].
    pose proof Hi as (Hh & Hs & Hb & _).
    apply Inv_set_hsb; auto. qarith. lra. }
  set (s1 := if fltb (bright s) MIN_BRIGHT then _ else s) in *.
  pose proof Hi1 as (Hh & Hs & Hb & _).
  assert (Hi2 : Inv (call_HSBtoRGB
                       (set_hsb s1 (hue s1) (sat s1)
                          (fdiv (bright s1) bright_ratio)))).
  { apply Inv_call_HSBtoRGB, Inv_set_hsb; auto. qarith.
    apply Qmult_le_0_compat; [lra |].
    apply Qlt_le_weak, Qinv_lt_0_compat; lra. }
  destruct (_ || _); [apply Inv_blink |]; exact Hi2.
Qed.

Lemma increase_nonneg c : 0 <= c -> 0 <= increase rgb_ratio c.
Proof.
  intros Hc. unfold increase. qarith. qtest; [lra |].
  apply Qmult_le_0_compat; [lra |].
  apply Qlt_le_weak, Qinv_lt_0_compat; lra.
Qed.

Lemma decrease_nonneg c : 0 <= c -> 0 <= decrease rgb_ratio c.
Proof.
  intros Hc. unfold decrease. qarith. apply Qmult_le_0_compat; lra.
Qed.

Ltac inv_rgb_edit :=
  let Hi := fresh "Hi" in
  intros Hi; pose proof Hi as (_ & _ & _ & ? & ? & ?);
  cbv zeta; apply Inv_call_RGBtoHSB, Inv_set_variableHue;
  match goal with
  | |- Inv (if ?c then blink (set_rgb ?s1 _ _ _) else _) =>
      let Hi1 := fresh "Hi" in
      assert (Hi1 : Inv s1)
        by (apply Inv_set_rgb; auto using increase_nonneg, decrease_nonneg);
      destruct c; [| exact Hi1];
      apply Inv_blink;
      pose proof Hi1 as (_ & _ & _ & ? & ? & ?);
      apply Inv_set_rgb; trivial; qarith; lra
  end.

Lemma Inv_key_INCR_RED s : Inv s -> Inv (key_INCR_RED rgb_ratio s).
Proof. unfold key_INCR_RED. inv_rgb_edit. Qed.
Lemma Inv_key_INCR_GREEN s : Inv s -> Inv (key_INCR_GREEN rgb_ratio s).
Proof. unfold key_INCR_GREEN. inv_rgb_edit. Qed.
Lemma Inv_key_INCR_BLUE s : Inv s -> Inv (key_INCR_BLUE rgb_ratio s).
Proof. unfold key_INCR_BLUE. inv_rgb_edit. Qed.
Lemma Inv_key_DECR_RED s : Inv s -> Inv (key_DECR_RED rgb_ratio s).
Proof. unfold key_DECR_RED. inv_rgb_edit. Qed.
Lemma Inv_key_DECR_GREEN s : Inv s -> Inv (key_DECR_GREEN rgb_ratio s).
Proof. unfold key_DECR_GREEN. inv_rgb_edit. Qed.
Lemma Inv_key_DECR_BLUE s : Inv s -> Inv (key_DECR_BLUE rgb_ratio s).
Proof. unfold key_DECR_BLUE. inv_rgb_edit. Qed.

Lemma Inv_key_reference r g b s :
  (0 <= r)%Z -> (0 <= g)%Z -> (0 <= b)%Z ->
  Inv s -> Inv (key_reference r g b s).
Proof.
  intros Hr Hg Hb Hi. unfold key_reference. cbv zeta.
  apply Inv_call_RGBtoHSB, Inv_set_variableHue, Inv_set_rgb; auto;
    cbn [fconst ArithQ]; rewrite <- (Zle_Qle 0); assumption.
Qed.

Lemma Inv_handle_key key s :
  Inv s -> Inv (handle_key bright_ratio rgb_ratio key s).
Proof.
  intros Hi. unfold V1.handle_key.
  repeat match goal with
         | |- Inv (if ?c then _ else _) => destruct c
         end;
  auto using Inv_key_INIT, Inv_key_VAR_HUE, Inv_key_NEXT_HUE,
    Inv_key_PREV_HUE, Inv_key_DESATURATE, Inv_key_SATURATE, Inv_key_PURE,
    Inv_key_DIM, Inv_key_BRIGHTEN, Inv_key_INCR_RED, Inv_key_INCR_GREEN,
    Inv_key_INCR_BLUE, Inv_key_DECR_RED, Inv_key_DECR_GREEN,
    Inv_key_DECR_BLUE;
  apply Inv_key_reference; auto; lia.
Qed.

Lemma Inv_animate now s : Inv s -> Inv (animate now s).
Proof.
  intros Hi. unfold animate. cbv zeta.
  destruct (_ >? _)%Z; [| exact Hi].
  destruct (variableHue _); [| exact Hi].
  apply Inv_DisplayRGB. apply (Inv_step_forward (set_hueStepTimer s now)).
  exact Hi.
Qed.

Lemma Inv_loop now fr s : Inv s -> Inv (loop bright_ratio rgb_ratio now fr s).
Proof.
  intros Hi. unfold V1.loop, loop_fired, command.
  assert (Hi0 : Inv (idle_reset now s)).
  { unfold idle_reset. destruct (_ >? _)%Z; exact Hi. }
  destruct fr as [fr |]; cbn [fst].
  - assert (Hi1 : Inv (fst (repeat_logic now fr (idle_reset now s)))).
    { unfold repeat_logic. cbv zeta.
      destruct (_ =? _)%Z; [destruct (_ >? _)%Z |]; exact Hi0. }
    destruct (repeat_logic now fr (idle_reset now s)) as [s1 v].
    cbn [fst] in Hi1.
    destruct (valid_key fr v); cbn [fst]; apply Inv_animate; auto.
    apply Inv_DisplayRGB, Inv_handle_key. exact Hi1.
  - apply Inv_animate. exact Hi0.
Qed.

Lemma Inv_setup : Inv setup.
Proof. vm_compute. repeat split; discriminate. Qed.

(** The hue, the saturation, the brightness and the channels keep their
    ranges in every state the sketch can be in. *)
Lemma reachable_Inv s : reachable bright_ratio rgb_ratio s -> Inv s.
Proof.
  induction 1; [exact Inv_setup | apply Inv_loop; assumption].
Qed.

(** C10 (amended).  In exact arithmetic the hue of the 2017 sketch lies
    within [0, 1] in every state, so the test of the doubled step never
    holds, and every NextHue keypress, every PrevHue keypress and every
    tick of the variable-hue animation moves the hue by exactly
    1/HUE_STEPS = 1/400 -- except at the end of the cycle: a hue that
    NextHue or the tick would carry above 1 is set to 0, and a hue that
    PrevHue would carry below 0 is set to 1.  (In single precision
    RGBtoHSB can leave a hue just above 1, and the doubled step is then
    taken: [doubled_step_reached_b32] below.) *)
Theorem hue_steps_single (s : state Q) :
  reachable bright_ratio rgb_ratio s ->
  0 <= hue s <= 1
  /\ doubled_step (hue s) = false
  /\ ((hue s + (1 # 400) <= 1 /\ hue (key_NEXT_HUE s) == hue s + (1 # 400))
      \/ (1 < hue s + (1 # 400) /\ hue (key_NEXT_HUE s) == 0))
  /\ ((0 <= hue s - (1 # 400) /\ hue (key_PREV_HUE s) == hue s - (1 # 400))
      \/ (hue s - (1 # 400) < 0 /\ hue (key_PREV_HUE s) == 1))
  /\ (forall now, variableHue s = true ->
        (100 < u32 (now - hueStepTimer s))%Z ->
        hue (animate now s) = hue (key_NEXT_HUE s)).
Proof.
  intros Hr. apply reachable_Inv in Hr.
  destruct Hr as (Hh & _).
  split; [exact Hh |]. split; [| split; [| split]].
  - unfold doubled_step.
    replace (Qltb 1 (hue s)) with false; [reflexivity |].
    symmetry. apply Qltb_false. lra.
  - unfold key_NEXT_HUE. rewrite hue_call_HSBtoRGB. cbn [hue set_hsb].
    apply hue_forward_unit. exact Hh.
  - unfold key_PREV_HUE. rewrite hue_call_HSBtoRGB. cbn [hue set_hsb].
    apply hue_backward_unit. exact Hh.
  - intros now Hv Ht. unfold animate, key_NEXT_HUE.
    replace (u32 (now - hueStepTimer s) >? 100)%Z with true
      by (symmetry; lia).
    cbv zeta. cbn [variableHue set_hueStepTimer]. rewrite Hv.
    cbn [hue DisplayRGB emit]. rewrite !hue_call_HSBtoRGB. reflexivity.
Qed.
End Invariant.

(** A PrevHue keypress at hue 0, the state [setup()] leaves, sets the hue
    to 1: blue again, a whole cycle away and not one step back.  The
    statement of C10 fails there. *)
Lemma PREV_HUE_at_blue :
  V1.hue (F:=Q) V1.setup == 0
  /\ V1.hue (V1.key_PREV_HUE (F:=Q) V1.setup) == 1
  /\ ~ steps_back (V1.hue (F:=Q) V1.setup)
                  (V1.hue (V1.key_PREV_HUE (F:=Q) V1.setup)).
Proof.
  vm_compute. split; [reflexivity | split; [reflexivity |]].
  intros [E | E]; discriminate E.
Qed.

(** A NextHue keypress at hue 1 sets the hue to 0: no step forward
    either. *)
Lemma NEXT_HUE_at_end :
  let s := V1.key_PREV_HUE (F:=Q) V1.setup in
  V1.hue (V1.key_NEXT_HUE s) == 0
  /\ ~ steps_forward (V1.hue s) (V1.hue (V1.key_NEXT_HUE s)).
Proof.
  vm_compute. split; [reflexivity |].
  intros [E | E]; discriminate E.
Qed.

(** In single precision the doubled step can be reached: after the six
    keys [keys_past_one], pressed from the state [setup()] leaves,
    RGBtoHSB has left the hue 1.00000012 (the first value above 1), the
    test [hue > 1.0 && hue < 2.0] holds, and PrevHue takes 2/400 off the
    hue. *)
Lemma doubled_step_reached_b32 :
  let s := fold_left (fun s key => V1.handle_key ratio_b32 ratio_b32 key s)
             keys_past_one (V1.setup (F:=b32)) in
  V1.hue s = S754_finite false 8388609 (-23)
  /\ fltb (fconst 1) (V1.hue s) && fltb (V1.hue s) (fconst 2) = true
  /\ V1.hue (V1.key_PREV_HUE s)
     = fsub (V1.hue s) (fmul (fdec 1 400) (fconst 2)).
Proof. vm_compute. repeat split; reflexivity. Qed.

Lemma hue_steps_single_witness :
  let s := V1.loop ratio_q ratio_q 1000 (Some (press V1.NEXT_HUE)) V1.setup in
  0 <= V1.hue s <= 1
  /\ doubled_step (V1.hue s) = false
  /\ ((V1.hue s + (1 # 400) <= 1
       /\ V1.hue (V1.key_NEXT_HUE s) == V1.hue s + (1 # 400))
      \/ (1 < V1.hue s + (1 # 400) /\ V1.hue (V1.key_NEXT_HUE s) == 0))
  /\ ((0 <= V1.hue s - (1 # 400)
       /\ V1.hue (V1.key_PREV_HUE s) == V1.hue s - (1 # 400))
      \/ (V1.hue s - (1 # 400) < 0 /\ V1.hue (V1.key_PREV_HUE s) == 1))
  /\ (forall now, V1.variableHue s = true ->
        (100 < u32 (now - V1.hueStepTimer s))%Z ->
        V1.hue (V1.animate now s) = V1.hue (V1.key_NEXT_HUE s)).
Proof.
  apply (hue_steps_single ratio_q ratio_q).
  - reflexivity.
  - reflexivity.
  - apply reach_loop, reach_setup.
Defined.

(* ================================================================== *)
(** * The concrete runs again, in single precision                     *)
(* ================================================================== *)

(** The three inputs at which statements above fail give the same values
    in single precision as in exact arithmetic: pure blue is
    (0, 0, 255); the brightness 1/2 asked of pure blue comes back as 1/3;
    PrevHue at hue 0 gives hue 1, and NextHue then gives hue 0. *)
Lemma concrete_runs_b32 :
  V1.HSBtoRGB (F:=b32) (fconst 0) (fconst 1) (fdec 1 3)
  = (fdec 1 3, fconst 0, fconst 0, fconst 255)
  /\ (let '(b', r, g, bl) :=
        V1.HSBtoRGB (F:=b32) (fconst 0) (fconst 1) (fdec 1 2) in
      V1.RGBtoHSB (fconst 0) r g bl)
     = (fconst 0, fconst 1, fdec 1 3)
  /\ V1.hue (V1.key_PREV_HUE (F:=b32) V1.setup) = fconst 1
  /\ V1.hue (V1.key_NEXT_HUE (V1.key_PREV_HUE (F:=b32) V1.setup))
     = fconst 0.
Proof. vm_compute. repeat split; reflexivity. Qed.

(* ================================================================== *)
(** * HSBtoRGB at the edges of its domain                              *)
(* ================================================================== *)

(** The tests and the operations of [HSBtoRGB] carry equal rationals to
    equal rationals. *)
Lemma fmax_compat (a b a' b' : Q) :
  a == a' -> b == b' -> fmax a b == fmax a' b'.
Proof.
  intros Ha Hb.
  destruct (Qfmax_case a b) as [[-> E] | [-> E]];
  destruct (Qfmax_case a' b') as [[-> E'] | [-> E']]; lra.
Qed.

Lemma limit_bright_compat (b cap b' cap' : Q) :
  b == b' -> cap == cap' -> limit_bright b cap == limit_bright b' cap'.
Proof.
  intros Hb Hc.
  destruct (limit_bright_spec b cap) as (L1 & L2 & L3).
  destruct (limit_bright_spec b' cap') as (L1' & L2' & L3').
  set (k := limit_bright b cap) in *. set (k' := limit_bright b' cap') in *.
  destruct L3 as [E | [E E0]], L3' as [E' | [E' E0']];
    rewrite E in *; rewrite E' in *; lra.
Qed.

Lemma phase_compat (h h' : Q) : h == h' -> phase h == phase h'.
Proof. intros Hh. unfold phase. qarith. qtests; lra. Qed.

Lemma ramps_compat (x x' : Q) :
  x == x' ->
  ramp_red x == ramp_red x' /\ ramp_green x == ramp_green x'
  /\ ramp_blue x == ramp_blue x'.
Proof.
  intros Hx. unfold ramp_red, ramp_green, ramp_blue. qarith.
  repeat split; qtests; lra.
Qed.

(** The blocks of [HSBtoRGB] after the ramps carry equal rationals to
    equal rationals. *)
Lemma HSBtoRGB_tail_compat (s b pr pg pb s' b' pr' pg' pb' : Q) :
  s == s' -> b == b' -> pr == pr' -> pg == pg' -> pb == pb' ->
  let r := desaturate s pr in
  let g := desaturate s pg in
  let bl := desaturate s pb in
  let k := limit_bright b (bright_cap r g bl) in
  let r' := desaturate s' pr' in
  let g' := desaturate s' pg' in
  let bl' := desaturate s' pb' in
  let k' := limit_bright b' (bright_cap r' g' bl') in
  k == k' /\ r * (k * 3) == r' * (k' * 3)
  /\ g * (k * 3) == g' * (k' * 3) /\ bl * (k * 3) == bl' * (k' * 3).
Proof.
  intros Hs Hb Hr Hg Hbl. cbv zeta.
  assert (Er : desaturate s pr == desaturate s' pr')
    by (rewrite !desaturate_eq, Hs, Hr; reflexivity).
  assert (Eg : desaturate s pg == desaturate s' pg')
    by (rewrite !desaturate_eq, Hs, Hg; reflexivity).
  assert (Eb : desaturate s pb == desaturate s' pb')
    by (rewrite !desaturate_eq, Hs, Hbl; reflexivity).
  set (r := desaturate s pr) in *. set (g := desaturate s pg) in *.
  set (bl := desaturate s pb) in *.
  set (r' := desaturate s' pr') in *. set (g' := desaturate s' pg') in *.
  set (bl' := desaturate s' pb') in *.
  assert (Em : fmax r (fmax g bl) == fmax r' (fmax g' bl'))
    by (apply fmax_compat; [| apply fmax_compat]; assumption).
  assert (Ec : bright_cap r g bl == bright_cap r' g' bl').
  { unfold bright_cap. qarith. rewrite Em. reflexivity. }
  pose proof (limit_bright_compat _ _ _ _ Hb Ec) as Ek.
  clearbody r g bl r' g' bl'.
  set (k := limit_bright b _) in *. set (k' := limit_bright b' _) in *.
  clearbody k k'.
  split; [exact Ek | split; [| split]].
  - rewrite Er, Ek. reflexivity.
  - rewrite Eg, Ek. reflexivity.
  - rewrite Eb, Ek. reflexivity.
Qed.

(** X8.  In exact arithmetic, at saturation 0 the hue plays no part:
    whatever the hue, HSBtoRGB gives three equal channels, each 255 times
    the brightness it leaves, and the brightness it leaves is [bright] up
    to 1, and 1 above ("R=G=B at sat = 0"; the brightness of a gray is
    limited to 1). *)
Theorem HSBtoRGB_gray (h b : Q) :
  let '(b', r, g, bl) := V1.HSBtoRGB h 0 b in
  r == g /\ g == bl /\ r == 255 * b'
  /\ (b <= 1 -> b' = b) /\ (1 < b -> b' == 1).
Proof.
  rewrite HSBtoRGB_blocks. cbv zeta.
  change (@fconst Q ArithQ 0) with 0.
  assert (Er : desaturate 0 (ramp_red (phase h)) == 85)
    by (rewrite desaturate_eq; ring).
  assert (Eg : desaturate 0 (ramp_green (phase h)) == 85)
    by (rewrite desaturate_eq; ring).
  assert (Eb : desaturate 0 (ramp_blue (phase h)) == 85)
    by (rewrite desaturate_eq; ring).
  set (dr := desaturate 0 (ramp_red (phase h))) in *.
  set (dg := desaturate 0 (ramp_green (phase h))) in *.
  set (db := desaturate 0 (ramp_blue (phase h))) in *.
  assert (Hsum : dr + dg + db == 255) by lra.
  destruct (bright_cap_spec _ _ _ Hsum) as (Hm & Hcap & Hfull).
  destruct (fmax3_cases dr dg db) as [Hwhich _]. cbv zeta in *.
  set (m := fmax dr (fmax dg db)) in *.
  assert (Hm85 : m == 85) by (destruct Hwhich as [-> | [-> | ->]]; lra).
  set (cap := bright_cap dr dg db) in *.
  assert (Hcap1 : cap == 1).
  { rewrite Hm85 in Hfull. lra. }
  destruct (limit_bright_spec b cap) as (Hle & Hle' & Hk).
  set (k := limit_bright b cap) in *.
  qarith.
  split; [| split; [| split; [| split]]].
  - rewrite Er, Eg. reflexivity.
  - rewrite Eg, Eb. reflexivity.
  - rewrite Er. ring.
  - intros Hb. destruct Hk as [Hk | [_ Hk]]; [exact Hk | lra].
  - intros Hb. destruct Hk as [Hk | [Hk _]]; [| rewrite Hk; exact Hcap1].
    rewrite Hk in Hle. lra.
Qed.

(** X9.  The hue circle is closed and the hue is validated: a negative
    hue is rendered as hue 0, a hue above 1 as hue 1, and hue 1 is the
    colour of hue 0 (blue), for every saturation and brightness. *)
Theorem HSBtoRGB_hue_clamped (h s b : Q) :
  (h < 0 -> V1.HSBtoRGB h s b = V1.HSBtoRGB 0 s b)
  /\ (1 < h -> V1.HSBtoRGB h s b = V1.HSBtoRGB 1 s b)
  /\ (let '(b0, r0, g0, bl0) := V1.HSBtoRGB 0 s b in
      let '(b1, r1, g1, bl1) := V1.HSBtoRGB 1 s b in
      b1 == b0 /\ r1 == r0 /\ g1 == g0 /\ bl1 == bl0).
Proof.
  split; [| split].
  - intros Hh. rewrite !HSBtoRGB_blocks.
    assert (E : phase h = phase 0).
    { unfold phase. qarith. apply Qltb_true in Hh. rewrite Hh. reflexivity. }
    rewrite E. reflexivity.
  - intros Hh. rewrite !HSBtoRGB_blocks.
    assert (E : phase h = phase 1).
    { unfold phase. qarith. 
      replace (Qltb h 0) with false by (symmetry; apply Qltb_false; lra).
      apply Qltb_true in Hh. rewrite Hh. reflexivity. }
    rewrite E. reflexivity.
  - rewrite !HSBtoRGB_blocks. cbv zeta.
    pose proof (ramps_cases (phase 0) (phase_range 0)) as C0.
    pose proof (ramps_cases (phase 1) (phase_range 1)) as C1.
    pose proof (phase_unit 0 ltac:(lra)) as P0.
    pose proof (phase_unit 1 ltac:(lra)) as P1.
    assert (Er : ramp_red (phase 1) == ramp_red (phase 0))
      by (destruct C0 as [C0 | [C0 | C0]], C1 as [C1 | [C1 | C1]]; lra).
    assert (Eg : ramp_green (phase 1) == ramp_green (phase 0))
      by (destruct C0 as [C0 | [C0 | C0]], C1 as [C1 | [C1 | C1]]; lra).
    assert (Eb : ramp_blue (phase 1) == ramp_blue (phase 0))
      by (destruct C0 as [C0 | [C0 | C0]], C1 as [C1 | [C1 | C1]]; lra).
    clear C0 C1 P0 P1.
    pose proof (HSBtoRGB_tail_compat s b _ _ _ s b _ _ _
                  ltac:(reflexivity) ltac:(reflexivity) Er Eg Eb) as Ht.
    cbv zeta in Ht. exact Ht.
Qed.

(* ================================================================== *)
(** * From RGB to HSB and back                                         *)
(* ================================================================== *)

(** The saturated triple that [remove_lowest] recovers from a normalized
    triple. *)
Lemma remove_lowest_spec (s' nr ng nb : Q) :
  0 <= nr -> 0 <= ng -> 0 <= nb -> nr + ng + nb == 255 ->
  s' == saturation nr ng nb -> 0 < s' ->
  let m := fmin nr (fmin ng nb) in
  let '(pr, pg, pb) := remove_lowest s' nr ng nb in
  s' * pr == nr - m /\ s' * pg == ng - m /\ s' * pb == nb - m
  /\ 85 * (1 - s') == m
  /\ 0 <= pr <= 255 /\ 0 <= pg <= 255 /\ 0 <= pb <= 255
  /\ (pr == 0 \/ pg == 0 \/ pb == 0)
  /\ pr + pg + pb == 255.
Proof.
  intros Hr Hg Hb Hsum Es Hs. cbv zeta.
  pose proof (remove_lowest_range s' nr ng nb Hr Hg Hb Hsum Es Hs) as Hrange.
  rewrite saturation_eq in Es.
  destruct (fmin3_cases nr ng nb) as [Hw (Lr & Lg & Lb)]. cbv zeta in *.
  set (m := fmin nr (fmin ng nb)) in *.
  assert (Rs : forall c, s' * resaturate s' c == c - m).
  { intros c. rewrite resaturate_eq. field_simplify_eq; lra. }
  pose proof (Rs nr) as Rr. pose proof (Rs ng) as Rg. pose proof (Rs nb) as Rb.
  assert (Z0 : s' * 0 == 0) by ring.
  revert Hrange. unfold remove_lowest. qarith.
  destruct (Qfmin_case ng nb) as [[-> E1] | [-> E1]];
  destruct (Qfmin_case nr nb) as [[-> E2] | [-> E2]];
  destruct (Qfmin_case ng nr) as [[-> E3] | [-> E3]];
  qtests; try (exfalso; lra); intros (Pr & Pg & Pb);
  (assert (Em : m == nr \/ m == ng \/ m == nb)
     by (destruct Hw as [-> | [-> | ->]]; auto with qarith));
  repeat (split; [lra |]).
  all: apply (Qmult_inj_l _ _ s'); [lra |];
    destruct Em as [Em | [Em | Em]]; lra.
Qed.

(** The ramps undo their reversal: a saturated triple is the value of the
    three ramps at the phase that [reverse_ramps] derives from it. *)
Lemma ramps_reverse_ramps (h0 pr pg pb : Q) :
  0 <= pr -> 0 <= pg -> 0 <= pb ->
  pr == 0 \/ pg == 0 \/ pb == 0 -> pr + pg + pb == 255 ->
  let x := reverse_ramps h0 pr pg pb in
  0 <= x <= 3
  /\ ramp_red x == pr /\ ramp_green x == pg /\ ramp_blue x == pb.
Proof.
  intros Hr Hg Hb Hz Hsum. cbv zeta.
  assert (Hx : 0 <= reverse_ramps h0 pr pg pb <= 3
               /\ ((reverse_ramps h0 pr pg pb <= 1
                    /\ pr == 255 * reverse_ramps h0 pr pg pb /\ pg == 0)
                   \/ (1 < reverse_ramps h0 pr pg pb <= 2
                       /\ pg == 255 * (reverse_ramps h0 pr pg pb - 1)
                       /\ pb == 0)
                   \/ (2 < reverse_ramps h0 pr pg pb
                       /\ pb == 255 * (reverse_ramps h0 pr pg pb - 2)
                       /\ pr == 0))).
  { unfold reverse_ramps. qarith.
    destruct (Qfmax_case pg pb) as [[-> E1] | [-> E1]];
    destruct (Qfmax_case pr pb) as [[-> E2] | [-> E2]];
    destruct (Qfmax_case pg pr) as [[-> E3] | [-> E3]];
    try (exfalso; lra);
    repeat qsplit;
    (split; [lra |]);
    destruct Hz as [Hz | [Hz | Hz]];
    destruct (Qlt_le_dec 0 pr), (Qlt_le_dec 0 pg), (Qlt_le_dec 0 pb);
    try (exfalso; lra);
    first [left; lra | right; left; lra | right; right; lra]. }
  set (x := reverse_ramps h0 pr pg pb) in *.
  destruct Hx as (Hx3 & Hx).
  split; [exact Hx3 |].
  destruct (ramps_cases x Hx3) as [C | [C | C]];
    destruct Hx as [X | [X | X]]; lra.
Qed.


Lemma normalize_rescaled (r g b : Q) :
  0 <= r -> 0 <= g -> 0 <= b ->
  let br := (r + g + b) / 255 / 3 in
  let '(nr, ng, nb) := normalize r g b in
  nr * (br * 3) == r /\ ng * (br * 3) == g /\ nb * (br * 3) == b.
Proof.
  intros Hr Hg Hb. cbv zeta. unfold normalize. qarith. qtest.
  - repeat split; field; lra.
  - assert (Zr : r == 0) by lra. assert (Zg : g == 0) by lra.
    assert (Zb : b == 0) by lra.
    rewrite Zr, Zg, Zb. repeat split; reflexivity.
Qed.

(** X1.  An RGB edit is not lost in the conversion: for channels within
    [0, 255], RGBtoHSB followed by HSBtoRGB gives the three channels back,
    and HSBtoRGB leaves the brightness that RGBtoHSB computed, whatever
    hue the caller of RGBtoHSB held (it is kept at grays and at black). *)
Theorem RGBtoHSB_HSBtoRGB (h0 r g b : Q) :
  0 <= r <= 255 -> 0 <= g <= 255 -> 0 <= b <= 255 ->
  let '(h, s, br) := V1.RGBtoHSB h0 r g b in
  let '(br', r', g', b') := V1.HSBtoRGB h s br in
  r' == r /\ g' == g /\ b' == b /\ br' = br.
Proof.
  intros Hr Hg Hb. rewrite RGBtoHSB_blocks. cbv zeta.
  pose proof (normalize_nonneg r g b (proj1 Hr) (proj1 Hg) (proj1 Hb)) as Hn.
  pose proof (normalize_rescaled r g b (proj1 Hr) (proj1 Hg) (proj1 Hb)) as Hid.
  cbv zeta in Hid.
  destruct (normalize r g b) as [[nr ng] nb].
  destruct Hn as (Nr & Ng & Nb & Nsum).
  destruct Hid as (Ir & Ig & Ib).
  assert (Nsum' : nr + ng + nb == 255 \/ (nr == 0 /\ ng == 0 /\ nb == 0))
    by tauto.
  pose proof (saturation_range nr ng nb Nr Ng Nb Nsum') as Hsat.
  pose proof (fun Hs E => remove_lowest_spec (saturation nr ng nb) nr ng nb
                         Nr Ng Nb Hs ltac:(reflexivity) E) as Hrem.
  pose proof (saturation_eq nr ng nb) as Esat.
  destruct (fmin3_cases nr ng nb) as [_ (Lr & Lg & Lb)]. cbv zeta in *.
  set (m := fmin nr (fmin ng nb)) in *.
  set (s' := saturation nr ng nb) in *.
  destruct (remove_lowest s' nr ng nb) as [[pr pg] pb].
  qarith.
  set (br := (r + g + b) * (1 # 255) * (1 # 3)) in *.
  set (h := if Qltb 0 s' && Qltb 0 br
            then reverse_ramps h0 pr pg pb * (1 # 3) else h0).
  rewrite HSBtoRGB_blocks. cbv zeta.
  pose proof (phase_range h) as Hx.
  pose proof (ramps_sum _ Hx) as Hsum.
  apply (desaturate_sum s') in Hsum.
  assert (Hd : (desaturate s' (ramp_red (phase h)) * (br * 3) == r
                /\ desaturate s' (ramp_green (phase h)) * (br * 3) == g
                /\ desaturate s' (ramp_blue (phase h)) * (br * 3) == b)).
  { assert (Hbr0 : 0 <= br) by (unfold br; lra).
    destruct (Qlt_le_dec 0 br) as [Hbr | Hbr].
    2:{ assert (Zbr : br == 0) by lra.
        assert (r == 0 /\ g == 0 /\ b == 0) as (Zr & Zg & Zb)
          by (unfold br in Zbr; repeat split; lra).
        rewrite Zbr, Zr, Zg, Zb. repeat split; ring. }
    destruct Nsum as [Nsum | (Hz & _)]; [| unfold br in Hbr; lra].
    assert (Hdn : desaturate s' (ramp_red (phase h)) == nr
                  /\ desaturate s' (ramp_green (phase h)) == ng
                  /\ desaturate s' (ramp_blue (phase h)) == nb).
    { rewrite !desaturate_eq.
      destruct (Qlt_le_dec 0 s') as [Hs | Hs].
      - destruct (Hrem Nsum Hs)
          as (Pr & Pg & Pb & Em & Rr & Rg & Rb & Pz & Psum).
        destruct (ramps_reverse_ramps h0 pr pg pb (proj1 Rr) (proj1 Rg)
                    (proj1 Rb) Pz Psum) as (Hx3 & Xr & Xg & Xb).
        set (x := reverse_ramps h0 pr pg pb) in *.
        assert (Eh : h = x * (1 # 3)).
        { unfold h. apply Qltb_true in Hs, Hbr. rewrite Hs, Hbr.
          reflexivity. }
        assert (Ep : phase h == x).
        { rewrite phase_unit; rewrite Eh; [field | lra]. }
        destruct (ramps_compat _ _ Ep) as (Cr & Cg & Cb).
        rewrite Cr, Cg, Cb, Xr, Xg, Xb. lra.
      - assert (Zs : s' == 0) by lra.
        rewrite Zs. lra. }
    destruct Hdn as (Dr & Dg & Db).
    rewrite Dr, Dg, Db. auto. }
  set (dr := desaturate s' (ramp_red (phase h))) in *.
  set (dg := desaturate s' (ramp_green (phase h))) in *.
  set (db := desaturate s' (ramp_blue (phase h))) in *.
  destruct Hd as (Dr & Dg & Db).
  destruct (bright_cap_spec _ _ _ Hsum) as (Hm & Hcap & Hfull).
  destruct (fmax3_cases dr dg db) as [Hwhich _]. cbv zeta in *.
  set (mx := fmax dr (fmax dg db)) in *.
  set (cap := bright_cap dr dg db) in *.
  assert (Hk : limit_bright br cap = br).
  { destruct (limit_bright_spec br cap) as (_ & _ & [Hk | [_ Hlt]]);
      [exact Hk | exfalso].
    assert (Hmul : mx * (cap * 3) < mx * (br * 3))
      by (apply Qmult_lt_l; lra).
    destruct Hwhich as [E | [E | E]]; rewrite E in Hmul, Hfull; lra. }
  rewrite Hk. qarith. auto.
Qed.

Lemma RGBtoHSB_HSBtoRGB_witness :
  (0 <= 255 <= 255 /\ 0 <= 147 <= 255 /\ 0 <= 41 <= 255)
  /\ let '(h, s, br) := V1.RGBtoHSB (1 # 2) 255 147 41 in
     let '(br', r', g', b') := V1.HSBtoRGB h s br in
     r' == 255 /\ g' == 147 /\ b' == 41 /\ br' = br.
Proof.
  assert (Hr : 0 <= 255 <= 255) by (split; discriminate).
  assert (Hg : 0 <= 147 <= 255) by (split; discriminate).
  assert (Hb : 0 <= 41 <= 255) by (split; discriminate).
  split; [auto |].
  exact (RGBtoHSB_HSBtoRGB (1 # 2) 255 147 41 Hr Hg Hb).
Defined.

(* ================================================================== *)
(** * The ranges of the data model                                     *)
(* ================================================================== *)

(** The ranges of [Inv] are kept whatever the step ratios are, as long as
    they are positive; with a ratio of the RGB edits that is at most 1, the
    channels also stay below 255 and the brightness below 1. *)

Section Range.
Import V1.
Variables bright_ratio rgb_ratio : Q.
Hypothesis bright_ratio_pos : 0 < bright_ratio.
Hypothesis rgb_ratio_unit : 0 < rgb_ratio <= 1.

Lemma InRange_call_HSBtoRGB (s : state Q) :
  Inv s -> InRange (call_HSBtoRGB s).
Proof.
  intros Hi. split; [apply Inv_call_HSBtoRGB; exact Hi |].
  destruct Hi as (Hh & Hs & Hb & _). unfold call_HSBtoRGB.
  pose proof (HSBtoRGB_scaled (hue s) (sat s) (bright s)) as Hsc.
  destruct (HSBtoRGB (hue s) (sat s) (bright s)) as [[[b r] g] bl].
  destruct Hsc as (Hmean & _ & _ & Hle & _).
  destruct (Hle Hb) as (Hr & Hg & Hbl).
  cbn [bright red green blue set_rgb set_hsb].
  split; [| auto].
  rewrite <- Hmean. qarith. lra.
Qed.

Lemma InRange_call_RGBtoHSB (s : state Q) :
  Inv s -> red s <= 255 -> green s <= 255 -> blue s <= 255 ->
  InRange (call_RGBtoHSB s).
Proof.
  intros Hi Hr Hg Hbl.
  split; [apply Inv_call_RGBtoHSB; exact Hi |].
  destruct Hi as (_ & _ & _ & Hr0 & Hg0 & Hb0).
  unfold call_RGBtoHSB. rewrite RGBtoHSB_blocks. cbv zeta.
  destruct (normalize (red s) (green s) (blue s)) as [[nr ng] nb].
  destruct (remove_lowest (saturation nr ng nb) nr ng nb) as [[pr pg] pb].
  cbn [bright red green blue set_hsb].
  split; [| auto]. qarith. lra.
Qed.

Lemma InRange_key_INIT s : InRange s -> InRange (key_INIT s).
Proof.
  intros [Hi _]. unfold key_INIT. cbv zeta.
  apply (InRange_call_HSBtoRGB
           (set_hsb s (fconst 0) (fconst 1) (fdiv (fconst 1) (fconst 3)))).
  apply Inv_set_hsb; auto; qarith; lra.
Qed.

Lemma InRange_key_VAR_HUE s : InRange s -> InRange (key_VAR_HUE s).
Proof. intros Hi. unfold key_VAR_HUE. destruct (variableHue s); exact Hi. Qed.

Lemma InRange_step_forward s :
  InRange s ->
  InRange (call_HSBtoRGB (set_hsb s (hue_forward (hue s)) (sat s) (bright s))).
Proof.
  intros [Hi _]. pose proof Hi as (Hh & Hs & Hb & _).
  apply InRange_call_HSBtoRGB, Inv_set_hsb; auto.
  destruct (hue_forward_unit _ Hh); lra.
Qed.

Lemma InRange_key_PREV_HUE s : InRange s -> InRange (key_PREV_HUE s).
Proof.
  intros [Hi _]. pose proof Hi as (Hh & Hs & Hb & _).
  apply InRange_call_HSBtoRGB, Inv_set_hsb; auto.
  destruct (hue_backward_unit _ Hh); lra.
Qed.

Lemma InRange_key_DESATURATE s : InRange s -> InRange (key_DESATURATE s).
Proof.
  intros [Hi _]. pose proof Hi as (Hh & Hs & Hb & _).
  unfold key_DESATURATE. cbv zeta. apply InRange_call_HSBtoRGB.
  qarith. qtest; [apply Inv_blink |]; apply Inv_set_hsb; auto; lra.
Qed.

Lemma InRange_key_SATURATE s : InRange s -> InRange (key_SATURATE s).
Proof.
  intros [Hi _]. pose proof Hi as (Hh & Hs & Hb & _).
  unfold key_SATURATE. cbv zeta. apply InRange_call_HSBtoRGB.
  qarith. qtest; [apply Inv_blink |]; apply Inv_set_hsb; auto; lra.
Qed.

Lemma InRange_key_PURE s : InRange s -> InRange (key_PURE s).
Proof.
  intros [Hi _]. pose proof Hi as (Hh & Hs & Hb & _).
  unfold key_PURE. cbv zeta.
  apply InRange_call_HSBtoRGB, Inv_set_variableHue, Inv_set_hsb; auto;
    qarith; lra.
Qed.

Lemma InRange_key_DIM s : InRange s -> InRange (key_DIM bright_ratio s).
Proof.
  intros [Hi _]. pose proof Hi as (Hh & Hs & Hb & _).
  unfold key_DIM. cbv zeta.
  assert (Hi' : InRange (call_HSBtoRGB
                           (set_hsb s (hue s) (sat s)
                              (fmul (bright s) bright_ratio)))).
  { apply InRange_call_HSBtoRGB, Inv_set_hsb; auto. qarith.
    apply Qmult_le_0_compat; lra. }
  destruct (fltb _ _); [| exact Hi'].
  destruct Hi' as ((Hh' & Hs' & Hb' & Hc') & _ & Hc).
  split; [apply Inv_set_hsb; auto; [split; auto | qarith; lra] |].
  split; [qarith; cbn; lra | exact Hc].
Qed.

Lemma InRange_key_BRIGHTEN s :
  InRange s -> InRange (key_BRIGHTEN bright_ratio s).
Proof.
  intros [Hi _]. unfold key_BRIGHTEN. cbv zeta.
  assert (Hi1 : Inv (if fltb (bright s) MIN_BRIGHT
                     then set_hsb s (hue s) (sat s) MIN_BRIGHT else s)).
  { destruct (fltb _ _); [| exact Hi].
    pose proof Hi as (Hh & Hs & Hb & _).
    apply Inv_set_hsb; auto. qarith. lra. }
  set (s1 := if fltb (bright s) MIN_BRIGHT then _ else s) in *.
  pose proof Hi1 as (Hh & Hs & Hb & _).
  assert (Hi2 : InRange (call_HSBtoRGB
                           (set_hsb s1 (hue s1) (sat s1)
                              (fdiv (bright s1) bright_ratio)))).
  { apply InRange_call_HSBtoRGB, Inv_set_hsb; auto. qarith.
    apply Qmult_le_0_compat; [lra |].
    apply Qlt_le_weak, Qinv_lt_0_compat; lra. }
  destruct (_ || _); exact Hi2.
Qed.

Lemma decrease_le c : 0 <= c -> decrease rgb_ratio c <= c.
Proof.
  intros Hc. unfold decrease. qarith.
  assert (rgb_ratio * c <= 1 * c) by (apply Qmult_le_compat_r; lra). lra.
Qed.

Ltac range_rgb_edit :=
  let Hi := fresh "Hi" in
  intros (Hi & _ & ? & ? & ?); pose proof Hi as (_ & _ & _ & ? & ? & ?);
  pose proof (proj1 rgb_ratio_unit);
  cbv zeta;
  match goal with
  | |- InRange (call_RGBtoHSB
                  (set_variableHue
                     (if ?c then blink (set_rgb ?s1 ?r ?g ?b) else _) _)) =>
      let Hi1 := fresh "Hi" in
      assert (Hi1 : Inv s1)
        by (apply Inv_set_rgb; auto using increase_nonneg, decrease_nonneg);
      let E := fresh "E" in
      destruct c eqn:E;
      [ apply InRange_call_RGBtoHSB;
        [ apply Inv_set_variableHue, Inv_blink;
          pose proof Hi1 as (_ & _ & _ & ? & ? & ?);
          apply Inv_set_rgb; trivial; qarith; lra
        | | | ]
      | apply InRange_call_RGBtoHSB; [exact Hi1 | | | ] ];
      cbn [red green blue set_rgb set_variableHue blink DisplayRGB emit] in *;
      qarith; try lra
  end.

Lemma InRange_key_INCR_RED s : InRange s -> InRange (key_INCR_RED rgb_ratio s).
Proof.
  unfold key_INCR_RED. range_rgb_edit. apply Qle_bool_false in E. lra.
Qed.
Lemma InRange_key_INCR_GREEN s :
  InRange s -> InRange (key_INCR_GREEN rgb_ratio s).
Proof.
  unfold key_INCR_GREEN. range_rgb_edit. apply Qle_bool_false in E. lra.
Qed.
Lemma InRange_key_INCR_BLUE s :
  InRange s -> InRange (key_INCR_BLUE rgb_ratio s).
Proof.
  unfold key_INCR_BLUE. range_rgb_edit. apply Qle_bool_false in E. lra.
Qed.
Lemma InRange_key_DECR_RED s : InRange s -> InRange (key_DECR_RED rgb_ratio s).
Proof.
  unfold key_DECR_RED. range_rgb_edit.
  pose proof (decrease_le (red s)). lra.
Qed.
Lemma InRange_key_DECR_GREEN s :
  InRange s -> InRange (key_DECR_GREEN rgb_ratio s).
Proof.
  unfold key_DECR_GREEN. range_rgb_edit.
  pose proof (decrease_le (green s)). lra.
Qed.
Lemma InRange_key_DECR_BLUE s :
  InRange s -> InRange (key_DECR_BLUE rgb_ratio s).
Proof.
  unfold key_DECR_BLUE. range_rgb_edit.
  pose proof (decrease_le (blue s)). lra.
Qed.

Lemma InRange_key_reference r g b s :
  (0 <= r <= 255)%Z -> (0 <= g <= 255)%Z -> (0 <= b <= 255)%Z ->
  InRange s -> InRange (key_reference r g b s).
Proof.
  intros Hr Hg Hb [Hi _]. unfold key_reference. cbv zeta.
  apply InRange_call_RGBtoHSB;
    [apply Inv_set_variableHue, Inv_set_rgb; auto;
     cbn [fconst ArithQ]; rewrite <- (Zle_Qle 0); lia | | |];
    cbn [red green blue set_rgb set_variableHue fconst ArithQ];
    rewrite <- (Zle_Qle _ 255); lia.
Qed.

Lemma InRange_handle_key key s :
  InRange s -> InRange (handle_key bright_ratio rgb_ratio key s).
Proof.
  intros Hi. unfold V1.handle_key.
  repeat match goal with
         | |- InRange (if ?c then _ else _) => destruct c
         end;
  auto using InRange_key_INIT, InRange_key_VAR_HUE, InRange_step_forward,
    InRange_key_PREV_HUE, InRange_key_DESATURATE, InRange_key_SATURATE,
    InRange_key_PURE, InRange_key_DIM, InRange_key_BRIGHTEN,
    InRange_key_INCR_RED, InRange_key_INCR_GREEN, InRange_key_INCR_BLUE,
    InRange_key_DECR_RED, InRange_key_DECR_GREEN, InRange_key_DECR_BLUE;
  try (apply InRange_key_reference; auto; lia).
  apply InRange_step_forward; exact Hi.
Qed.

Lemma InRange_animate now s : InRange s -> InRange (animate now s).
Proof.
  intros Hi. unfold animate. cbv zeta.
  destruct (_ >? _)%Z; [| exact Hi].
  destruct (variableHue _); [| exact Hi].
  apply (InRange_step_forward (set_hueStepTimer s now)). exact Hi.
Qed.

Lemma InRange_loop now fr s :
  InRange s -> InRange (loop bright_ratio rgb_ratio now fr s).
Proof.
  intros Hi. unfold V1.loop, loop_fired, command.
  assert (Hi0 : InRange (idle_reset now s)).
  { unfold idle_reset. destruct (_ >? _)%Z; exact Hi. }
  destruct fr as [fr |]; cbn [fst].
  - assert (Hi1 : InRange (fst (repeat_logic now fr (idle_reset now s)))).
    { unfold repeat_logic. cbv zeta.
      destruct (_ =? _)%Z; [destruct (_ >? _)%Z |]; exact Hi0. }
    destruct (repeat_logic now fr (idle_reset now s)) as [s1 v].
    cbn [fst] in Hi1.
    destruct (valid_key fr v); cbn [fst]; apply InRange_animate; auto.
    apply (InRange_handle_key _ (set_keyTimer (set_lastKey s1 _) now)).
    exact Hi1.
  - apply InRange_animate. exact Hi0.
Qed.

Lemma InRange_setup : InRange setup.
Proof.
  split; [apply Inv_setup |]. vm_compute. repeat split; discriminate.
Qed.

(** X2.  In every state the 2017 sketch can be in, after [setup()] and
    after any pass of [loop()] on any frame at any time, the hue, the
    saturation and the brightness lie within [0, 1] and the three channels
    within [0, 255]: the ranges of the data model are an invariant of the
    sketch (for step ratios in (0, 1], as 255^(-1/60) is). *)
Theorem reachable_in_range (s : state Q) :
  reachable bright_ratio rgb_ratio s ->
  0 <= hue s <= 1 /\ 0 <= sat s <= 1 /\ 0 <= bright s <= 1
  /\ 0 <= red s <= 255 /\ 0 <= green s <= 255 /\ 0 <= blue s <= 255.
Proof.
  intros Hr.
  assert (Hi : InRange s)
    by (induction Hr; [exact InRange_setup | apply InRange_loop; assumption]).
  destruct Hi as ((Hh & Hs & Hb & Hr0 & Hg0 & Hb0) & Hb1 & Hr1 & Hg1 & Hbl1).
  repeat split; tauto.
Qed.
End Range.

Lemma reachable_in_range_witness :
  let s := V1.loop ratio_q ratio_q 1000 (Some (press V1.INCR_RED)) V1.setup in
  (0 < ratio_q /\ 0 < ratio_q <= 1 /\ reachable ratio_q ratio_q s)
  /\ 0 <= V1.hue s <= 1 /\ 0 <= V1.sat s <= 1 /\ 0 <= V1.bright s <= 1
  /\ 0 <= V1.red s <= 255 /\ 0 <= V1.green s <= 255
  /\ 0 <= V1.blue s <= 255.
Proof.
  assert (Hb : 0 < ratio_q) by reflexivity.
  assert (Hg : 0 < ratio_q <= 1) by (split; [reflexivity | discriminate]).
  assert (Hr : reachable ratio_q ratio_q
                 (V1.loop ratio_q ratio_q 1000 (Some (press V1.INCR_RED))
                    V1.setup))
    by (apply reach_loop, reach_setup).
  split; [auto |].
  exact (reachable_in_range ratio_q ratio_q Hb Hg _ Hr).
Defined.

(* ================================================================== *)
(** * What DisplayRGB writes                                           *)
(* ================================================================== *)

Lemma Qtrunc_floor (x : Q) : 0 <= x -> Qtrunc x = Qfloor x.
Proof.
  destruct x as [n d]. unfold Qle, Qtrunc, Qfloor. cbn. intros Hn.
  apply Z.quot_div_nonneg; lia.
Qed.

Lemma fround_nearest (c : Q) :
  0 <= c <= 255 ->
  nearest c (byte (fround c)) /\ (0 <= byte (fround c) <= 255)%Z.
Proof.
  intros Hc. unfold fround. qarith.
  replace (Qle_bool 0 c) with true by (symmetry; apply Qle_bool_iff; lra).
  assert (Hx : 0 <= c + 5 * (1 # 10)) by lra.
  rewrite (Qtrunc_floor _ Hx).
  pose proof (Qfloor_le (c + 5 * (1 # 10))) as Hlo.
  pose proof (Qlt_floor (c + 5 * (1 # 10))) as Hhi.
  rewrite inject_Z_plus in Hhi. change (inject_Z 1) with 1 in Hhi.
  set (d := Qfloor (c + 5 * (1 # 10))) in *.
  assert (H0 : (0 <= d)%Z).
  { apply Z.lt_succ_r. unfold Z.succ. rewrite Zlt_Qlt, inject_Z_plus.
    change (inject_Z 0) with 0. change (inject_Z 1) with 1. lra. }
  assert (H255 : (d < 256)%Z).
  { rewrite Zlt_Qlt. change (inject_Z 256) with 256. lra. }
  unfold byte. rewrite Z.mod_small by lia.
  split; [unfold nearest; lra | lia].
Qed.

(** X3.  In exact arithmetic, for channels within [0, 255], DisplayRGB
    writes to each of the three pins the integer nearest to its channel (a
    half is rounded up), and that integer lies within 0..255: the
    conversion to [byte] does not wrap around. *)
Theorem DisplayRGB_nearest (s : V1.state Q) :
  0 <= V1.red s <= 255 -> 0 <= V1.green s <= 255 -> 0 <= V1.blue s <= 255 ->
  exists dr dg db,
    V1.output (V1.DisplayRGB s)
    = V1.output s ++ [V1.AnalogWrite V1.RED_PIN dr;
                      V1.AnalogWrite V1.GREEN_PIN dg;
                      V1.AnalogWrite V1.BLUE_PIN db]
    /\ nearest (V1.red s) dr /\ nearest (V1.green s) dg
    /\ nearest (V1.blue s) db
    /\ (0 <= dr <= 255)%Z /\ (0 <= dg <= 255)%Z /\ (0 <= db <= 255)%Z.
Proof.
  intros Hr Hg Hb.
  destruct (fround_nearest _ Hr) as [Nr Br].
  destruct (fround_nearest _ Hg) as [Ng Bg].
  destruct (fround_nearest _ Hb) as [Nb Bb].
  exists (byte (fround (V1.red s))), (byte (fround (V1.green s))),
    (byte (fround (V1.blue s))).
  split; [reflexivity | tauto].
Qed.

Lemma DisplayRGB_nearest_witness :
  let s := V1.mkState 0 1 (1 # 3) 100 0 (255 # 2) (7 # 3) 255 0 0 0 false [] in
  (0 <= V1.red s <= 255 /\ 0 <= V1.green s <= 255 /\ 0 <= V1.blue s <= 255)
  /\ exists dr dg db,
       V1.output (V1.DisplayRGB s)
       = V1.output s ++ [V1.AnalogWrite V1.RED_PIN dr;
                         V1.AnalogWrite V1.GREEN_PIN dg;
                         V1.AnalogWrite V1.BLUE_PIN db]
       /\ nearest (V1.red s) dr /\ nearest (V1.green s) dg
       /\ nearest (V1.blue s) db
       /\ (0 <= dr <= 255)%Z /\ (0 <= dg <= 255)%Z /\ (0 <= db <= 255)%Z.
Proof.
  cbv zeta.
  assert (Hr : 0 <= 255 # 2 <= 255) by (split; discriminate).
  assert (Hg : 0 <= 7 # 3 <= 255) by (split; discriminate).
  assert (Hb : 0 <= 255 <= 255) by (split; discriminate).
  split; [cbn; auto |].
  exact (DisplayRGB_nearest
           (V1.mkState 0 1 (1 # 3) 100 0 (255 # 2) (7 # 3) 255 0 0 0 false [])
           Hr Hg Hb).
Defined.

(* ================================================================== *)
(** * Runs of one key                                                  *)
(* ================================================================== *)

Section Presses.
Import V1.

Lemma sat_call_HSBtoRGB {F} `{Arith F} (s : state F) :
  sat (call_HSBtoRGB s) = sat s.
Proof.
  unfold call_HSBtoRGB. destruct (HSBtoRGB _ _ _) as [[[b r] g] bl].
  reflexivity.
Qed.

(** One press of DESATURATE, and one of SATURATE: a step of 1/50, or the
    limit with a blink. *)
Lemma key_DESATURATE_step (s : state Q) :
  hue (key_DESATURATE s) = hue s
  /\ (1 # 50 <= sat s ->
      sat (key_DESATURATE s) == sat s - (1 # 50)
      /\ blinks (output (key_DESATURATE s)) = blinks (output s))
  /\ (sat s < 1 # 50 ->
      sat (key_DESATURATE s) == 0
      /\ blinks (output (key_DESATURATE s)) = S (blinks (output s))).
Proof.
  unfold key_DESATURATE. cbv zeta.
  rewrite hue_call_HSBtoRGB, sat_call_HSBtoRGB, output_call_HSBtoRGB.
  qarith. qtest; cbn [hue sat blink DisplayRGB emit set_hsb output].
  - split; [reflexivity | split; intros Hs; [lra |]].
    split; [reflexivity |]. rewrite !blinks_app. cbn. lia.
  - split; [reflexivity | split; intros Hs; [| lra]].
    split; [lra | reflexivity].
Qed.

Lemma key_SATURATE_step (s : state Q) :
  hue (key_SATURATE s) = hue s
  /\ (sat s <= 1 - (1 # 50) ->
      sat (key_SATURATE s) == sat s + (1 # 50)
      /\ blinks (output (key_SATURATE s)) = blinks (output s))
  /\ (1 - (1 # 50) < sat s ->
      sat (key_SATURATE s) == 1
      /\ blinks (output (key_SATURATE s)) = S (blinks (output s))).
Proof.
  unfold key_SATURATE. cbv zeta.
  rewrite hue_call_HSBtoRGB, sat_call_HSBtoRGB, output_call_HSBtoRGB.
  qarith. qtest; cbn [hue sat blink DisplayRGB emit set_hsb output].
  - split; [reflexivity | split; intros Hs; [lra |]].
    split; [reflexivity |]. rewrite !blinks_app. cbn. lia.
  - split; [reflexivity | split; intros Hs; [| lra]].
    split; [lra | reflexivity].
Qed.

Lemma inject_nat_S n :
  inject_Z (Z.of_nat (S n)) == inject_Z (Z.of_nat n) + 1.
Proof.
  rewrite Nat2Z.inj_succ. unfold Z.succ. rewrite inject_Z_plus. reflexivity.
Qed.
Lemma inject_nat_nonneg n : 0 <= inject_Z (Z.of_nat n).
Proof. change 0 with (inject_Z 0). rewrite <- Zle_Qle. lia. Qed.

(** X4.  In exact arithmetic, as long as the saturation allows it, n
    presses of DESATURATE lower the saturation by exactly n/50
    (SAT_STEPS = 50), leave the hue alone and do not blink. *)
Theorem DESATURATE_presses (n : nat) : forall s : state Q,
  inject_Z (Z.of_nat n) * (1 # 50) <= sat s ->
  let s' := Nat.iter n key_DESATURATE s in
  sat s' == sat s - inject_Z (Z.of_nat n) * (1 # 50)
  /\ hue s' = hue s
  /\ blinks (output s') = blinks (output s).
Proof.
  induction n as [| n IH]; intros s Hn; cbv zeta.
  - cbn. split; [ring | auto].
  - rewrite inject_nat_S in Hn |- *.
    pose proof (inject_nat_nonneg n).
    rewrite Nat.iter_succ. destruct (IH s ltac:(lra)) as (Es & Eh & Eb).
    set (s1 := Nat.iter n key_DESATURATE s) in *.
    destruct (key_DESATURATE_step s1) as (Hh & Hstep & _).
    destruct (Hstep ltac:(lra)) as (Hs' & Hb').
    split; [lra | split; congruence].
Qed.

(** X5.  In exact arithmetic, as long as the saturation allows it, n
    presses of SATURATE raise the saturation by exactly n/50, leave the
    hue alone and do not blink; the press that would carry a saturation
    above 1 sets it to 1 and blinks once. *)
Theorem SATURATE_presses (n : nat) : forall s : state Q,
  sat s + inject_Z (Z.of_nat n) * (1 # 50) <= 1 ->
  let s' := Nat.iter n key_SATURATE s in
  sat s' == sat s + inject_Z (Z.of_nat n) * (1 # 50)
  /\ hue s' = hue s
  /\ blinks (output s') = blinks (output s)
  /\ (1 < sat s + inject_Z (Z.of_nat (S n)) * (1 # 50) ->
      sat (key_SATURATE s') == 1
      /\ blinks (output (key_SATURATE s')) = S (blinks (output s))).
Proof.
  induction n as [| n IH]; intros s Hn; cbv zeta.
  - change (Nat.iter 0 key_SATURATE s) with s.
    change (inject_Z (Z.of_nat 0)) with 0.
    change (inject_Z (Z.of_nat 1)) with 1.
    split; [ring | split; [reflexivity | split; [reflexivity |]]].
    intros Hw. destruct (key_SATURATE_step s) as (_ & _ & Hlim).
    apply Hlim. lra.
  - pose proof (inject_nat_S (S n)) as E2. pose proof (inject_nat_S n) as E1.
    pose proof (inject_nat_nonneg n).
    rewrite Nat.iter_succ.
    destruct (IH s ltac:(lra)) as (Es & Eh & Eb & _).
    set (s1 := Nat.iter n key_SATURATE s) in *.
    destruct (key_SATURATE_step s1) as (Hh & Hstep & _).
    destruct (Hstep ltac:(lra)) as (Hs' & Hb').
    split; [lra | split; [congruence | split; [congruence |]]].
    intros Hw.
    destruct (key_SATURATE_step (key_SATURATE s1)) as (_ & _ & Hlim).
    destruct (Hlim ltac:(lra)) as (L1 & L2).
    split; [exact L1 | congruence].
Qed.

Lemma hue_key_NEXT_HUE (s : state Q) :
  hue (key_NEXT_HUE s) = hue_forward (hue s).
Proof. unfold key_NEXT_HUE. rewrite hue_call_HSBtoRGB. reflexivity. Qed.

(** X10.  In exact arithmetic the hue goes round the circle in steps of
    1/400: as long as the hue stays within [0, 1], n presses of NextHue
    add exactly n/400 to it, and the press that would carry it above 1
    sets it to 0.  From hue 0, 400 presses reach hue 1 and the 401st is
    back at 0. *)
Theorem NEXT_HUE_presses (n : nat) (s : state Q) :
  0 <= hue s -> hue s + inject_Z (Z.of_nat n) * (1 # 400) <= 1 ->
  hue (Nat.iter n key_NEXT_HUE s)
  == hue s + inject_Z (Z.of_nat n) * (1 # 400)
  /\ (1 < hue s + inject_Z (Z.of_nat (S n)) * (1 # 400) ->
      hue (Nat.iter (S n) key_NEXT_HUE s) == 0).
Proof.
  intros H0 Hn.
  assert (L : forall k, (k <= n)%nat ->
            hue (Nat.iter k key_NEXT_HUE s)
            == hue s + inject_Z (Z.of_nat k) * (1 # 400)).
  { induction k as [| k IH]; intros Hk.
    - cbn. ring.
    - rewrite Nat.iter_succ, hue_key_NEXT_HUE, inject_nat_S.
      specialize (IH ltac:(lia)).
      pose proof (inject_nat_nonneg k).
      assert (inject_Z (Z.of_nat (S k)) <= inject_Z (Z.of_nat n))
        by (rewrite <- Zle_Qle; lia).
      rewrite inject_nat_S in *.
      set (h := hue (Nat.iter k key_NEXT_HUE s)) in *.
      destruct (hue_forward_unit h ltac:(lra)) as [[_ E] | [E _]]; lra. }
  split; [apply L; lia |].
  intros Hw. rewrite Nat.iter_succ, hue_key_NEXT_HUE.
  specialize (L n ltac:(lia)). rewrite inject_nat_S in Hw.
  pose proof (inject_nat_nonneg n).
  set (h := hue (Nat.iter n key_NEXT_HUE s)) in *.
  destruct (hue_forward_unit h ltac:(lra)) as [[E _] | [_ E]]; lra.
Qed.
End Presses.

Lemma DESATURATE_presses_witness :
  let s := V1.setup (F:=Q) in
  let s' := Nat.iter 3 V1.key_DESATURATE s in
  inject_Z (Z.of_nat 3) * (1 # 50) <= V1.sat s
  /\ V1.sat s' == V1.sat s - inject_Z (Z.of_nat 3) * (1 # 50)
  /\ V1.hue s' = V1.hue s
  /\ blinks (V1.output s') = blinks (V1.output s).
Proof.
  assert (Hn : inject_Z (Z.of_nat 3) * (1 # 50) <= V1.sat (V1.setup (F:=Q)))
    by (vm_compute; discriminate).
  split; [exact Hn |].
  exact (DESATURATE_presses 3 V1.setup Hn).
Defined.

Lemma SATURATE_presses_witness :
  let s := V1.set_hsb (V1.setup (F:=Q)) 0 (24 # 25) (1 # 3) in
  let s' := Nat.iter 2 V1.key_SATURATE s in
  V1.sat s + inject_Z (Z.of_nat 2) * (1 # 50) <= 1
  /\ V1.sat s' == V1.sat s + inject_Z (Z.of_nat 2) * (1 # 50)
  /\ V1.hue s' = V1.hue s
  /\ blinks (V1.output s') = blinks (V1.output s)
  /\ (1 < V1.sat s + inject_Z (Z.of_nat 3) * (1 # 50) ->
      V1.sat (V1.key_SATURATE s') == 1
      /\ blinks (V1.output (V1.key_SATURATE s')) = S (blinks (V1.output s))).
Proof.
  assert (Hn : V1.sat (V1.set_hsb (V1.setup (F:=Q)) 0 (24 # 25) (1 # 3))
               + inject_Z (Z.of_nat 2) * (1 # 50) <= 1)
    by (vm_compute; discriminate).
  split; [exact Hn |].
  exact (SATURATE_presses 2 _ Hn).
Defined.

Lemma NEXT_HUE_presses_witness :
  let s := V1.setup (F:=Q) in
  (0 <= V1.hue s /\ V1.hue s + inject_Z (Z.of_nat 400) * (1 # 400) <= 1)
  /\ V1.hue (Nat.iter 400 V1.key_NEXT_HUE s)
     == V1.hue s + inject_Z (Z.of_nat 400) * (1 # 400)
  /\ (1 < V1.hue s + inject_Z (Z.of_nat 401) * (1 # 400) ->
      V1.hue (Nat.iter 401 V1.key_NEXT_HUE s) == 0).
Proof.
  assert (H0 : 0 <= V1.hue (V1.setup (F:=Q))) by (vm_compute; discriminate).
  assert (Hn : V1.hue (V1.setup (F:=Q))
               + inject_Z (Z.of_nat 400) * (1 # 400) <= 1)
    by (vm_compute; discriminate).
  split; [auto |].
  exact (NEXT_HUE_presses 400 V1.setup H0 Hn).
Defined.

(** The same edits in single precision, where the steps are rounded: a
    channel of 0.49999997 is written as 1; 50 presses of DESATURATE from
    saturation 1 leave 3.87e-7 and not 0; two presses of SATURATE from 0.96
    leave 0.99999994 and not 1; a gray of brightness 0.1 has channels of
    25.5000019 where 255 times 0.1 is 25.5; and 400 presses of NextHue from
    hue 0 leave 0.99999917 and not 1. *)
Lemma single_precision_drift :
  fround (F:=b32) (S754_finite false 16777215 (-25)) = 1%Z
  /\ V1.sat (Nat.iter 50 V1.key_DESATURATE (V1.setup (F:=b32)))
     = S754_finite false 13631488 (-45)
  /\ V1.sat (Nat.iter 2 V1.key_SATURATE
               (V1.set_hsb (V1.setup (F:=b32))
                  (fconst 0) (fdec 96 100) (fdec 1 3)))
     = S754_finite false 16777215 (-24)
  /\ V1.HSBtoRGB (F:=b32) (fdec 1 2) (fconst 0) (fdec 1 10)
     = (fdec 1 10, S754_finite false 13369345 (-19),
        S754_finite false 13369345 (-19), S754_finite false 13369345 (-19))
  /\ (fmul (fconst 255) (fdec 1 10) : b32) = S754_finite false 13369344 (-19)
  /\ V1.hue (Nat.iter 400 V1.key_NEXT_HUE (V1.setup (F:=b32)))
     = S754_finite false 16777202 (-24).
Proof. vm_compute. repeat split; reflexivity. Qed.

(* ================================================================== *)
(** * An RGB edit and its reverse                                      *)
(* ================================================================== *)

Section Jog.
Import V1.
Variable rgb_ratio : Q.
Hypothesis rgb_ratio_pos : 0 < rgb_ratio.

Lemma rgb_call_RGBtoHSB {F} `{Arith F} (s : state F) :
  red (call_RGBtoHSB s) = red s /\ green (call_RGBtoHSB s) = green s
  /\ blue (call_RGBtoHSB s) = blue s.
Proof.
  unfold call_RGBtoHSB. destruct (RGBtoHSB _ _ _ _) as [[h sa] b].
  repeat split.
Qed.

(** X12.  One can jog back: for a red channel that is on (at least
    MIN_RGB) and that the step up does not carry to 255, a press of
    INCR_RED followed by a press of DECR_RED leaves red where it was,
    green and blue untouched, and writes nothing to the pins besides. *)
Theorem DECR_RED_undoes_INCR_RED (s : state Q) :
  1 <= red s -> red s < 255 * rgb_ratio ->
  let s' := key_DECR_RED rgb_ratio (key_INCR_RED rgb_ratio s) in
  red s' == red s /\ green s' = green s /\ blue s' = blue s
  /\ output s' = output s.
Proof.
  intros H1 H255. cbv zeta.
  assert (Hinc : red s * / rgb_ratio < 255).
  { apply Qlt_shift_div_r; assumption. }
  assert (Hi : key_INCR_RED rgb_ratio s
               = call_RGBtoHSB
                   (set_variableHue
                      (set_rgb s (red s / rgb_ratio) (green s) (blue s))
                      false)).
  { unfold key_INCR_RED, increase. cbv zeta. cbn [red green blue set_rgb].
    qarith.
    replace (Qltb (red s) 1) with false by (symmetry; apply Qltb_false; lra).
    replace (Qle_bool 255 (red s * / rgb_ratio)) with false
      by (symmetry; apply Qle_bool_false; lra).
    reflexivity. }
  rewrite Hi.
  set (s1 := call_RGBtoHSB _).
  destruct (rgb_call_RGBtoHSB
              (set_variableHue
                 (set_rgb s (red s / rgb_ratio) (green s) (blue s)) false))
    as (Er & Eg & Eb).
  fold s1 in Er, Eg, Eb. cbn [red green blue set_rgb set_variableHue] in *.
  assert (Eo : output s1 = output s).
  { unfold s1. rewrite output_call_RGBtoHSB. reflexivity. }
  assert (Eback : red s1 * rgb_ratio == red s).
  { rewrite Er. field. lra. }
  unfold key_DECR_RED, decrease. cbv zeta. cbn [red green blue set_rgb].
  qarith.
  replace (Qltb (red s1 * rgb_ratio) 1) with false
    by (symmetry; apply Qltb_false; lra).
  set (s2 := set_variableHue _ false).
  destruct (rgb_call_RGBtoHSB s2) as (Er2 & Eg2 & Eb2).
  rewrite Er2, Eg2, Eb2, output_call_RGBtoHSB. unfold s2.
  cbn [red green blue output set_rgb set_variableHue].
  rewrite Eg, Eb, Eo. auto.
Qed.
End Jog.

Lemma DECR_RED_undoes_INCR_RED_witness :
  let s := V1.set_rgb (V1.setup (F:=Q)) 100 20 30 in
  let s' := V1.key_DECR_RED ratio_q (V1.key_INCR_RED ratio_q s) in
  (0 < ratio_q /\ 1 <= V1.red s /\ V1.red s < 255 * ratio_q)
  /\ V1.red s' == V1.red s /\ V1.green s' = V1.green s
  /\ V1.blue s' = V1.blue s /\ V1.output s' = V1.output s.
Proof.
  assert (Hp : 0 < ratio_q) by reflexivity.
  assert (H1 : 1 <= V1.red (V1.set_rgb (V1.setup (F:=Q)) 100 20 30))
    by (vm_compute; discriminate).
  assert (H2 : V1.red (V1.set_rgb (V1.setup (F:=Q)) 100 20 30)
               < 255 * ratio_q) by (vm_compute; reflexivity).
  split; [auto |].
  exact (DECR_RED_undoes_INCR_RED ratio_q Hp _ H1 H2).
Defined.

(* ================================================================== *)
(** * Which keys stop the variation of the hue                         *)
(* ================================================================== *)

Section VariableHue.
Import V1.
Context {F : Type} `{Arith F}.
Variables rb rg : F.

Lemma variableHue_call_HSBtoRGB (s : state F) :
  variableHue (call_HSBtoRGB s) = variableHue s.
Proof.
  unfold call_HSBtoRGB. destruct (HSBtoRGB _ _ _) as [[[b r] g] bl].
  reflexivity.
Qed.

Lemma variableHue_call_RGBtoHSB (s : state F) :
  variableHue (call_RGBtoHSB s) = variableHue s.
Proof.
  unfold call_RGBtoHSB. destruct (RGBtoHSB _ _ _ _) as [[h sa] b].
  reflexivity.
Qed.

Ltac vh :=
  cbv zeta;
  repeat match goal with
         | |- context [if ?c then _ else _] => destruct c
         end;
  repeat (cbn [variableHue set_hsb set_rgb set_variableHue set_hueStepTime
                 set_hueStepTimer blink DisplayRGB emit];
          rewrite ?variableHue_call_HSBtoRGB, ?variableHue_call_RGBtoHSB);
  reflexivity.

Lemma variableHue_hsb_keys (s : state F) :
  variableHue (key_INIT s) = variableHue s
  /\ variableHue (key_NEXT_HUE s) = variableHue s
  /\ variableHue (key_PREV_HUE s) = variableHue s
  /\ variableHue (key_DESATURATE s) = variableHue s
  /\ variableHue (key_SATURATE s) = variableHue s
  /\ variableHue (key_DIM rb s) = variableHue s
  /\ variableHue (key_BRIGHTEN rb s) = variableHue s.
Proof.
  unfold key_INIT, key_NEXT_HUE, key_PREV_HUE, key_DESATURATE, key_SATURATE,
    key_DIM, key_BRIGHTEN.
  repeat split; vh.
Qed.

Lemma variableHue_rgb_keys (s : state F) :
  variableHue (key_PURE s) = false
  /\ variableHue (key_INCR_RED rg s) = false
  /\ variableHue (key_INCR_GREEN rg s) = false
  /\ variableHue (key_INCR_BLUE rg s) = false
  /\ variableHue (key_DECR_RED rg s) = false
  /\ variableHue (key_DECR_GREEN rg s) = false
  /\ variableHue (key_DECR_BLUE rg s) = false
  /\ (forall r g b, variableHue (key_reference r g b s) = false).
Proof.
  unfold key_PURE, key_INCR_RED, key_INCR_GREEN, key_INCR_BLUE, key_DECR_RED,
    key_DECR_GREEN, key_DECR_BLUE, key_reference.
  repeat split; intros; vh.
Qed.

Lemma variableHue_key_VAR_HUE (s : state F) :
  variableHue (key_VAR_HUE s) = true.
Proof. unfold key_VAR_HUE. destruct (variableHue s) eqn:E; cbn; auto. Qed.

Ltac known_key :=
  unfold cancels_variable_hue; cbn [existsb];
  repeat match goal with
         | |- context [(?a =? ?b)%Z] =>
             let v := eval vm_compute in (a =? b)%Z in
             change (a =? b)%Z with v
         end;
  cbn [orb]; cbv iota.

(** X6.  In any arithmetic and in every state: the variable-hue key
    leaves the variation on; the pure-colour key, the six RGB edits and
    the three reference colours leave it off; every other key code, the
    re-init key included, leaves it as it was. *)
Theorem variableHue_handle_key key (s : state F) :
  variableHue (handle_key rb rg key s)
  = if (key =? VAR_HUE)%Z then true
    else if cancels_variable_hue key then false
    else variableHue s.
Proof.
  destruct (variableHue_hsb_keys s) as (K1 & K2 & K3 & K4 & K5 & K6 & K7).
  destruct (variableHue_rgb_keys s)
    as (R1 & R2 & R3 & R4 & R5 & R6 & R7 & R8).
  pose proof (variableHue_key_VAR_HUE s) as V.
  unfold V1.handle_key.
  repeat match goal with
         | |- context [if (key =? ?k)%Z then _ else _] =>
             let E := fresh "E" in
             destruct (key =? k)%Z eqn:E;
             [apply Z.eqb_eq in E; subst key; known_key; solve [auto] |]
         end.
  unfold cancels_variable_hue. cbn [existsb].
  repeat match goal with E : (key =? _)%Z = false |- _ =>
    rewrite E; clear E end.
  reflexivity.
Qed.
End VariableHue.

(* ================================================================== *)
(** * The step time is written and never read                          *)
(* ================================================================== *)

Section StepTime.
Import V1.
Context {F : Type} `{Arith F}.
Variables rb rg : F.

Ltac fields :=
  cbv beta iota delta
      [hue sat bright hueStepTime hueStepTimer red green blue lastKey
       repeatCount keyTimer variableHue output
       set_hsb set_rgb set_hueStepTime set_hueStepTimer set_lastKey
       set_repeatCount set_keyTimer set_variableHue emit forget_step_time
       fst snd] in *.

Ltac split_states :=
  match goal with
  | Hag : agree ?s ?s' |- _ =>
      destruct s, s'; unfold agree in *; fields;
      injection Hag as -> -> -> -> -> -> -> -> -> -> -> ->
  end.

Ltac plain t :=
  lazymatch t with
  | context [HSBtoRGB] => fail
  | context [RGBtoHSB] => fail
  | context [if _ then _ else _] => fail
  | _ => idtac
  end.

Ltac walk :=
  repeat (fields;
          match goal with
          | |- context [if ?c then _ else _] => plain c; destruct c
          | |- context [HSBtoRGB ?a ?b ?c] =>
              plain a; plain b; plain c;
              destruct (HSBtoRGB a b c) as [[[? ?] ?] ?]
          | |- context [RGBtoHSB ?a ?b ?c ?d] =>
              plain a; plain b; plain c; plain d;
              destruct (RGBtoHSB a b c d) as [[? ?] ?]
          end);
  fields; try reflexivity.

Ltac agree_tac :=
  let Hag := fresh "Hag" in
  intros Hag; split_states;
  unfold call_HSBtoRGB, call_RGBtoHSB, blink, DisplayRGB;
  cbv zeta; walk.

Lemma agree_key_INIT (s s' : state F) :
  agree s s' -> agree (key_INIT s) (key_INIT s').
Proof. unfold key_INIT. agree_tac. Qed.
Lemma agree_key_VAR_HUE (s s' : state F) :
  agree s s' -> agree (key_VAR_HUE s) (key_VAR_HUE s').
Proof. unfold key_VAR_HUE. agree_tac. Qed.
Lemma agree_key_NEXT_HUE (s s' : state F) :
  agree s s' -> agree (key_NEXT_HUE s) (key_NEXT_HUE s').
Proof. unfold key_NEXT_HUE. agree_tac. Qed.
Lemma agree_key_PREV_HUE (s s' : state F) :
  agree s s' -> agree (key_PREV_HUE s) (key_PREV_HUE s').
Proof. unfold key_PREV_HUE. agree_tac. Qed.
Lemma agree_key_DESATURATE (s s' : state F) :
  agree s s' -> agree (key_DESATURATE s) (key_DESATURATE s').
Proof. unfold key_DESATURATE. agree_tac. Qed.
Lemma agree_key_SATURATE (s s' : state F) :
  agree s s' -> agree (key_SATURATE s) (key_SATURATE s').
Proof. unfold key_SATURATE. agree_tac. Qed.
Lemma agree_key_PURE (s s' : state F) :
  agree s s' -> agree (key_PURE s) (key_PURE s').
Proof. unfold key_PURE. agree_tac. Qed.
Lemma agree_key_DIM (s s' : state F) :
  agree s s' -> agree (key_DIM rb s) (key_DIM rb s').
Proof. unfold key_DIM. agree_tac. Qed.
Lemma agree_key_BRIGHTEN (s s' : state F) :
  agree s s' -> agree (key_BRIGHTEN rb s) (key_BRIGHTEN rb s').
Proof. unfold key_BRIGHTEN. agree_tac. Qed.
Lemma agree_key_INCR_RED (s s' : state F) :
  agree s s' -> agree (key_INCR_RED rg s) (key_INCR_RED rg s').
Proof. unfold key_INCR_RED. agree_tac. Qed.
Lemma agree_key_INCR_GREEN (s s' : state F) :
  agree s s' -> agree (key_INCR_GREEN rg s) (key_INCR_GREEN rg s').
Proof. unfold key_INCR_GREEN. agree_tac. Qed.
Lemma agree_key_INCR_BLUE (s s' : state F) :
  agree s s' -> agree (key_INCR_BLUE rg s) (key_INCR_BLUE rg s').
Proof. unfold key_INCR_BLUE. agree_tac. Qed.
Lemma agree_key_DECR_RED (s s' : state F) :
  agree s s' -> agree (key_DECR_RED rg s) (key_DECR_RED rg s').
Proof. unfold key_DECR_RED. agree_tac. Qed.
Lemma agree_key_DECR_GREEN (s s' : state F) :
  agree s s' -> agree (key_DECR_GREEN rg s) (key_DECR_GREEN rg s').
Proof. unfold key_DECR_GREEN. agree_tac. Qed.
Lemma agree_key_DECR_BLUE (s s' : state F) :
  agree s s' -> agree (key_DECR_BLUE rg s) (key_DECR_BLUE rg s').
Proof. unfold key_DECR_BLUE. agree_tac. Qed.
Lemma agree_key_reference r g b (s s' : state F) :
  agree s s' -> agree (key_reference r g b s) (key_reference r g b s').
Proof. unfold key_reference. agree_tac. Qed.

Lemma agree_handle_key key (s s' : state F) :
  agree s s' -> agree (handle_key rb rg key s) (handle_key rb rg key s').
Proof.
  intros Hag. unfold V1.handle_key.
  repeat match goal with
         | |- context [if ?c then _ else _] => destruct c
         end;
  auto using agree_key_INIT, agree_key_VAR_HUE, agree_key_NEXT_HUE,
    agree_key_PREV_HUE, agree_key_DESATURATE, agree_key_SATURATE,
    agree_key_PURE, agree_key_DIM, agree_key_BRIGHTEN, agree_key_INCR_RED,
    agree_key_INCR_GREEN, agree_key_INCR_BLUE, agree_key_DECR_RED,
    agree_key_DECR_GREEN, agree_key_DECR_BLUE, agree_key_reference.
Qed.

Lemma agree_loop_fired now fr (s s' : state F) :
  agree s s' ->
  agree (fst (loop_fired rb rg now fr s)) (fst (loop_fired rb rg now fr s'))
  /\ snd (loop_fired rb rg now fr s) = snd (loop_fired rb rg now fr s').
Proof.
  intros Hag.
  assert (H0 : agree (idle_reset now s) (idle_reset now s')).
  { revert Hag. unfold idle_reset. agree_tac. }
  assert (Han : forall a a',
            agree a a' -> agree (animate now a) (animate now a')).
  { intros a a'. unfold animate. agree_tac. }
  unfold V1.loop_fired, command.
  set (a := idle_reset now s) in *. set (a' := idle_reset now s') in *.
  clearbody a a'. clear Hag s s'.
  destruct fr as [fr |]; [| cbn [fst snd]; auto].
  assert (H1 : agree (fst (repeat_logic now fr a))
                     (fst (repeat_logic now fr a'))
               /\ snd (repeat_logic now fr a) = snd (repeat_logic now fr a')).
  { revert H0. unfold repeat_logic. cbv zeta. intros Hag. split_states.
    walk; auto. }
  destruct (repeat_logic now fr a) as [b v].
  destruct (repeat_logic now fr a') as [b' v'].
  cbn [fst snd] in H1. destruct H1 as [Hb ->].
  destruct (valid_key fr v'); cbn [fst snd]; [| auto].
  split; [| reflexivity]. apply Han.
  assert (H2 : agree (set_keyTimer (set_lastKey b (Z.land v' 65535)) now)
                     (set_keyTimer (set_lastKey b' (Z.land v' 65535)) now)).
  { revert Hb. agree_tac. }
  apply (agree_handle_key (Z.land v' 65535)) in H2.
  revert H2.
  generalize (handle_key rb rg (Z.land v' 65535)
                (set_keyTimer (set_lastKey b (Z.land v' 65535)) now)).
  generalize (handle_key rb rg (Z.land v' 65535)
                (set_keyTimer (set_lastKey b' (Z.land v' 65535)) now)).
  intros c c'. agree_tac.
Qed.

Lemma agree_run passes : forall (s s' : state F),
  agree s s' ->
  agree (fst (run rb rg passes s)) (fst (run rb rg passes s'))
  /\ snd (run rb rg passes s) = snd (run rb rg passes s').
Proof.
  induction passes as [| [now fr] passes IH]; intros s s' Hag.
  - cbn. auto.
  - rewrite !run_cons. cbn [fst snd].
    destruct (agree_loop_fired now fr s s' Hag) as [H1 H2].
    destruct (IH _ _ H1) as [H3 H4].
    rewrite H2, H4. auto.
Qed.

(** X7.  In any arithmetic: the step time that the variable-hue key
    doubles is read by nothing else.  Two runs of the loop over the same
    passes, from states that differ only in [hueStepTime], fire the same
    keys, write the same output, and end in states that differ only in
    [hueStepTime]: the animation keeps its period of 100 ms. *)
Theorem hueStepTime_unused passes (s : state F) (t : Z) :
  let r := run rb rg passes s in
  let r' := run rb rg passes (set_hueStepTime s t) in
  snd r' = snd r
  /\ forget_step_time (fst r') = forget_step_time (fst r)
  /\ output (fst r') = output (fst r)
  /\ hue (fst r') = hue (fst r).
Proof.
  cbv zeta.
  assert (Hag : agree (set_hueStepTime s t) s) by reflexivity.
  destruct (agree_run passes _ _ Hag) as [H1 H2].
  split; [exact H2 | split; [exact H1 |]].
  unfold agree in H1.
  split; [exact (f_equal output H1) | exact (f_equal hue H1)].
Qed.
End StepTime.

(* ================================================================== *)
(** * Repeat frames without a saved key                                *)
(* ================================================================== *)

Section Orphans.
Import V1.
Context {F : Type} `{Arith F}.
Variables rb rg : F.

Lemma lastKey_animate now (s : state F) :
  lastKey (animate now s) = lastKey s.
Proof. pose proof (keys_animate now s) as K. injection K; auto. Qed.

Lemma orphan_pass now fr (s : state F) :
  lastKey s = 0%Z ->
  match fr with None => True | Some fr => value fr = REPEAT end ->
  snd (loop_fired rb rg now fr s) = None
  /\ lastKey (fst (loop_fired rb rg now fr s)) = 0%Z.
Proof.
  intros Hk Hfr.
  assert (Hi : lastKey (idle_reset now s) = 0%Z).
  { unfold idle_reset. destruct (_ >? _)%Z; [reflexivity | exact Hk]. }
  unfold V1.loop_fired, command.
  destruct fr as [fr |].
  - unfold repeat_logic, valid_key. rewrite Hfr.
    change (REPEAT =? REPEAT)%Z with true. cbv iota zeta.
    cbn [lastKey set_repeatCount set_keyTimer]. rewrite Hi.
    destruct (_ >? 5)%Z.
    + change (0 =? 0)%Z with true. rewrite andb_false_r.
      cbn [andb negb fst snd]. rewrite lastKey_animate. auto.
    + change (REPEAT =? REPEAT)%Z with true. rewrite andb_false_r.
      cbn [andb negb fst snd]. rewrite lastKey_animate. auto.
  - cbn [fst snd]. rewrite lastKey_animate. auto.
Qed.

(** X11.  In any arithmetic: while no key is saved ([lastKey] is 0, as
    after [setup()] or an idle time-out), repeat frames fire nothing,
    however many arrive and whenever they do; and no key is saved by
    them. *)
Theorem orphan_repeats passes : forall s : state F,
  lastKey s = 0%Z -> repeats_only passes ->
  snd (run rb rg passes s) = []
  /\ lastKey (fst (run rb rg passes s)) = 0%Z.
Proof.
  induction passes as [| [now fr] passes IH]; intros s Hk Hp.
  - split; [reflexivity | exact Hk].
  - inversion Hp as [| p ps Hfr Hps]; subst. cbn [snd] in Hfr.
    destruct (orphan_pass now fr s Hk Hfr) as (E1 & E2).
    rewrite run_cons, E1. cbn [fst snd]. apply IH; assumption.
Qed.
End Orphans.

Lemma orphan_repeats_witness :
  let passes := sentinels 1000 9 in
  (V1.lastKey (V1.setup (F:=Q)) = 0%Z /\ repeats_only passes)
  /\ snd (V1.run ratio_q ratio_q passes V1.setup) = []
  /\ V1.lastKey (fst (V1.run ratio_q ratio_q passes V1.setup)) = 0%Z.
Proof.
  assert (Hk : V1.lastKey (V1.setup (F:=Q)) = 0%Z) by reflexivity.
  assert (Hp : repeats_only (sentinels 1000 9))
    by (repeat constructor).
  split; [auto |].
  exact (orphan_repeats ratio_q ratio_q (sentinels 1000 9) V1.setup Hk Hp).
Defined.

(* ================================================================== *)
(** * The conversions of the v2.1 sketch                               *)
(* ================================================================== *)

Lemma V2_RGBtoHSB_blocks {F} `{Arith F} (hue sat red green blue : F) :
  V2.RGBtoHSB hue sat red green blue =
  match BlocksV2.saturated red green blue with
  | None => None
  | Some (sat, redPure, greenPure, bluePure) =>
      Some (BlocksV2.avoid_red
              (BlocksV2.reverse_rainbow
                 (BlocksV2.primaries hue redPure greenPure bluePure)
                 red green redPure greenPure bluePure),
            sat)
  end.
Proof. reflexivity. Qed.

Ltac qarith2 := unfold V2.MAX_RGB in *; qarith.

Section Rainbow.
Import V2 BlocksV2.

(** The three locals of [HSBtoRGB] after the six tests are the triple of
    the chart, except in the segment from 64 to 96, where [bluePure] has
    no value and the two others are positive. *)
Lemma pure_hue_cases (h : Q) :
  0 <= h ->
  match pure_hue h with
  | (Some r, Some g, Some b) =>
      (h < 64 \/ 96 <= h)
      /\ match rainbow h with
         | Some (r', g', b') => r == r' /\ g == g' /\ b == b'
         | None => False
         end
  | (Some r, Some g, None) => 64 <= h < 96 /\ 0 < r /\ 0 < g
  | _ => False
  end.
Proof.
  intros Hh. unfold pure_hue, rainbow. qarith2.
  destruct (Qlt_le_dec h 32) as [H32 | H32];
  [| destruct (Qlt_le_dec h 64) as [H64 | H64];
     [| destruct (Qlt_le_dec h 96) as [H96 | H96];
        [| destruct (Qlt_le_dec h 128) as [H128 | H128];
           [| destruct (Qlt_le_dec h 160) as [H160 | H160]]]]];
  qtests; try (exfalso; lra); cbn [snd]; repeat split; try lra; field.
Qed.
Lemma valid_hue_spec (h : Q) :
  0 <= valid_hue h < 255
  /\ ((0 <= h < 255 /\ valid_hue h = h)
      \/ ((h < 0 \/ 255 <= h) /\ valid_hue h = 0)).
Proof. unfold valid_hue. qtests; split; try lra; auto. Qed.
Lemma rainbow_range (h : Q) :
  0 <= h < 255 ->
  match rainbow h with
  | Some (pr, pg, pb) =>
      0 <= pr <= 255 /\ 0 <= pg <= 255 /\ 0 <= pb <= 255
      /\ (pr == 0 \/ pg == 0 \/ pb == 0)
  | None => 64 <= h < 96
  end.
Proof.
  intros Hh. unfold rainbow. qtests; repeat split; try lra; auto with qarith.
Qed.

(** What [HSBtoRGB] computes, outside the segment that leaves [bluePure]
    without a value. *)
Lemma HSBtoRGB_spec (h s b : Q) :
  match rainbow (valid_hue h) with
  | Some (pr, pg, pb) =>
      exists rs gs bs,
        HSBtoRGB h s b = Some (apply_bright b rs gs bs)
        /\ rs == whiten s pr /\ gs == whiten s pg /\ bs == whiten s pb
  | None => HSBtoRGB h s b = None
  end.
Proof.
  destruct (valid_hue_spec h) as (Hv & _).
  pose proof (pure_hue_cases (valid_hue h) (proj1 Hv)) as Hp.
  pose proof (rainbow_range (valid_hue h) Hv) as Hr.
  unfold HSBtoRGB.
  change (if (h <? 0%:F)%fl then 0%:F%fl else h)
    with (if Qltb h 0 then 0 else h).
  match goal with |- context [pure_hue ?x] => change x with (valid_hue h) end.
  destruct (pure_hue (valid_hue h)) as [[[pr |] [pg |]] [pb |]]; try tauto.
  - destruct Hp as (_ & Hp).
    destruct (rainbow (valid_hue h)) as [[[pr' pg'] pb'] |]; [| tauto].
    destruct Hp as (Er & Eg & Eb). destruct Hr as (_ & _ & _ & Hz).
    unfold whiten. qarith2.
    qtest; [| qtest; [| qtest; [| exfalso; lra]]];
      eexists _, _, _; (split; [reflexivity |]);
      rewrite <- ?Er, <- ?Eg, <- ?Eb; repeat split; try lra;
      rewrite ?E, ?E0, ?E1, ?E2; ring.
  - destruct Hp as (Hseg & Hpr & Hpg).
    assert (Hn : rainbow (valid_hue h) = None).
    { unfold rainbow. qtests; try reflexivity; exfalso; lra. }
    rewrite Hn. qarith2.
    replace (Qeq_bool pr 0) with false
      by (symmetry; apply Qeq_bool_false; lra).
    replace (Qeq_bool pg 0) with false
      by (symmetry; apply Qeq_bool_false; lra).
    reflexivity.
Qed.

Lemma rainbow_None (h : Q) : rainbow h = None <-> 64 <= h < 96.
Proof.
  unfold rainbow. split.
  - qtests; intros Hn; try discriminate Hn; lra.
  - intros Hh. qtests; try reflexivity; exfalso; lra.
Qed.

Lemma rainbow_valid_hue_None (h : Q) :
  rainbow (valid_hue h) = None <-> 64 <= h < 96.
Proof.
  rewrite rainbow_None.
  destruct (valid_hue_spec h) as (_ & [[Hh ->] | [Hh ->]]); lra.
Qed.

(** X13.  In exact arithmetic, the v2.1 HSBtoRGB reads a local it has not
    assigned exactly for the hues of the segment from 64 to 96 (yellow to
    green): the branch of that segment assigns [redPure] and [greenPure]
    only, both positive, and the desaturation then tests [bluePure].  For
    every other hue, negative ones and those from 255 on being validated
    to 0, the three channels are assigned. *)
Theorem V2_HSBtoRGB_defined (h s b : Q) :
  HSBtoRGB h s b = None <-> 64 <= h < 96.
Proof.
  pose proof (HSBtoRGB_spec h s b) as Hs.
  pose proof (rainbow_valid_hue_None h) as Hn.
  destruct (rainbow (valid_hue h)) as [[[pr pg] pb] |].
  - destruct Hs as (rs & gs & bs & -> & _). split; [discriminate |].
    intros Hseg. apply Hn in Hseg. discriminate.
  - split; [intros _; apply Hn; reflexivity | intros _; exact Hs].
Qed.

Lemma whiten_range (s p : Q) :
  0 <= s <= 1 -> 0 <= p <= 255 -> 0 <= whiten s p <= 255.
Proof.
  intros Hs Hp. unfold whiten.
  assert (0 <= s * p) by (apply Qmult_le_0_compat; lra).
  assert (0 <= s * (255 - p)) by (apply Qmult_le_0_compat; lra).
  lra.
Qed.

Lemma apply_bright_range (b rs gs bs : Q) :
  0 <= b -> 0 <= rs -> 0 <= gs -> 0 <= bs ->
  let '(r, g, bl) := apply_bright b rs gs bs in
  0 <= r <= 255 /\ 0 <= g <= 255 /\ 0 <= bl <= 255.
Proof.
  intros Hb Hr Hg Hbl. unfold apply_bright. qarith.
  pose proof (Qmult_le_0_compat _ _ Hr Hb).
  pose proof (Qmult_le_0_compat _ _ Hg Hb).
  pose proof (Qmult_le_0_compat _ _ Hbl Hb).
  qtests; lra.
Qed.

(** X14.  For a saturation within [0, 1] and a brightness that is not
    negative, the channels that the v2.1 HSBtoRGB assigns lie within
    [0, 255], whatever the hue; it assigns none only for a hue of the
    segment from 64 to 96. *)
Theorem V2_HSBtoRGB_range (h s b : Q) :
  0 <= s <= 1 -> 0 <= b ->
  match HSBtoRGB h s b with
  | Some (r, g, bl) => 0 <= r <= 255 /\ 0 <= g <= 255 /\ 0 <= bl <= 255
  | None => 64 <= h < 96
  end.
Proof.
  intros Hs Hb.
  pose proof (HSBtoRGB_spec h s b) as Hsp.
  pose proof (proj1 (rainbow_valid_hue_None h)) as Hd.
  destruct (valid_hue_spec h) as (Hv & _).
  pose proof (rainbow_range _ Hv) as Hr.
  destruct (rainbow (valid_hue h)) as [[[pr pg] pb] |].
  - destruct Hsp as (rs & gs & bs & -> & Er & Eg & Eb).
    destruct Hr as (Pr & Pg & Pb & _).
    pose proof (whiten_range s pr Hs Pr). pose proof (whiten_range s pg Hs Pg).
    pose proof (whiten_range s pb Hs Pb).
    apply apply_bright_range; lra.
  - rewrite Hsp. auto.
Qed.

(** ** Round trip at full brightness *)

Lemma saturated_whiten (s pr pg pb r g bl : Q) :
  0 < s <= 1 -> 0 <= pr -> 0 <= pg -> 0 <= pb ->
  pr == 0 \/ pg == 0 \/ pb == 0 ->
  r == whiten s pr -> g == whiten s pg -> bl == whiten s pb ->
  exists s' rP gP bP,
    saturated r g bl = Some (s', rP, gP, bP)
    /\ s' == s /\ rP == pr /\ gP == pg /\ bP == pb.
Proof.
  intros Hs Hpr Hpg Hpb Hz Hr Hg Hb. unfold whiten in *.
  assert (0 <= s * pr) by (apply Qmult_le_0_compat; lra).
  assert (0 <= s * pg) by (apply Qmult_le_0_compat; lra).
  assert (0 <= s * pb) by (apply Qmult_le_0_compat; lra).
  assert (Zr : s * pr == 0 -> pr == 0) by (apply product_zero; lra).
  assert (Zg : s * pg == 0 -> pg == 0) by (apply product_zero; lra).
  assert (Zb : s * pb == 0 -> pb == 0) by (apply product_zero; lra).
  assert (Pz : s * pr == 0 \/ s * pg == 0 \/ s * pb == 0).
  { destruct Hz as [E | [E | E]]; rewrite E;
      [left | right; left | right; right]; ring. }
  unfold saturated. qarith2.
  destruct (Qfmin_case g bl) as [[-> E1] | [-> E1]];
  destruct (Qfmin_case r bl) as [[-> E2] | [-> E2]];
  destruct (Qfmin_case r g) as [[-> E3] | [-> E3]];
  qtests; try (exfalso; destruct Pz as [Pz | [Pz | Pz]]; lra);
  eexists _, _, _, _; (split; [reflexivity |]);
  match goal with
  | |- ?s' == s /\ _ =>
      assert (Es : s' == s) by (destruct Pz as [Pz | [Pz | Pz]]; lra);
      rewrite !Es; split; [reflexivity |]
  end;
  repeat split;
  try (symmetry; first [apply Zr | apply Zg | apply Zb];
       destruct Pz as [Pz | [Pz | Pz]]; lra);
  rewrite ?Hr, ?Hg, ?Hb; field; lra.
Qed.


Lemma avoid_red_id (x : Q) : 0 < x < 255 -> avoid_red x = x.
Proof.
  intros Hx. unfold avoid_red. qarith.
  replace (Qeq_bool x 0) with false by (symmetry; apply Qeq_bool_false; lra).
  replace (Qle_bool 255 x) with false by (symmetry; apply Qle_bool_false; lra).
  reflexivity.
Qed.

Lemma fmin_le (a b c : Q) : a <= b -> a <= c -> a <= fmin b c.
Proof. intros. destruct (Qfmin_case b c) as [[-> _] | [-> _]]; lra. Qed.

Lemma fmin_gt (a b c : Q) : b < a \/ c < a -> fmin b c < a.
Proof. intros. destruct (Qfmin_case b c) as [[-> ?] | [-> ?]]; lra. Qed.

Lemma fmin_lt (a b c : Q) : a < b -> a < c -> a < fmin b c.
Proof. intros. destruct (Qfmin_case b c) as [[-> _] | [-> _]]; lra. Qed.

Lemma fmin_ge (a b c : Q) : b <= a \/ c <= a -> fmin b c <= a.
Proof. intros. destruct (Qfmin_case b c) as [[-> ?] | [-> ?]]; lra. Qed.

Ltac test_true :=
  match goal with
  | |- Qle_bool _ _ = true => apply Qle_bool_iff
  | |- Qltb _ _ = true => apply Qltb_true
  | |- Qle_bool _ _ = false => apply Qle_bool_false
  | |- Qltb _ _ = false => apply Qltb_false
  end.

(** Segment 0 < hue < 32. *)
Lemma reverse_rainbow_orange (h h0 red green rP gP bP : Q) :
  0 < h < 32 ->
  rP == 255 - (85 # 32) * h -> gP == (85 # 32) * h -> bP == 0 ->
  reverse_rainbow h0 red green rP gP bP == h.
Proof.
  intros Hh Er Eg Eb. unfold reverse_rainbow. qarith.
  replace (Qle_bool bP (fmin rP gP)) with true
    by (symmetry; test_true; apply fmin_le; lra).
  replace (Qle_bool 2 (rP * / gP)) with true
    by (symmetry; test_true; apply Qle_shift_div_l; lra).
  rewrite Er, Eg. field. lra.
Qed.

(** Segment 32 <= hue < 64. *)
Lemma reverse_rainbow_yellow (h h0 red green rP gP bP : Q) :
  32 <= h < 64 -> 0 < green <= red ->
  rP == 170 -> gP == (255 # 96) * h -> bP == 0 ->
  reverse_rainbow h0 red green rP gP bP == h.
Proof.
  intros Hh Hrg Er Eg Eb. unfold reverse_rainbow. qarith.
  replace (Qle_bool bP (fmin rP gP)) with true
    by (symmetry; test_true; apply fmin_le; lra).
  destruct (Qlt_le_dec 32 h) as [H32 | H32].
  - replace (Qle_bool 2 (rP * / gP)) with false
      by (symmetry; test_true; apply Qlt_shift_div_r; lra).
    replace (Qle_bool 1 (red * / green)) with true
      by (symmetry; test_true; apply Qle_shift_div_l; lra).
    rewrite Er, Eg. field. lra.
  - replace (Qle_bool 2 (rP * / gP)) with true
      by (symmetry; test_true; apply Qle_shift_div_l; lra).
    rewrite Er, Eg. assert (E : h == 32) by lra. rewrite E. reflexivity.
Qed.

(** Segment 96 <= hue < 128. *)
Lemma reverse_rainbow_aqua (h h0 red green rP gP bP : Q) :
  96 <= h < 128 -> 0 <= red < green ->
  rP == 0 -> gP == 255 - (85 # 32) * (h - 96) -> bP == (85 # 32) * (h - 96) ->
  reverse_rainbow h0 red green rP gP bP == h.
Proof.
  intros Hh Hrg Er Eg Eb. unfold reverse_rainbow. qarith.
  destruct (Qlt_le_dec 96 h) as [H96 | H96].
  - replace (Qle_bool bP (fmin rP gP)) with false
      by (symmetry; test_true; apply fmin_gt; lra).
    replace (Qltb rP (fmin bP gP)) with true
      by (symmetry; test_true; apply fmin_lt; lra).
    replace (Qltb 2 (gP * / bP)) with true
      by (symmetry; test_true; apply Qlt_shift_div_l; lra).
    rewrite Eg, Eb. field. lra.
  - replace (Qle_bool bP (fmin rP gP)) with true
      by (symmetry; test_true; apply fmin_le; lra).
    replace (Qle_bool 2 (rP * / gP)) with false
      by (symmetry; test_true; apply Qlt_shift_div_r; lra).
    replace (Qle_bool 1 (red * / green)) with false
      by (symmetry; test_true; apply Qlt_shift_div_r; lra).
    rewrite Er, Eg. assert (E : h == 96) by lra. rewrite E. reflexivity.
Qed.

(** Segment 128 <= hue < 160. *)
Lemma reverse_rainbow_blue (h h0 red green rP gP bP : Q) :
  128 <= h < 160 ->
  rP == 0 -> gP == 170 - (170 # 32) * (h - 128) ->
  bP == 85 + (170 # 32) * (h - 128) ->
  reverse_rainbow h0 red green rP gP bP == h.
Proof.
  intros Hh Er Eg Eb. unfold reverse_rainbow. qarith.
  replace (Qle_bool bP (fmin rP gP)) with false
    by (symmetry; test_true; apply fmin_gt; lra).
  replace (Qltb rP (fmin bP gP)) with true
    by (symmetry; test_true; apply fmin_lt; lra).
  replace (Qltb 2 (gP * / bP)) with false
    by (symmetry; test_true; apply Qle_shift_div_r; lra).
  rewrite Eg, Eb. field. lra.
Qed.

(** Segment 160 <= hue < 255. *)
Lemma reverse_rainbow_purple (h h0 red green rP gP bP : Q) :
  160 <= h < 255 ->
  rP == (255 # 96) * (h - 160) -> gP == 0 ->
  bP == 255 - (255 # 96) * (h - 160) ->
  reverse_rainbow (primaries h0 rP gP bP) red green rP gP bP == h.
Proof.
  intros Hh Er Eg Eb. unfold reverse_rainbow. qarith.
  replace (Qle_bool bP (fmin rP gP)) with false
    by (symmetry; test_true; apply fmin_gt; lra).
  replace (Qltb rP (fmin bP gP)) with false
    by (symmetry; test_true; apply fmin_ge; lra).
  destruct (Qlt_le_dec 160 h) as [H160 | H160].
  - replace (Qltb gP (fmin rP bP)) with true
      by (symmetry; test_true; apply fmin_lt; lra).
    rewrite Er, Eb. field. lra.
  - replace (Qltb gP (fmin rP bP)) with false
      by (symmetry; test_true; apply fmin_ge; lra).
    unfold primaries. qarith.
    replace (Qeq_bool rP 0) with true
      by (symmetry; apply Qeq_bool_iff; lra).
    replace (Qeq_bool gP 0) with true
      by (symmetry; apply Qeq_bool_iff; lra).
    cbn [andb]. lra.
Qed.

Lemma apply_bright_full (rs gs bs : Q) :
  rs <= 255 -> gs <= 255 -> bs <= 255 ->
  let '(r, g, bl) := apply_bright 1 rs gs bs in
  r == rs /\ g == gs /\ bl == bs.
Proof.
  intros Hr Hg Hb. unfold apply_bright. qarith. qtests; lra.
Qed.

(** X15.  At brightness 1 the v2.1 RGBtoHSB inverts the v2.1 HSBtoRGB: for
    a hue in (0, 64) or in [96, 255) and a saturation in (0, 1], HSBtoRGB
    followed by RGBtoHSB gives the hue and the saturation back, in exact
    arithmetic and whatever hue and saturation the caller of RGBtoHSB
    held.  (On these inputs no quotient of the two functions has a zero
    divisor.) *)
Theorem V2_round_trip (h s h0 s0 : Q) :
  0 < h < 64 \/ 96 <= h < 255 -> 0 < s <= 1 ->
  match HSBtoRGB h s 1 with
  | Some (r, g, bl) =>
      match V2.RGBtoHSB h0 s0 r g bl with
      | Some (h', s') => h' == h /\ s' == s
      | None => False
      end
  | None => False
  end.
Proof.
  intros Hh Hs.
  pose proof (HSBtoRGB_spec h s 1) as Hsp.
  destruct (valid_hue_spec h) as (_ & [[_ Ev] | [Hout _]]); [| lra].
  rewrite Ev in Hsp.
  pose proof (rainbow_range h ltac:(lra)) as Hrange.
  destruct (rainbow h) as [[[pr pg] pb] |] eqn:Erb; [| lra].
  destruct Hsp as (rs & gs & bs & -> & Ers & Egs & Ebs).
  destruct Hrange as (Pr & Pg & Pb & Pz).
  pose proof (whiten_range s pr ltac:(lra) Pr) as Wr.
  pose proof (whiten_range s pg ltac:(lra) Pg) as Wg.
  pose proof (whiten_range s pb ltac:(lra) Pb) as Wb.
  pose proof (apply_bright_full rs gs bs ltac:(lra) ltac:(lra) ltac:(lra))
    as Hab.
  destruct (apply_bright 1 rs gs bs) as [[r g] bl].
  destruct Hab as (Er & Eg & Eb).
  rewrite V2_RGBtoHSB_blocks.
  destruct (saturated_whiten s pr pg pb r g bl Hs (proj1 Pr) (proj1 Pg)
              (proj1 Pb) Pz ltac:(lra) ltac:(lra) ltac:(lra))
    as (s' & rP & gP & bP & -> & Es' & ErP & EgP & EbP).
  split; [| exact Es'].
  assert (Hx : reverse_rainbow (primaries h0 rP gP bP) r g rP gP bP == h).
  { unfold whiten in *.
    revert Erb. unfold rainbow. qtests; intros Erb;
      try discriminate Erb; injection Erb as Epr Epg Epb;
      subst pr pg pb.
    - apply reverse_rainbow_orange; lra.
    - assert (0 < s * ((255 # 96) * h)) by (apply Qmult_lt_0_compat; lra).
      assert (0 <= s * (170 - (255 # 96) * h))
        by (apply Qmult_le_0_compat; lra).
      apply reverse_rainbow_yellow; lra.
    - assert (0 < s * (255 - (85 # 32) * (h - 96)))
        by (apply Qmult_lt_0_compat; lra).
      apply reverse_rainbow_aqua; lra.
    - apply reverse_rainbow_blue; lra.
    - apply reverse_rainbow_purple; lra. }
  rewrite avoid_red_id; [exact Hx | destruct Hh; lra].
Qed.
End Rainbow.

Lemma V2_HSBtoRGB_range_witness :
  (0 <= 1 # 2 <= 1 /\ 0 <= 3 # 4)
  /\ match V2.HSBtoRGB 20 (1 # 2) (3 # 4) with
     | Some (r, g, bl) => 0 <= r <= 255 /\ 0 <= g <= 255 /\ 0 <= bl <= 255
     | None => 64 <= 20 < 96
     end.
Proof.
  assert (Hs : 0 <= 1 # 2 <= 1) by (split; discriminate).
  assert (Hb : 0 <= 3 # 4) by discriminate.
  split; [auto |].
  exact (V2_HSBtoRGB_range 20 (1 # 2) (3 # 4) Hs Hb).
Defined.

Lemma V2_round_trip_witness :
  ((0 < 140 < 64 \/ 96 <= 140 < 255) /\ 0 < 1 # 2 <= 1)
  /\ match V2.HSBtoRGB 140 (1 # 2) 1 with
     | Some (r, g, bl) =>
         match V2.RGBtoHSB 7 1 r g bl with
         | Some (h', s') => h' == 140 /\ s' == 1 # 2
         | None => False
         end
     | None => False
     end.
Proof.
  assert (Hh : 0 < 140 < 64 \/ 96 <= 140 < 255)
    by (right; split; [discriminate | reflexivity]).
  assert (Hs : 0 < 1 # 2 <= 1) by (split; [reflexivity | discriminate]).
  split; [auto |].
  exact (V2_round_trip 140 (1 # 2) 7 1 Hh Hs).
Defined.

(** The segment from 64 to 96 in single precision: at hue 64, where the
    re-init key sends a red, and at hue 80, no blue is assigned; at hue 0
    the colour is the red (255, 0, 0). *)
Lemma V2_HSBtoRGB_b32 :
  V2.HSBtoRGB (F:=b32) (fconst 64) (fconst 1) (fconst 1) = None
  /\ V2.HSBtoRGB (F:=b32) (fconst 80) (fconst 1) (fconst 1) = None
  /\ V2.HSBtoRGB (F:=b32) (fconst 0) (fconst 1) (fconst 1)
     = Some (fconst 255, fconst 0, fconst 0).
Proof. vm_compute. repeat split; reflexivity. Qed.

(* ================================================================== *)
(** * The PWM interrupts of the v2.1 sketch                            *)
(* ================================================================== *)

Section Duty.
Import V2.
Context {F : Type} `{Arith F}.

Lemma gates_mod k level n : forall c c',
  (c mod 8 = c' mod 8)%Z -> gates k level c n = gates k level c' n.
Proof.
  induction n as [| n IH]; intros c c' E; [reflexivity |].
  cbn [gates]. rewrite E. f_equal. apply IH.
  rewrite (Z.add_mod c), (Z.add_mod c'), E by lia. reflexivity.
Qed.

Lemma OCR1A_trace_gates n : forall p : pwm F,
  (0 <= pwmCyclesON p <= 32767)%Z -> (0 <= pwmCounter1 p <= 65535)%Z ->
  OCR1A_trace n p
  = gates (pwmCyclesON p) (byte (ftrunc (red p))) (pwmCounter1 p + 1) n.
Proof.
  induction n as [| n IH]; intros p Hk Hc; [reflexivity |].
  cbn [OCR1A_trace gates].
  assert (Eon : int_to_unsigned (pwmCyclesON p) = pwmCyclesON p)
    by (apply Z.mod_small; lia).
  pose proof (Z.mod_pos_bound (pwmCounter1 p + 1) 8 ltac:(lia)) as B.
  assert (E : TIMER1_OVF p
              = mkPwm ((pwmCounter1 p + 1) mod 8) (pwmCounter2 p)
                  (pwmCyclesON p) (red p) (green p) (blue p)
                  (gate (pwmCyclesON p) (byte (ftrunc (red p)))
                     ((pwmCounter1 p + 1) mod 8))
                  (gate (pwmCyclesON p) (byte (ftrunc (green p)))
                     ((pwmCounter1 p + 1) mod 8))
                  (OCR2A p)).
  { unfold TIMER1_OVF, gate. cbv zeta. rewrite Eon, counter_wraps by assumption.
    destruct (_ <=? _)%Z; reflexivity. }
  rewrite E, IH; cbn [pwmCyclesON pwmCounter1 red OCR1A]; try lia.
  f_equal. apply gates_mod.
  rewrite Z.add_mod, Z.mod_mod by lia. rewrite <- Z.add_mod by lia.
  reflexivity.
Qed.

Lemma gates_duty k level c :
  (0 <= k <= 32767)%Z -> level <> 0%Z ->
  Forall (fun v => v = 0%Z \/ v = level) (gates k level c 8)
  /\ off_cycles (gates k level c 8) = Z.to_nat (7 - Z.min 7 k).
Proof.
  intros Hk Hl.
  rewrite (gates_mod k level 8 c (c mod 8)) by (rewrite Z.mod_mod; lia).
  pose proof (Z.mod_pos_bound c 8 ltac:(lia)) as B.
  assert (Eg : forall j, (0 <= j <= 7)%Z ->
               gate k level j = gate (Z.min 7 k) level j).
  { intros j Hj. unfold gate.
    destruct (j <=? k)%Z eqn:E1, (j <=? Z.min 7 k)%Z eqn:E2; auto; lia. }
  assert (Hc : (c mod 8 = 0 \/ c mod 8 = 1 \/ c mod 8 = 2 \/ c mod 8 = 3
               \/ c mod 8 = 4 \/ c mod 8 = 5 \/ c mod 8 = 6 \/ c mod 8 = 7)%Z)
    by lia.
  assert (Hm : (Z.min 7 k = 0 \/ Z.min 7 k = 1 \/ Z.min 7 k = 2
               \/ Z.min 7 k = 3 \/ Z.min 7 k = 4 \/ Z.min 7 k = 5
               \/ Z.min 7 k = 6 \/ Z.min 7 k = 7)%Z) by lia.
  generalize dependent (c mod 8)%Z. intros c0 B Hc.
  unfold off_cycles.
  destruct level as [| lp | lp]; [congruence | |];
  repeat destruct Hc as [Hc | Hc]; subst c0;
    cbn [gates Z.add Pos.add Pos.succ Z.modulo Z.div_eucl Z.pos_div_eucl
         Z.leb Z.compare Pos.compare Pos.compare_cont Z.ltb Z.sub Z.opp
         Z.pos_sub Z.succ_double Z.pred_double Z.double Pos.pred_double
         fst snd Z.mul Pos.mul Z.geb];
    rewrite !Eg by lia;
    repeat destruct Hm as [Hm | Hm]; rewrite Hm;
    cbn;
    (split; [repeat (apply Forall_cons; [auto |]); apply Forall_nil
            | reflexivity]).
Qed.
Lemma OCR2A_trace_gates n : forall p : pwm F,
  (0 <= pwmCyclesON p <= 32767)%Z -> (0 <= pwmCounter2 p <= 65535)%Z ->
  OCR2A_trace n p
  = gates (pwmCyclesON p) (byte (ftrunc (blue p))) (pwmCounter2 p + 1) n.
Proof.
  induction n as [| n IH]; intros p Hk Hc; [reflexivity |].
  cbn [OCR2A_trace gates].
  assert (Eon : int_to_unsigned (pwmCyclesON p) = pwmCyclesON p)
    by (apply Z.mod_small; lia).
  pose proof (Z.mod_pos_bound (pwmCounter2 p + 1) 8 ltac:(lia)) as B.
  assert (E : TIMER2_OVF p
              = mkPwm (pwmCounter1 p) ((pwmCounter2 p + 1) mod 8)
                  (pwmCyclesON p) (red p) (green p) (blue p)
                  (OCR1A p) (OCR1B p)
                  (gate (pwmCyclesON p) (byte (ftrunc (blue p)))
                     ((pwmCounter2 p + 1) mod 8))).
  { unfold TIMER2_OVF, gate. cbv zeta. rewrite Eon, counter_wraps by assumption.
    destruct (_ <=? _)%Z; reflexivity. }
  rewrite E, IH; cbn [pwmCyclesON pwmCounter2 blue OCR2A]; try lia.
  f_equal. apply gates_mod.
  rewrite Z.add_mod, Z.mod_mod by lia. rewrite <- Z.add_mod by lia.
  reflexivity.
Qed.

(** X16.  Over any eight consecutive overflows of a timer, the register of
    a channel that is not dark holds either 0 or the channel's byte, and
    holds 0 in exactly 7 - min(7, pwmCyclesON) of them: the coarse level k
    turns the LEDs on for min(7, k) + 1 cycles out of eight, wherever the
    cycle counters stand, for Timer1 (red) and for Timer2 (blue) alike. *)
Theorem PWM_duty_cycle (p : pwm F) :
  (0 <= pwmCyclesON p <= 32767)%Z ->
  (0 <= pwmCounter1 p <= 65535)%Z -> (0 <= pwmCounter2 p <= 65535)%Z ->
  byte (ftrunc (red p)) <> 0%Z -> byte (ftrunc (blue p)) <> 0%Z ->
  let on := Z.min 7 (pwmCyclesON p) in
  Forall (fun v => v = 0%Z \/ v = byte (ftrunc (red p))) (OCR1A_trace 8 p)
  /\ off_cycles (OCR1A_trace 8 p) = Z.to_nat (7 - on)
  /\ Forall (fun v => v = 0%Z \/ v = byte (ftrunc (blue p))) (OCR2A_trace 8 p)
  /\ off_cycles (OCR2A_trace 8 p) = Z.to_nat (7 - on).
Proof.
  intros Hk H1 H2 Hr Hb. cbv zeta.
  rewrite OCR1A_trace_gates, OCR2A_trace_gates by assumption.
  destruct (gates_duty (pwmCyclesON p) _ (pwmCounter1 p + 1) Hk Hr).
  destruct (gates_duty (pwmCyclesON p) _ (pwmCounter2 p + 1) Hk Hb).
  auto.
Qed.
End Duty.

Lemma PWM_duty_cycle_witness :
  ((0 <= 3 <= 32767)%Z /\ (0 <= 2 <= 65535)%Z /\ (0 <= 7 <= 65535)%Z
   /\ byte (ftrunc (100 : Q)) <> 0%Z /\ byte (ftrunc (5 # 2 : Q)) <> 0%Z)
  /\ Forall (fun v => v = 0%Z \/ v = byte (ftrunc (100 : Q)))
       (OCR1A_trace 8 (V2.hw orange))
  /\ off_cycles (OCR1A_trace 8 (V2.hw orange)) = 4%nat
  /\ Forall (fun v => v = 0%Z \/ v = byte (ftrunc (5 # 2 : Q)))
       (OCR2A_trace 8 (V2.hw orange))
  /\ off_cycles (OCR2A_trace 8 (V2.hw orange)) = 4%nat.
Proof.
  assert (Hk : (0 <= 3 <= 32767)%Z) by lia.
  assert (H1 : (0 <= 2 <= 65535)%Z) by lia.
  assert (H2 : (0 <= 7 <= 65535)%Z) by lia.
  assert (Hr : byte (ftrunc (100 : Q)) <> 0%Z) by discriminate.
  assert (Hb : byte (ftrunc (5 # 2 : Q)) <> 0%Z) by discriminate.
  split; [auto |].
  exact (PWM_duty_cycle (V2.hw orange) Hk H1 H2 Hr Hb).
Defined.

(* ================================================================== *)
(** * The keys of the v2.1 sketch                                      *)
(* ================================================================== *)

Section Restore.
Import V2.
Context {F : Type} `{Arith F}.
Local Open Scope fl_scope.



End Restore.


Section KeysV2.
Import V2 BlocksV2.

Lemma hue_key_INIT (s : globals Q) :
  0 <= hue s < 64 -> hue (key_INIT s) = 64.
Proof.
  intros Hh. unfold key_INIT. cbv zeta.
  cbn [hue delay set_hueStepTimer set_variableHue set_pwmCyclesON set_hw
       set_bright set_sat set_hue].
  qarith. qtests; try (exfalso; lra); reflexivity.
Qed.

(** X18.  In exact arithmetic the re-init key of the v2.1 sketch, pressed
    while the hue is in [0, 64), sets the hue to 64, and the conversion
    that follows the switch then reads the blue that the segment from 64
    to 96 does not assign: the pass has no defined result. *)
Theorem INIT_from_red (now : Z) (s : globals Q) :
  0 <= hue s < 64 ->
  hue (key_INIT s) = 64
  /\ valid_key_block now V1.INIT s = None.
Proof.
  intros Hh. split; [apply hue_key_INIT; exact Hh |].
  unfold valid_key_block, handle_key. cbv zeta.
  change (V1.INIT =? V1.INIT)%Z with true. cbv iota.
  unfold call_HSBtoRGB.
  rewrite (hue_key_INIT (set_keyTimer (set_lastKey s V1.INIT) now) Hh).
  match goal with |- context [HSBtoRGB 64 ?a ?b] =>
    pose proof (HSBtoRGB_spec 64 a b) as Hs
  end.
  replace (rainbow (valid_hue 64)) with (@None (Q * Q * Q)) in Hs
    by reflexivity.
  rewrite Hs. reflexivity.
Qed.

Lemma V2_RGBtoHSB_total (h0 s0 r g b : Q) :
  exists h sa, V2.RGBtoHSB h0 s0 r g b = Some (h, sa).
Proof.
  rewrite V2_RGBtoHSB_blocks.
  assert (Hs : exists q, saturated r g b = Some q).
  { unfold saturated. qarith.
    destruct (Qfmin_case g b) as [[-> E1] | [-> E1]];
    destruct (Qfmin_case r b) as [[-> E2] | [-> E2]];
    destruct (Qfmin_case r g) as [[-> E3] | [-> E3]];
    qtests; try (exfalso; lra); eexists; reflexivity. }
  destruct Hs as ([[[sa rP] gP] bP] & ->). eexists _, _. reflexivity.
Qed.
Lemma call_RGBtoHSB_total (s : globals Q) :
  exists h sa, call_RGBtoHSB s = Some (set_sat (set_hue s h) sa).
Proof.
  unfold call_RGBtoHSB.
  destruct (V2_RGBtoHSB_total (hue s) (sat s) (red (hw s)) (green (hw s))
              (blue (hw s))) as (h & sa & ->).
  eexists _, _. reflexivity.
Qed.

Lemma incremented_spec (c : Q) :
  c < 254 -> c < incremented c /\ 1 < incremented c.
Proof.
  intros Hc. unfold incremented. qarith.
  set (c' := if Qltb c 1 then 1 else c).
  assert (Hc' : 1 <= c' < 254 /\ c <= c') by (unfold c'; qtests; lra).
  clearbody c'.
  set (d := 90 * (1 # 100) - 3 * (1 # 10) * (1 - c' * (1 # 255))).
  assert (Hd : 0 < d < 1) by (unfold d; lra).
  assert (Hlt : c' < c' * / d).
  { apply Qlt_shift_div_l; [lra |].
    assert (c' * d < c' * 1) by (apply Qmult_lt_l; lra). lra. }
  lra.
Qed.

Lemma decremented_spec (c : Q) :
  0 < c <= 254 -> 0 < decremented c < c.
Proof.
  intros Hc. unfold decremented. qarith.
  set (m := 97 * (1 # 100) - 3 * (1 # 10) * (1 - c * (1 # 255))).
  assert (Hm : 0 < m < 1) by (unfold m; lra).
  assert (0 < c * m) by (apply Qmult_lt_0_compat; lra).
  assert (c * m < c * 1) by (apply Qmult_lt_l; lra).
  lra.
Qed.

(** X19.  Increment of a channel below 254 raises it, to a value above 1
    and at most 254, leaves the two other channels, the brightness and
    the coarse level as they were, and always returns (RGBtoHSB assigns
    its hue on every path); it blinks exactly when the channel reaches
    254. *)
Theorem Increment_channel (c : channel) (s : globals Q) :
  get_channel c s < 254 ->
  exists s', Increment c s = Some s'
    /\ get_channel c s < get_channel c s' <= 254
    /\ 1 < get_channel c s'
    /\ other_channels c s s'
    /\ bright s' = bright s
    /\ pwmCyclesON (hw s') = pwmCyclesON (hw s)
    /\ waits s' = waits s ++ (if Qle_bool 254 (get_channel c s')
                              then [50; 50]%Z else []).
Proof.
  intros Hc. destruct (incremented_spec _ Hc) as (H1 & H2).
  unfold Increment. cbv zeta.
  set (r := incremented (get_channel c s)) in *.
  set (s1 := if fleb _ _ then _ else _).
  destruct (call_RGBtoHSB_total s1) as (h & sa & ->).
  eexists. split; [reflexivity |].
  assert (E : get_channel c s1 = (if Qle_bool 254 r then 254 else r)
              /\ other_channels c s s1 /\ bright s1 = bright s
              /\ pwmCyclesON (hw s1) = pwmCyclesON (hw s)
              /\ waits s1 = waits s ++ (if Qle_bool 254 r
                                        then [50; 50]%Z else [])).
  { unfold s1, other_channels. cbn [fleb ArithQ fconst].
    change (inject_Z 254) with 254.
    destruct (Qle_bool 254 r); destruct c; cbn;
      (split; [reflexivity |]);
      (split; [| split; [reflexivity | split; [reflexivity |]]]);
      rewrite <- ?app_assoc, ?app_nil_r; try reflexivity;
      intros [| |] Hne; try congruence; reflexivity. }
  destruct E as (E1 & E2 & E3 & E4 & E5).
  assert (G : forall c', get_channel c' (set_sat (set_hue s1 h) sa)
                         = get_channel c' s1) by (intros [| |]; reflexivity).
  rewrite G, E1. cbn [bright hw waits set_sat set_hue]. rewrite E5.
  destruct (Qle_bool 254 r) eqn:T;
    [apply Qle_bool_iff in T | apply Qle_bool_false in T].
  - change (Qle_bool 254 254) with true.
    split; [lra | split; [lra | split; [| auto]]].
    intros c' Hne. rewrite G. apply E2. exact Hne.
  - replace (Qle_bool 254 r) with false
      by (symmetry; apply Qle_bool_false; exact T).
    split; [lra | split; [lra | split; [| auto]]].
    intros c' Hne. rewrite G. apply E2. exact Hne.
Qed.

(** X20.  Decrement of a channel in (0.1, 254] lowers it, to a value not
    below 0.1, leaves the two other channels, the brightness and the
    coarse level as they were, and always returns; it blinks exactly when
    the scaled channel falls below 0.1. *)
Theorem Decrement_channel (c : channel) (s : globals Q) :
  1 # 10 < get_channel c s <= 254 ->
  exists s', Decrement c s = Some s'
    /\ 1 # 10 <= get_channel c s' < get_channel c s
    /\ other_channels c s s'
    /\ bright s' = bright s
    /\ pwmCyclesON (hw s') = pwmCyclesON (hw s)
    /\ waits s' = waits s ++ (if Qltb (decremented (get_channel c s)) (1 # 10)
                              then [50; 50]%Z else []).
Proof.
  intros Hc.
  destruct (decremented_spec (get_channel c s) ltac:(lra)) as (H1 & H2).
  unfold Decrement. cbv zeta.
  set (r := decremented (get_channel c s)) in *.
  set (s1 := if fltb _ _ then _ else _).
  destruct (call_RGBtoHSB_total s1) as (h & sa & ->).
  eexists. split; [reflexivity |].
  assert (E : get_channel c s1 = (if Qltb r (1 # 10) then fdec 1 10 else r)
              /\ other_channels c s s1 /\ bright s1 = bright s
              /\ pwmCyclesON (hw s1) = pwmCyclesON (hw s)
              /\ waits s1 = waits s ++ (if Qltb r (1 # 10)
                                        then [50; 50]%Z else [])).
  { unfold s1, other_channels.
    change (fltb r (fdec 1 10)) with (Qltb r (1 # 10)).
    destruct (Qltb r (1 # 10)); destruct c; cbn;
      (split; [reflexivity |]);
      (split; [| split; [reflexivity | split; [reflexivity |]]]);
      rewrite <- ?app_assoc, ?app_nil_r; try reflexivity;
      intros [| |] Hne; try congruence; reflexivity. }
  destruct E as (E1 & E2 & E3 & E4 & E5).
  assert (G : forall c', get_channel c' (set_sat (set_hue s1 h) sa)
                         = get_channel c' s1) by (intros [| |]; reflexivity).
  rewrite G, E1. cbn [bright hw waits set_sat set_hue]. rewrite E5.
  destruct (Qltb r (1 # 10)) eqn:T;
    [apply Qltb_true in T | apply Qltb_false in T].
  - split; [qarith; lra |].
    split; [| auto]. intros c' Hne. rewrite G. apply E2. exact Hne.
  - split; [lra |].
    split; [| auto]. intros c' Hne. rewrite G. apply E2. exact Hne.
Qed.

Ltac fields2 :=
  cbn [nvram hueStepTime hueStepTimer hue sat bright lastKey repeatCount
       keyTimer variableHue hw eeprom waits
       set_nvram set_hueStepTime set_hueStepTimer set_hue set_sat set_bright
       set_lastKey set_repeatCount set_keyTimer set_variableHue set_hw
       set_eeprom delay set_rgb set_pwmCyclesON set_OCR blink
       pwmCounter1 pwmCounter2 pwmCyclesON red green blue OCR1A OCR1B OCR2A]
    in *.

(** X21.  The DIM key of the v2.1 sketch never raises the light: while the
    coarse level is positive it lowers that level by one and leaves the
    brightness; at level 0 or below it scales the brightness by 0.707106,
    and a brightness that falls to 0.004 or less becomes 0 with a
    blink. *)
Theorem DIM_lowers (s : globals Q) :
  0 <= bright s <= 1 ->
  let d := key_DIM s in
  0 <= bright d <= bright s
  /\ (pwmCyclesON (hw d) <= pwmCyclesON (hw s))%Z
  /\ ((0 < pwmCyclesON (hw s))%Z ->
      pwmCyclesON (hw d) = (pwmCyclesON (hw s) - 1)%Z
      /\ bright d = bright s /\ waits d = waits s)
  /\ ((pwmCyclesON (hw s) <= 0)%Z ->
      pwmCyclesON (hw d) = pwmCyclesON (hw s)
      /\ (4 # 1000 < bright s * (707106 # 1000000) ->
          bright d == bright s * (707106 # 1000000) /\ waits d = waits s)
      /\ (bright s * (707106 # 1000000) <= 4 # 1000 ->
          bright d == 0 /\ waits d = waits s ++ [50; 50]%Z)).
Proof.
  intros Hb. cbv zeta. unfold key_DIM. cbv zeta.
  assert (Hm : 0 <= bright s * (707106 # 1000000) <= bright s).
  { split; [apply Qmult_le_0_compat; lra |].
    assert ((707106 # 1000000) * bright s <= 1 * bright s)
      by (apply Qmult_le_compat_r; lra). lra. }
  destruct (pwmCyclesON (hw s) >? 0)%Z eqn:T.
  - fields2. repeat split; try lra; try lia.
  - fields2. qarith.
    change (707106 * (1 # 1000000)) with (707106 # 1000000) in *.
    change (4 * (1 # 1000)) with (4 # 1000) in *.
    qtest; fields2; rewrite <- ?app_assoc; cbn [app];
      repeat split; try lra; try lia.
Qed.

(** X22.  The BRIGHTEN key of the v2.1 sketch never lowers the light: from
    black it sets the brightness to 0.004; otherwise it scales the
    brightness by 1.414213, and a brightness that would pass 1 is held at
    1 while the coarse level rises by one, up to 7; at level 7 or above
    the key blinks instead. *)
Theorem BRIGHTEN_raises (s : globals Q) :
  0 <= bright s <= 1 ->
  let u := key_BRIGHTEN s in
  bright s <= bright u <= 1
  /\ (pwmCyclesON (hw s) <= pwmCyclesON (hw u)
      <= Z.max 7 (pwmCyclesON (hw s)))%Z
  /\ (bright s == 0 ->
      bright u == 4 # 1000
      /\ pwmCyclesON (hw u) = pwmCyclesON (hw s) /\ waits u = waits s)
  /\ (0 < bright s -> bright s * (1414213 # 1000000) <= 1 ->
      bright u == bright s * (1414213 # 1000000)
      /\ pwmCyclesON (hw u) = pwmCyclesON (hw s) /\ waits u = waits s)
  /\ (1 < bright s * (1414213 # 1000000) ->
      bright u == 1
      /\ ((pwmCyclesON (hw s) < 7)%Z ->
          pwmCyclesON (hw u) = (pwmCyclesON (hw s) + 1)%Z
          /\ waits u = waits s)
      /\ ((7 <= pwmCyclesON (hw s))%Z ->
          pwmCyclesON (hw u) = pwmCyclesON (hw s)
          /\ waits u = waits s ++ [50; 50]%Z)).
Proof.
  intros Hb. cbv zeta. unfold key_BRIGHTEN. cbv zeta.
  assert (Hm : bright s <= bright s * (1414213 # 1000000)).
  { assert (1 * bright s <= (1414213 # 1000000) * bright s)
      by (apply Qmult_le_compat_r; lra). lra. }
  qarith.
  change (1414213 * (1 # 1000000)) with (1414213 # 1000000) in *.
  change (4 * (1 # 1000)) with (4 # 1000) in *.
  destruct (Qeq_bool (bright s) 0) eqn:T0;
    [apply Qeq_bool_iff in T0 | apply Qeq_bool_false in T0]; fields2.
  - replace (Qltb 1 (4 # 1000)) with false by reflexivity.
    fields2. repeat split; try lra; try lia; try reflexivity.
  - destruct (Qltb 1 (bright s * (1414213 # 1000000))) eqn:T1;
      [apply Qltb_true in T1 | apply Qltb_false in T1]; fields2.
    + destruct (pwmCyclesON (hw s) <? 7)%Z eqn:T7; fields2;
        rewrite <- ?app_assoc; cbn [app];
        repeat split; try lra; try lia; try reflexivity.
    + repeat split; try lra; try lia; try reflexivity.
Qed.
End KeysV2.

Lemma INIT_from_red_witness :
  0 <= V2.hue orange < 64
  /\ V2.hue (V2.key_INIT orange) = 64
  /\ V2.valid_key_block 1000 V1.INIT orange = None.
Proof.
  assert (Hh : 0 <= V2.hue orange < 64)
    by (split; [discriminate | reflexivity]).
  split; [exact Hh |].
  exact (INIT_from_red 1000 orange Hh).
Defined.

Lemma Increment_channel_witness :
  V2.get_channel V2.Red orange < 254
  /\ exists s', V2.Increment V2.Red orange = Some s'
     /\ V2.get_channel V2.Red orange < V2.get_channel V2.Red s' <= 254
     /\ 1 < V2.get_channel V2.Red s'
     /\ other_channels V2.Red orange s'
     /\ V2.bright s' = V2.bright orange
     /\ V2.pwmCyclesON (V2.hw s') = V2.pwmCyclesON (V2.hw orange)
     /\ V2.waits s'
        = V2.waits orange
          ++ (if Qle_bool 254 (V2.get_channel V2.Red s')
              then [50; 50]%Z else []).
Proof.
  assert (Hc : V2.get_channel V2.Red orange < 254) by reflexivity.
  split; [exact Hc |].
  exact (Increment_channel V2.Red orange Hc).
Defined.

Lemma Decrement_channel_witness :
  1 # 10 < V2.get_channel V2.Green orange <= 254
  /\ exists s', V2.Decrement V2.Green orange = Some s'
     /\ 1 # 10 <= V2.get_channel V2.Green s'
        < V2.get_channel V2.Green orange
     /\ other_channels V2.Green orange s'
     /\ V2.bright s' = V2.bright orange
     /\ V2.pwmCyclesON (V2.hw s') = V2.pwmCyclesON (V2.hw orange)
     /\ V2.waits s'
        = V2.waits orange
          ++ (if Qltb (V2.decremented (V2.get_channel V2.Green orange))
                      (1 # 10)
              then [50; 50]%Z else []).
Proof.
  assert (Hc : 1 # 10 < V2.get_channel V2.Green orange <= 254)
    by (split; [reflexivity | discriminate]).
  split; [exact Hc |].
  exact (Decrement_channel V2.Green orange Hc).
Defined.

Lemma DIM_lowers_witness :
  0 <= V2.bright orange <= 1
  /\ let s := orange in
     let d := V2.key_DIM s in
     0 <= V2.bright d <= V2.bright s
     /\ (V2.pwmCyclesON (V2.hw d) <= V2.pwmCyclesON (V2.hw s))%Z
     /\ ((0 < V2.pwmCyclesON (V2.hw s))%Z ->
         V2.pwmCyclesON (V2.hw d) = (V2.pwmCyclesON (V2.hw s) - 1)%Z
         /\ V2.bright d = V2.bright s /\ V2.waits d = V2.waits s)
     /\ ((V2.pwmCyclesON (V2.hw s) <= 0)%Z ->
         V2.pwmCyclesON (V2.hw d) = V2.pwmCyclesON (V2.hw s)
         /\ (4 # 1000 < V2.bright s * (707106 # 1000000) ->
             V2.bright d == V2.bright s * (707106 # 1000000)
             /\ V2.waits d = V2.waits s)
         /\ (V2.bright s * (707106 # 1000000) <= 4 # 1000 ->
             V2.bright d == 0
             /\ V2.waits d = V2.waits s ++ [50; 50]%Z)).
Proof.
  assert (Hb : 0 <= V2.bright orange <= 1) by (split; discriminate).
  split; [exact Hb |].
  exact (DIM_lowers orange Hb).
Defined.

Lemma BRIGHTEN_raises_witness :
  0 <= V2.bright orange <= 1
  /\ let s := orange in
     let u := V2.key_BRIGHTEN s in
     V2.bright s <= V2.bright u <= 1
     /\ (V2.pwmCyclesON (V2.hw s) <= V2.pwmCyclesON (V2.hw u)
         <= Z.max 7 (V2.pwmCyclesON (V2.hw s)))%Z
     /\ (V2.bright s == 0 ->
         V2.bright u == 4 # 1000
         /\ V2.pwmCyclesON (V2.hw u) = V2.pwmCyclesON (V2.hw s)
         /\ V2.waits u = V2.waits s)
     /\ (0 < V2.bright s -> V2.bright s * (1414213 # 1000000) <= 1 ->
         V2.bright u == V2.bright s * (1414213 # 1000000)
         /\ V2.pwmCyclesON (V2.hw u) = V2.pwmCyclesON (V2.hw s)
         /\ V2.waits u = V2.waits s)
     /\ (1 < V2.bright s * (1414213 # 1000000) ->
         V2.bright u == 1
         /\ ((V2.pwmCyclesON (V2.hw s) < 7)%Z ->
             V2.pwmCyclesON (V2.hw u) = (V2.pwmCyclesON (V2.hw s) + 1)%Z
             /\ V2.waits u = V2.waits s)
         /\ ((7 <= V2.pwmCyclesON (V2.hw s))%Z ->
             V2.pwmCyclesON (V2.hw u) = V2.pwmCyclesON (V2.hw s)
             /\ V2.waits u = V2.waits s ++ [50; 50]%Z)).
Proof.
  assert (Hb : 0 <= V2.bright orange <= 1) by (split; discriminate).
  split; [exact Hb |].
  exact (BRIGHTEN_raises orange Hb).
Defined.
